(** * STMPO local After Effects orchestrator: a shallow embedding

    The definitions below follow [stmpo/orchestrator.py] and
    [stmpo_stop.py] function by function.  Python integers are [Z],
    Python [str] values are [string] (each character read as a code
    point below 256), Python sets are [gset], and a call that may raise
    returns a [result]. *)

From stdpp Require Import gmap strings list sorting.
From Stdlib Require Import ZArith Lia Ascii.

Open Scope Z_scope.

#[local] Coercion Z.of_nat : nat >-> Z.

(** ** Python outcomes *)

Inductive exn :=
  TypeError | ValueError | ZeroDivisionError | OverflowError | MemoryError.

Inductive result (A : Type) :=
  | Ok (a : A)
  | Raise (e : exn).
Arguments Ok {A} a.
Arguments Raise {A} e.

Definition bind {A B} (r : result A) (k : A -> result B) : result B :=
  match r with
  | Ok a => k a
  | Raise e => Raise e
  end.

Notation "x <- r ;; k" := (bind r (fun x => k))
  (at level 100, r at next level, right associativity).

(** ** RangeSplitter: [split_ranges] (orchestrator.py, 375-393) *)

Module RangeSplitter.

(** [parts] after the two clamping statements. *)
Definition clamp_parts (total parts : Z) : Z :=
  let parts := if decide (parts <= 0) then 1 else parts in
  if decide (parts > total) then total else parts.

(** The body of [for i in range(parts)]: [n] iterations remain, [i] is the
    loop index and [cur] the next free frame. *)
Fixpoint split_loop (base rem : Z) (n : nat) (i cur : Z) : list (Z * Z) :=
  match n with
  | O => []
  | S n' =>
      let span := base + (if decide (i < rem) then 1 else 0) in
      let s := cur in
      let e := cur + span - 1 in
      (s, e) :: split_loop base rem n' (i + 1) (e + 1)
  end.

(** [total // parts] raises when the clamped [parts] is 0, which happens
    exactly for an empty interval ([end = start - 1]). *)
Definition split_ranges (start end_ parts : Z) : result (list (Z * Z)) :=
  let total := end_ - start + 1 in
  let parts := clamp_parts total parts in
  if decide (parts = 0) then Raise ZeroDivisionError
  else
    let base := total `div` parts in
    let rem := total `mod` parts in
    Ok (split_loop base rem (Z.to_nat parts) 0 start).

(** Number of frames of an inclusive range. *)
Definition frames (r : Z * Z) : Z := r.2 - r.1 + 1.

(** Each range begins one frame after the previous one ends. *)
Definition contiguous (rs : list (Z * Z)) : Prop :=
  ∀ (i : nat) r r', rs !! i = Some r → rs !! S i = Some r' → r'.1 = r.2 + 1.

Definition sorted_by_start (rs : list (Z * Z)) : Prop :=
  ∀ (i j : nat) r r', (i < j)%nat → rs !! i = Some r → rs !! j = Some r' → r.1 < r'.1.

Definition pairwise_disjoint (rs : list (Z * Z)) : Prop :=
  ∀ (i j : nat) r r' f, i ≠ j → rs !! i = Some r → rs !! j = Some r' →
    ¬ (r.1 <= f <= r.2 ∧ r'.1 <= f <= r'.2).

Definition union_is (rs : list (Z * Z)) (start end_ : Z) : Prop :=
  ∀ f, start <= f <= end_ ↔ ∃ r, r ∈ rs ∧ r.1 <= f <= r.2.

(** Frames handed out before range [i]: [i] ranges of [base] frames plus one
    extra frame for each of the first [rem]. *)
Definition offset (base rem i : Z) : Z := i * base + Z.min i rem.

Lemma offset_step base rem i :
  offset base rem (i + 1) =
  offset base rem i + base + (if decide (i < rem) then 1 else 0).
Proof. unfold offset. case_decide; lia. Qed.

Lemma split_loop_length base rem n i cur :
  length (split_loop base rem n i cur) = n.
Proof. revert i cur. induction n as [|n IH]; intros; simpl; [done|]. by rewrite IH. Qed.

Lemma split_loop_lookup base rem n : ∀ i cur (k : nat), (k < n)%nat →
  split_loop base rem n i cur !! k =
  Some (cur + offset base rem (i + k) - offset base rem i,
        cur + offset base rem (i + k + 1) - offset base rem i - 1).
Proof.
  induction n as [|n IH]; intros i cur k Hk; [lia|].
  destruct k as [|k]; simpl.
  - rewrite Z.add_0_r, offset_step. f_equal. f_equal; lia.
  - rewrite IH by lia.
    replace (i + 1 + k) with (i + S k) by lia.
    rewrite (offset_step base rem i). f_equal. f_equal; lia.
Qed.

Lemma offset_mono base rem (i j : nat) :
  1 <= base → 0 <= rem → (i <= j)%nat →
  offset base rem i + (j - i) <= offset base rem j.
Proof.
  intros Hb Hr. induction 1 as [|j Hle IH]; [lia|].
  replace (Z.of_nat (S j)) with (j + 1) by lia.
  rewrite offset_step. case_decide; lia.
Qed.

Lemma offset_locate base rem (p : nat) x :
  1 <= base → 0 <= rem → 0 <= x < offset base rem p →
  ∃ k : nat, (k < p)%nat ∧ offset base rem k <= x < offset base rem (k + 1).
Proof.
  intros Hb Hr. induction p as [|p IH]; intros Hx.
  - unfold offset in Hx. lia.
  - destruct (decide (x < offset base rem p)) as [Hlt|Hge].
    + destruct IH as (k & ? & ?); [lia|]. exists k. split; [lia|done].
    + exists p. split; [lia|]. replace (p + 1) with (Z.of_nat (S p)) by lia. lia.
Qed.

Lemma split_closed_form start end_ parts :
  start <= end_ →
  let total := end_ - start + 1 in
  let p := clamp_parts total parts in
  let base := total `div` p in
  let rem := total `mod` p in
  1 <= p <= total ∧ 1 <= base ∧ 0 <= rem < p ∧
  offset base rem (Z.to_nat p) = total ∧
  split_ranges start end_ parts = Ok (split_loop base rem (Z.to_nat p) 0 start) ∧
  ∀ k : nat, (k < Z.to_nat p)%nat →
    split_loop base rem (Z.to_nat p) 0 start !! k =
    Some (start + offset base rem k, start + offset base rem (k + 1) - 1).
Proof.
  intros Hse total p base rem.
  assert (Hp : 1 <= p <= total).
  { subst p. unfold clamp_parts. repeat case_decide; lia. }
  assert (Hrem : 0 <= rem < p) by (apply Z.mod_pos_bound; lia).
  assert (Hdm : total = p * base + rem) by (apply Z.div_mod; lia).
  assert (Hb : 1 <= base).
  { subst base. apply Z.div_le_lower_bound; lia. }
  split_and!; try lia.
  - unfold offset. rewrite Z2Nat.id by lia. lia.
  - unfold split_ranges. fold total. fold p. case_decide; [lia|done].
  - intros k Hk. rewrite split_loop_lookup by done.
    assert (offset base rem 0 = 0) as -> by (unfold offset; lia).
    rewrite !Z.add_0_l. f_equal. f_equal; lia.
Qed.

(** C2. For [start <= end] and every [parts], [split_ranges] returns
    ranges that are sorted by start, pairwise disjoint and contiguous, whose
    union is exactly [[start, end]]; with [parts] clamped to [[1, total]],
    [base = total div parts] and [rem = total mod parts], the first [rem]
    ranges have [base + 1] frames and the others [base], so two ranges
    differ in size by at most one frame. *)
Theorem split_ranges_partition (start end_ parts : Z) :
  start <= end_ →
  let total := end_ - start + 1 in
  let p := clamp_parts total parts in
  let base := total `div` p in
  let rem := total `mod` p in
  ∃ rs, split_ranges start end_ parts = Ok rs ∧
    1 <= p <= total ∧ (1 <= parts <= total → p = parts) ∧
    length rs = Z.to_nat p ∧
    (∀ (i : nat) r, rs !! i = Some r →
       frames r = base + (if decide (i < rem) then 1 else 0)) ∧
    sorted_by_start rs ∧ pairwise_disjoint rs ∧ contiguous rs ∧
    union_is rs start end_ ∧
    (∀ r r', r ∈ rs → r' ∈ rs → -1 <= frames r - frames r' <= 1).
Proof.
  intros Hse total p base rem.
  destruct (split_closed_form start end_ parts Hse)
    as (Hp & Hb & Hrem & Htot & Hrun & Hlk).
  fold total p base rem in Hp, Hb, Hrem, Htot, Hrun, Hlk.
  set (rs := split_loop base rem (Z.to_nat p) 0 start) in *.
  assert (Hlen : length rs = Z.to_nat p) by apply split_loop_length.
  assert (Hget : ∀ (i : nat) r, rs !! i = Some r →
    (i < Z.to_nat p)%nat ∧
    r = (start + offset base rem i, start + offset base rem (i + 1) - 1)).
  { intros i r Hi. pose proof (lookup_lt_Some _ _ _ Hi) as Hlt.
    rewrite Hlen in Hlt. split; [done|]. rewrite Hlk in Hi by done. congruence. }
  assert (Hsize : ∀ (i : nat) r, rs !! i = Some r →
    frames r = base + (if decide (i < rem) then 1 else 0)).
  { intros i r Hi. destruct (Hget i r Hi) as [_ ->]. unfold frames; simpl.
    rewrite offset_step. lia. }
  exists rs. split_and!; try done; try lia.
  - intros Hparts. subst p. unfold clamp_parts.
    destruct (decide (parts <= 0)); [lia|]. destruct (decide (parts > total)); lia.
  - intros i j r r' Hij Hi Hj.
    destruct (Hget i r Hi) as [_ ->]. destruct (Hget j r' Hj) as [_ ->]. simpl.
    pose proof (offset_mono base rem i j Hb (proj1 Hrem)). lia.
  - intros i j r r' f Hij Hi Hj [Hf Hf'].
    destruct (Hget i r Hi) as [_ ->]. destruct (Hget j r' Hj) as [_ ->].
    simpl in Hf, Hf'.
    destruct (decide (i < j)%nat).
    + pose proof (offset_mono base rem (S i) j Hb (proj1 Hrem)).
      replace (Z.of_nat (S i)) with (i + 1) in * by lia. lia.
    + pose proof (offset_mono base rem (S j) i Hb (proj1 Hrem)).
      replace (Z.of_nat (S j)) with (j + 1) in * by lia. lia.
  - intros i r r' Hi Hj.
    destruct (Hget i r Hi) as [_ ->]. destruct (Hget (S i) r' Hj) as [_ ->].
    simpl. replace (Z.of_nat (S i)) with (i + 1) by lia. lia.
  - intros f. split.
    + intros Hf.
      destruct (offset_locate base rem (Z.to_nat p) (f - start) Hb (proj1 Hrem))
        as (k & Hk & Hfk); [lia|].
      eexists. split; [eapply list_elem_of_lookup_2, Hlk, Hk|]. simpl. lia.
    + intros (r & Hr & Hf). apply list_elem_of_lookup in Hr as [i Hi].
      destruct (Hget i r Hi) as [Hlt ->]. simpl in Hf.
      pose proof (offset_mono base rem 0 i Hb (proj1 Hrem)).
      pose proof (offset_mono base rem (S i) (Z.to_nat p) Hb (proj1 Hrem)).
      replace (Z.of_nat (S i)) with (i + 1) in * by lia.
      unfold offset at 1 in H. lia.
  - intros r r' Hr Hr'.
    apply list_elem_of_lookup in Hr as [i Hi], Hr' as [j Hj].
    rewrite (Hsize i r Hi), (Hsize j r' Hj). repeat case_decide; lia.
Qed.

(** Frames 1-100 in three parts. *)
Lemma split_ranges_partition_witness :
  ∃ rs, split_ranges 1 100 3 = Ok rs ∧ length rs = 3%nat ∧ union_is rs 1 100.
Proof.
  destruct (split_ranges_partition 1 100 3) as (rs & ? & _ & _ & ? & _ & _ & _ & _ & ? & _);
    [lia|]. exists rs. split_and!; done.
Defined.

Example split_ranges_1_100_3 :
  split_ranges 1 100 3 = Ok [(1, 34); (35, 67); (68, 100)].
Proof. reflexivity. Qed.

Example split_ranges_empty_interval :
  split_ranges 5 4 3 = Raise ZeroDivisionError.
Proof. reflexivity. Qed.

End RangeSplitter.

(** ** AffinityPlanner: [build_affinity_blocks] (orchestrator.py, 594-607) *)

Module AffinityPlanner.

(** [for p in pools: all_cpus.extend(p)]. *)
Definition extend_all (pools : list (list Z)) : list Z :=
  fold_left (λ all_cpus p, all_cpus ++ p) pools [].

(** [list(dict.fromkeys(xs))]: a dict keeps its keys in insertion order and
    inserting a key that is present leaves the order alone. *)
Definition fromkeys (xs : list Z) : list Z :=
  fold_left (λ keys x, if decide (x ∈ keys) then keys else keys ++ [x]) xs [].

(** [for i, cpu in enumerate(all_cpus): blocks[i % concurrency].append(cpu)],
    entered at index [i]. *)
Fixpoint distribute (concurrency i : Z) (cpus : list Z) (blocks : list (list Z))
  : list (list Z) :=
  match cpus with
  | [] => blocks
  | cpu :: rest =>
      distribute concurrency (i + 1) rest
        (alter (λ b, b ++ [cpu]) (Z.to_nat (i `mod` concurrency)) blocks)
  end.

Definition build_affinity_blocks (concurrency : Z) (pools : list (list Z))
  : list (list Z) :=
  if decide (concurrency <= 0) then []
  else
    let all_cpus := fromkeys (extend_all pools) in
    match all_cpus with
    | [] => []
    | _ => distribute concurrency 0 all_cpus (replicate (Z.to_nat concurrency) [])
    end.

(** The ids of [cpus] whose running index, counted from [i], is congruent
    to [j]. *)
Fixpoint picks (n : Z) (j : nat) (i : Z) (cpus : list Z) : list Z :=
  match cpus with
  | [] => []
  | cpu :: rest =>
      (if decide (Z.to_nat (i `mod` n) = j) then [cpu] else []) ++ picks n j (i + 1) rest
  end.

Lemma elem_of_concat (pools : list (list Z)) x :
  x ∈ concat pools ↔ ∃ p, p ∈ pools ∧ x ∈ p.
Proof.
  induction pools as [|q pools IH]; simpl.
  - split; [by intros ?%elem_of_nil|]. by intros (p & ?%elem_of_nil & _).
  - rewrite elem_of_app, IH. split.
    + intros [?|(p & ? & ?)]; [exists q|exists p]; rewrite elem_of_cons; auto.
    + intros (p & [->|?]%elem_of_cons & ?); eauto.
Qed.

Lemma extend_all_concat pools : extend_all pools = concat pools.
Proof.
  assert (∀ acc, fold_left (λ a p : list Z, a ++ p) pools acc = acc ++ concat pools) as H.
  { induction pools as [|p ps IH]; intros acc; simpl.
    - by rewrite app_nil_r.
    - by rewrite IH, app_assoc. }
  unfold extend_all. by rewrite H.
Qed.

Section fromkeys_facts.

Let step (keys : list Z) (x : Z) : list Z :=
  if decide (x ∈ keys) then keys else keys ++ [x].

Lemma fromkeys_fold xs : ∀ acc, NoDup acc →
  let r := fold_left step xs acc in
  NoDup r ∧ (∀ x, x ∈ r ↔ x ∈ acc ∨ x ∈ xs) ∧
  ∃ tl, r = acc ++ tl ∧ sublist tl xs.
Proof.
  induction xs as [|x xs IH]; intros acc Hnd; simpl.
  - split_and!; [done| |].
    + intros x. rewrite elem_of_nil. tauto.
    + exists []. by rewrite app_nil_r.
  - unfold step at 2 4 6. destruct (decide (x ∈ acc)) as [Hin|Hnin].
    + destruct (IH acc Hnd) as (H1 & H2 & tl & H3 & H4).
      split_and!; [done| |].
      * intros y. rewrite H2, elem_of_cons.
        split; [tauto|]. intros [?|[->|?]]; tauto.
      * exists tl. split; [done|]. by apply sublist_cons.
    + assert (Hnd' : NoDup (acc ++ [x])).
      { apply NoDup_app. split_and!; [done| |apply NoDup_singleton].
        intros y Hy ->%list_elem_of_singleton. done. }
      destruct (IH (acc ++ [x]) Hnd') as (H1 & H2 & tl & H3 & H4).
      split_and!; [done| |].
      * intros y. rewrite H2, elem_of_app, !elem_of_cons, elem_of_nil. tauto.
      * exists (x :: tl). split; [by rewrite H3, <- app_assoc|]. by apply sublist_skip.
Qed.

End fromkeys_facts.

(** [fromkeys] removes duplicates and keeps the order of the input. *)
Lemma fromkeys_spec xs :
  NoDup (fromkeys xs) ∧ (∀ x, x ∈ fromkeys xs ↔ x ∈ xs) ∧ sublist (fromkeys xs) xs.
Proof.
  destruct (fromkeys_fold xs [] (NoDup_nil_2)) as (H1 & H2 & tl & H3 & H4).
  unfold fromkeys. split_and!; [done| |].
  - intros x. rewrite H2, elem_of_nil. tauto.
  - simpl in H3. by rewrite H3.
Qed.

Lemma distribute_length n cpus : ∀ i blocks,
  length (distribute n i cpus blocks) = length blocks.
Proof.
  induction cpus as [|c cpus IH]; intros i blocks; simpl; [done|].
  by rewrite IH, length_alter.
Qed.

Lemma distribute_lookup n cpus : ∀ i blocks (j : nat) b,
  blocks !! j = Some b →
  distribute n i cpus blocks !! j = Some (b ++ picks n j i cpus).
Proof.
  induction cpus as [|c cpus IH]; intros i blocks j b Hj; simpl.
  - by rewrite app_nil_r.
  - destruct (decide (Z.to_nat (i `mod` n) = j)) as [->|Hne].
    + erewrite IH; [|by rewrite list_lookup_alter_eq, Hj]. by rewrite <- app_assoc.
    + erewrite IH; [|by rewrite list_lookup_alter_ne]. done.
Qed.

Lemma elem_of_picks n j cpus : ∀ i x,
  x ∈ picks n j i cpus ↔
  ∃ k : nat, cpus !! k = Some x ∧ Z.to_nat ((i + k) `mod` n) = j.
Proof.
  induction cpus as [|c cpus IH]; intros i x; simpl.
  - split; [by intros ?%elem_of_nil|]. by intros (k & Hk & _).
  - rewrite elem_of_app, IH. split.
    + intros [Hx|(k & Hk & Hm)].
      * case_decide; [|by apply elem_of_nil in Hx].
        apply list_elem_of_singleton in Hx as ->. exists 0%nat. split; [done|].
        by rewrite Z.add_0_r.
      * exists (S k). split; [done|]. rewrite <- Hm. do 2 f_equal. lia.
    + intros ([|k] & Hk & Hm); simpl in Hk.
      * left. injection Hk as ->. rewrite Z.add_0_r in Hm.
        rewrite decide_True by done. by apply list_elem_of_singleton.
      * right. exists k. split; [done|]. rewrite <- Hm. do 2 f_equal. lia.
Qed.

Lemma picks_sublist n j cpus : ∀ i, sublist (picks n j i cpus) cpus.
Proof.
  induction cpus as [|c cpus IH]; intros i; simpl; [done|].
  case_decide; simpl; [by apply sublist_skip|by apply sublist_cons].
Qed.

(** Every block of a run over a non-empty id list is the round-robin pick
    of its index. *)
Lemma build_affinity_blocks_lookup n pools (j : nat) b :
  0 < n →
  build_affinity_blocks n pools !! j = Some b →
  (j < Z.to_nat n)%nat ∧ b = picks n j 0 (fromkeys (extend_all pools)).
Proof.
  intros Hn. unfold build_affinity_blocks. rewrite decide_False by lia.
  destruct (fromkeys (extend_all pools)) as [|c cs] eqn:Hall; [done|].
  intros Hj. pose proof (lookup_lt_Some _ _ _ Hj) as Hlt.
  rewrite distribute_length, length_replicate in Hlt. split; [done|].
  erewrite distribute_lookup in Hj; [|by apply lookup_replicate_2].
  rewrite app_nil_l in Hj. by injection Hj as <-.
Qed.

Lemma build_affinity_blocks_pick n pools (j : nat) :
  0 < n → fromkeys (extend_all pools) ≠ [] → (j < Z.to_nat n)%nat →
  build_affinity_blocks n pools !! j = Some (picks n j 0 (fromkeys (extend_all pools))).
Proof.
  intros Hn Hne Hj. unfold build_affinity_blocks. rewrite decide_False by lia.
  destruct (fromkeys (extend_all pools)) as [|c cs] eqn:Hall; [done|].
  erewrite distribute_lookup; [|by apply lookup_replicate_2]. done.
Qed.

(** C7. For [n > 0] and a non-empty list of pools, the ids are the
    deduplicated, order-preserving flattening of the pools; the [i]-th id
    goes to block [i mod n]; no id is in two blocks or twice in one; and
    every id of the pools is in exactly one block. *)
Theorem build_affinity_blocks_round_robin (n : Z) (pools : list (list Z)) :
  0 < n → pools ≠ [] →
  let all_cpus := fromkeys (concat pools) in
  let blocks := build_affinity_blocks n pools in
  NoDup all_cpus ∧ sublist all_cpus (concat pools) ∧
  (∀ cpu, cpu ∈ all_cpus ↔ ∃ p, p ∈ pools ∧ cpu ∈ p) ∧
  (∀ (i : nat) cpu, all_cpus !! i = Some cpu →
     ∃ b, blocks !! Z.to_nat (i `mod` n) = Some b ∧ cpu ∈ b) ∧
  (∀ (j : nat) b cpu, blocks !! j = Some b → cpu ∈ b →
     ∃ i : nat, all_cpus !! i = Some cpu ∧ Z.to_nat (i `mod` n) = j) ∧
  (∀ (j k : nat) b b' cpu, blocks !! j = Some b → blocks !! k = Some b' →
     cpu ∈ b → cpu ∈ b' → j = k) ∧
  (∀ (j : nat) b, blocks !! j = Some b → NoDup b) ∧
  (∀ cpu p, p ∈ pools → cpu ∈ p →
     ∃ j : nat, (∃ b, blocks !! j = Some b ∧ cpu ∈ b) ∧
       ∀ (k : nat) b', blocks !! k = Some b' → cpu ∈ b' → k = j).
Proof.
  intros Hn _ all_cpus blocks.
  destruct (fromkeys_spec (concat pools)) as (Hnd & Hin & Hsub).
  fold all_cpus in Hnd, Hin, Hsub.
  assert (Hblk : ∀ (j : nat) b, blocks !! j = Some b →
            (j < Z.to_nat n)%nat ∧ b = picks n j 0 all_cpus).
  { intros j b Hj. apply build_affinity_blocks_lookup in Hj; [|done].
    by rewrite extend_all_concat in Hj. }
  assert (Hto : ∀ (i : nat) cpu, all_cpus !! i = Some cpu →
     ∃ b, blocks !! Z.to_nat (i `mod` n) = Some b ∧ cpu ∈ b).
  { intros i cpu Hi. eexists. split.
    - subst blocks. rewrite build_affinity_blocks_pick; [done|done| |].
      + rewrite extend_all_concat. fold all_cpus. by destruct all_cpus.
      + pose proof (Z.mod_pos_bound i n Hn). lia.
    - rewrite extend_all_concat. fold all_cpus. apply elem_of_picks.
      exists i. by rewrite Z.add_0_l. }
  assert (Hfrom : ∀ (j : nat) b cpu, blocks !! j = Some b → cpu ∈ b →
     ∃ i : nat, all_cpus !! i = Some cpu ∧ Z.to_nat (i `mod` n) = j).
  { intros j b cpu Hj Hc. destruct (Hblk j b Hj) as [_ ->].
    apply elem_of_picks in Hc as (i & Hi & Hm). exists i. by rewrite Z.add_0_l in Hm. }
  assert (Huniq : ∀ (j k : nat) b b' cpu, blocks !! j = Some b →
     blocks !! k = Some b' → cpu ∈ b → cpu ∈ b' → j = k).
  { intros j k b b' cpu Hj Hk Hc Hc'.
    destruct (Hfrom j b cpu Hj Hc) as (i & Hi & <-).
    destruct (Hfrom k b' cpu Hk Hc') as (i' & Hi' & <-).
    by rewrite (NoDup_lookup _ _ _ _ Hnd Hi Hi'). }
  split_and!; try done.
  - intros cpu. by rewrite Hin, elem_of_concat.
  - intros j b Hj. destruct (Hblk j b Hj) as [_ ->].
    apply (sublist_NoDup _ all_cpus); [done|apply picks_sublist].
  - intros cpu p Hp Hc.
    assert (cpu ∈ all_cpus) as [i Hi]%list_elem_of_lookup.
    { apply Hin, elem_of_concat. eauto. }
    destruct (Hto i cpu Hi) as (b & Hb & Hcb).
    exists (Z.to_nat (i `mod` n)). split; [eauto|].
    intros k b' Hk Hc'. by apply (Huniq k _ b' b cpu).
Qed.

(** Two overlapping pools and three workers. *)
Lemma build_affinity_blocks_round_robin_witness :
  build_affinity_blocks 3 [[0; 1; 2; 3]; [2; 3; 4; 5; 6]] = [[0; 3; 6]; [1; 4]; [2; 5]] ∧
  NoDup (fromkeys (concat [[0; 1; 2; 3]; [2; 3; 4; 5; 6]])).
Proof.
  split; [reflexivity|].
  apply (build_affinity_blocks_round_robin 3 [[0; 1; 2; 3]; [2; 3; 4; 5; 6]]); [lia|done].
Defined.

Example fromkeys_keeps_first : fromkeys [3; 1; 3; 2; 1] = [3; 1; 2].
Proof. reflexivity. Qed.

Example build_affinity_blocks_no_workers : build_affinity_blocks 0 [[0; 1]] = [].
Proof. reflexivity. Qed.

End AffinityPlanner.

(** ** ConcurrencyPlanner: [auto_concurrency] (orchestrator.py, 516-560) and
    the planning lines of [run_orchestrator] (790-799) *)

Module ConcurrencyPlanner.

(** The fields of the argument namespace read by the planner. *)
Record args := {
  concurrency : Z;
  max_concurrency : Z;
  mfr_threads : Z;
  disable_mfr : bool;
}.

(** [x or d] on integers: [0] is the only falsy integer. *)
Definition py_or (x d : Z) : Z := if decide (x = 0) then d else x.

(** [logical] is what [_cpu_count()] returned.  [ram_quotient] stands for the
    floating-point part of the function: it is [Some q] when
    [usable_ram_gb > 0], with [q = int(usable_ram_gb // ram_per_proc_gb)],
    and [None] when no RAM figure was detected. *)
Definition auto_concurrency (a : args) (logical : Z) (ram_quotient : option Z) : Z :=
  let max_c := py_or (max_concurrency a) 24 in
  if decide (logical <= 0) then Z.max 1 (Z.min 4 max_c)
  else
    let max_by_ram := match ram_quotient with Some q => q | None => logical end in
    let mfr_threads := py_or (mfr_threads a) 0 in
    let target_threads_per_proc :=
      if disable_mfr a then Z.max 8 (py_or mfr_threads 8)
      else Z.max 16 (py_or mfr_threads 16) in
    let base_by_threads := Z.max 1 (logical `div` target_threads_per_proc) in
    let base := Z.max 1 (Z.min max_c (Z.min max_by_ram (Z.min base_by_threads logical))) in
    base.

(** [requested] as [run_orchestrator] normalises it (792-794). *)
Definition requested (a : args) : Z :=
  let requested := py_or (concurrency a) 0 in
  if decide (requested < 0) then 0 else requested.

(** The worker count after lines 790-799 of [run_orchestrator]. *)
Definition planned_concurrency (a : args) (start end_ : Z) (logical : Z)
    (ram_quotient : option Z) : Z :=
  let total_frames := end_ - start + 1 in
  let requested := requested a in
  let concurrency :=
    if decide (requested >= 1) then requested
    else auto_concurrency a logical ram_quotient in
  if decide (total_frames <= 1) then 1 else concurrency.

Lemma auto_concurrency_ge_1 a logical q : 1 <= auto_concurrency a logical q.
Proof. unfold auto_concurrency. case_decide; lia. Qed.

Lemma auto_concurrency_le a logical q :
  1 <= max_concurrency a → 1 <= logical →
  auto_concurrency a logical q <= Z.min (max_concurrency a) logical.
Proof.
  intros Hm Hl. unfold auto_concurrency, py_or.
  rewrite decide_False by lia. rewrite (decide_False (P := max_concurrency a = 0)) by lia.
  lia.
Qed.

Lemma planned_concurrency_ge_1 a start end_ logical q :
  1 <= planned_concurrency a start end_ logical q.
Proof.
  unfold planned_concurrency.
  pose proof (auto_concurrency_ge_1 a logical q). repeat case_decide; lia.
Qed.

Lemma planned_concurrency_single_frame a start end_ logical q :
  end_ - start + 1 <= 1 → planned_concurrency a start end_ logical q = 1.
Proof. intros H. unfold planned_concurrency. by rewrite (decide_True (P := end_ - start + 1 <= 1)). Qed.

(** The count after line 799: at least 1, exactly 1 when there is at most
    one frame, within the caps in automatic mode, and the request itself
    when one was made for more than one frame. *)
Lemma planned_concurrency_facts (a : args) (start end_ logical : Z)
    (q : option Z) :
  1 <= planned_concurrency a start end_ logical q ∧
  (end_ - start + 1 <= 1 → planned_concurrency a start end_ logical q = 1) ∧
  (requested a < 1 → 1 <= max_concurrency a → 1 <= logical →
     planned_concurrency a start end_ logical q <= Z.min (max_concurrency a) logical) ∧
  (1 <= requested a → 1 < end_ - start + 1 →
     planned_concurrency a start end_ logical q = requested a).
Proof.
  split_and!; [apply planned_concurrency_ge_1|apply planned_concurrency_single_frame| |];
    unfold planned_concurrency.
  - intros Hr Hm Hl. pose proof (auto_concurrency_le a logical q Hm Hl).
    rewrite (decide_False (P := requested a >= 1)) by lia. case_decide; lia.
  - intros Hr Ht. rewrite (decide_True (P := requested a >= 1)) by lia.
    by rewrite decide_False by lia.
Qed.

(** *** The floating-point lines of [auto_concurrency]

    Lines 529-540 compute [int(usable_ram_gb // ram_per_proc_gb)] when a RAM
    figure was detected.  [ram_per_proc_gb] is the float given on the
    command line: a NaN makes the quotient a NaN and [int] raise
    [ValueError]; a value so small that the quotient is infinite makes
    [int] raise [OverflowError].  Nothing catches these. *)
Inductive ram_step :=
  | RamUnknown              (* [total_ram_gb <= 0]: [max_by_ram = logical] *)
  | RamQuotient (q : Z)     (* the quotient is the integer [q] *)
  | RamNaN                  (* the quotient is a NaN *)
  | RamInfinite.            (* the quotient is an infinity *)

(** The quotient handed to the integer part, when the float step is
    reached and returns. *)
Definition ram_quotient_of (r : ram_step) : result (option Z) :=
  match r with
  | RamUnknown => Ok None
  | RamQuotient q => Ok (Some q)
  | RamNaN => Raise ValueError
  | RamInfinite => Raise OverflowError
  end.

(** [auto_concurrency] with its float step: line 526 returns before the
    RAM figure is looked at. *)
Definition auto_concurrency_run (a : args) (logical : Z) (r : ram_step) : result Z :=
  if decide (logical <= 0) then Ok (auto_concurrency a logical None)
  else q <- ram_quotient_of r ;; Ok (auto_concurrency a logical q).

(** Lines 790-799 with the float step: [auto_concurrency] is called, and
    can raise, only without an explicit request, and then also when there
    is at most one frame. *)
Definition planned_concurrency_run (a : args) (start end_ : Z) (logical : Z)
    (r : ram_step) : result Z :=
  let total_frames := end_ - start + 1 in
  let requested := requested a in
  concurrency <-
    (if decide (requested >= 1) then Ok requested
     else auto_concurrency_run a logical r) ;;
  Ok (if decide (total_frames <= 1) then 1 else concurrency).

Example auto_concurrency_end_to_end :
  auto_concurrency
    {| concurrency := 0; max_concurrency := 24; mfr_threads := 0; disable_mfr := false |}
    8 (Some 3) = 1.
Proof. reflexivity. Qed.

Example auto_concurrency_unknown_cpus :
  auto_concurrency
    {| concurrency := 0; max_concurrency := 0; mfr_threads := 0; disable_mfr := false |}
    0 None = 4.
Proof. reflexivity. Qed.

End ConcurrencyPlanner.

(** ** Text: Python [str] operations on code points below 256 *)

Module Text.

Definition code (c : ascii) : N := N_of_ascii c.

Definition in_range (lo hi : N) (c : ascii) : bool :=
  ((lo <=? code c) && (code c <=? hi))%N.

(** [\d] in a [str] pattern, [str.isdecimal], and the characters [int]
    accepts as digits: the decimal digits. *)
Definition is_decimal (c : ascii) : bool := in_range 48 57 c.

(** [str.isdigit] also holds for the superscript digits U+00B2, U+00B3 and
    U+00B9. *)
Definition is_digit (c : ascii) : bool :=
  is_decimal c || (code c =? 178)%N || (code c =? 179)%N || (code c =? 185)%N.

(** [str.isspace], [\s], and what [str.strip()] removes. *)
Definition is_space (c : ascii) : bool :=
  in_range 9 13 c || in_range 28 32 c || (code c =? 133)%N || (code c =? 160)%N.

(** The characters at which [str.splitlines] breaks. *)
Definition is_linebreak (c : ascii) : bool :=
  in_range 10 13 c || in_range 28 30 c || (code c =? 133)%N.

Definition lower_char (c : ascii) : ascii :=
  if in_range 65 90 c || (in_range 192 222 c && negb (code c =? 215)%N)
  then ascii_of_N (code c + 32) else c.

Fixpoint lower (s : string) : string :=
  match s with
  | EmptyString => EmptyString
  | String c s' => String (lower_char c) (lower s')
  end.

Fixpoint forallb_str (p : ascii → bool) (s : string) : bool :=
  match s with
  | EmptyString => true
  | String c s' => p c && forallb_str p s'
  end.

(** [s.isdigit()]: false on the empty string. *)
Definition isdigit (s : string) : bool :=
  match s with
  | EmptyString => false
  | _ => forallb_str is_digit s
  end.

Fixpoint lstrip (s : string) : string :=
  match s with
  | String c s' => if is_space c then lstrip s' else s
  | EmptyString => EmptyString
  end.

Fixpoint rstrip (s : string) : string :=
  match s with
  | EmptyString => EmptyString
  | String c s' =>
      match rstrip s' with
      | EmptyString => if is_space c then EmptyString else String c EmptyString
      | t => String c t
      end
  end.

Definition strip (s : string) : string := rstrip (lstrip s).

(** [s.splitlines()]: ["\r\n"] counts as one break and a final break opens no
    empty last line. *)
Fixpoint splitlines_aux (cur : string) (s : string) : list string :=
  match s with
  | EmptyString => match cur with EmptyString => [] | _ => [cur] end
  | String c s' =>
      if is_linebreak c then
        match s' with
        | String c' s'' =>
            if ((code c =? 13)%N && (code c' =? 10)%N)%bool
            then cur :: splitlines_aux EmptyString s''
            else cur :: splitlines_aux EmptyString s'
        | EmptyString => [cur]
        end
      else splitlines_aux (cur +:+ String c EmptyString) s'
  end.

Definition splitlines (s : string) : list string := splitlines_aux EmptyString s.

Fixpoint digits_value (acc : Z) (s : string) : Z :=
  match s with
  | EmptyString => acc
  | String c s' => digits_value (10 * acc + Z.of_N (code c - 48)) s'
  end.

(** [int(s)] for a non-empty [s] without sign, blank or underscore: the
    value when every character is a decimal digit, [ValueError] otherwise. *)
Definition py_int (s : string) : result Z :=
  match s with
  | EmptyString => Raise ValueError
  | _ => if forallb_str is_decimal s then Ok (digits_value 0 s) else Raise ValueError
  end.

Example isdigit_superscript : isdigit (String (ascii_of_N 178) EmptyString) = true.
Proof. reflexivity. Qed.

Example py_int_superscript :
  py_int (String (ascii_of_N 178) EmptyString) = Raise ValueError.
Proof. reflexivity. Qed.

Example py_int_4242 : py_int "4242" = Ok 4242.
Proof. reflexivity. Qed.

Example strip_pid : strip (" 512" +:+ String (ascii_of_N 10) EmptyString) = "512".
Proof. reflexivity. Qed.

End Text.

(** ** Re: the fragment of Python's [re] used by the program

    A backtracking matcher with Python's priorities: a greedy repetition
    tries one more iteration first, a lazy one tries the rest of the pattern
    first, and the first branch that reaches the end of the pattern wins.
    Groups record the text they matched last. *)

Module Re.

Import Text.

Inductive re :=
  | Eps
  | Chr (p : ascii → bool)
  | Seq (r1 r2 : re)
  | Alt (r1 r2 : re)
  | Star (greedy : bool) (r : re)
  | Group (i : nat) (r : re)
  | Eos.

(** The prefix of [s] consumed when [rest] is what remains of it. *)
Definition consumed (s rest : string) : string :=
  String.substring 0 (String.length s - String.length rest) s.

(** [$] outside MULTILINE mode: the end of the string, or just before a
    newline that ends it. *)
Definition at_end (s : string) : bool :=
  match s with
  | EmptyString => true
  | String c EmptyString => (code c =? 10)%N
  | _ => false
  end.

Section matcher.

Context {R : Type}.

Fixpoint rmatch (r : re) (s : string) (caps : gmap nat string)
    (k : string → gmap nat string → option R) : option R :=
  match r with
  | Eps => k s caps
  | Chr p =>
      match s with
      | String c s' => if p c then k s' caps else None
      | EmptyString => None
      end
  | Seq r1 r2 => rmatch r1 s caps (λ s' caps', rmatch r2 s' caps' k)
  | Alt r1 r2 =>
      match rmatch r1 s caps k with
      | Some x => Some x
      | None => rmatch r2 s caps k
      end
  | Star greedy r1 =>
      (fix loop (fuel : nat) (s : string) (caps : gmap nat string) : option R :=
         let more :=
           match fuel with
           | O => None
           | S fuel' =>
               rmatch r1 s caps (λ s' caps',
                 if decide (String.length s' < String.length s)%nat
                 then loop fuel' s' caps' else None)
           end in
         if greedy then
           match more with Some x => Some x | None => k s caps end
         else
           match k s caps with Some x => Some x | None => more end)
        (String.length s) s caps
  | Group i r1 =>
      rmatch r1 s caps (λ s' caps', k s' (<[i := consumed s s']> caps'))
  | Eos => if at_end s then k s caps else None
  end.

End matcher.

(** A match object: the text matched, what follows it, and the groups. *)
Record match_obj := {
  matched : string;
  rest : string;
  groups : gmap nat string;
}.

(** [re.match(r, s)]: anchored at the start of [s], not at its end. *)
Definition re_match (r : re) (s : string) : option match_obj :=
  rmatch r s ∅ (λ s' caps,
    Some {| matched := consumed s s'; rest := s'; groups := caps |}).

(** [m.group(i)] for a group that took part in the match. *)
Definition group (m : match_obj) (i : nat) : string := default EmptyString (groups m !! i).

(** [re.search(r, s)]: the first position from which [r] matches. *)
Fixpoint re_search (r : re) (s : string) : option match_obj :=
  match re_match r s with
  | Some m => Some m
  | None =>
      match s with
      | EmptyString => None
      | String _ s' => re_search r s'
      end
  end.

(** [r.finditer(s)] for a pattern that matches no empty text: successive
    matches, each search resuming where the previous match ended. *)
Fixpoint finditer_aux (fuel : nat) (r : re) (s : string) : list match_obj :=
  match fuel with
  | O => []
  | S fuel' =>
      match re_match r s with
      | Some m =>
          if decide (String.length (rest m) < String.length s)%nat
          then m :: finditer_aux fuel' r (rest m)
          else match s with
               | EmptyString => []
               | String _ s' => finditer_aux fuel' r s'
               end
      | None =>
          match s with
          | EmptyString => []
          | String _ s' => finditer_aux fuel' r s'
          end
      end
  end.

Definition finditer (r : re) (s : string) : list match_obj :=
  finditer_aux (S (String.length s)) r s.

(** *** Pattern syntax *)

Definition any : re := Chr (λ c, negb (code c =? 10)%N).          (* [.] *)
Definition digit : re := Chr is_decimal.                           (* [\d] *)
Definition space : re := Chr is_space.                             (* [\s] *)
Definition chr (a : ascii) : re := Chr (λ c, (code c =? code a)%N).
Definition chr_ci (a : ascii) : re :=
  Chr (λ c, (code (lower_char c) =? code (lower_char a))%N).
Definition star (r : re) : re := Star true r.                      (* [r*] *)
Definition star_lazy (r : re) : re := Star false r.                (* [r*?] *)
Definition plus (r : re) : re := Seq r (Star true r).              (* [r+] *)
Definition opt (r : re) : re := Alt r Eps.                         (* [r?] *)

Fixpoint rep (n : nat) (r : re) : re :=                            (* [r{n}] *)
  match n with
  | O => Eps
  | S n' => Seq r (rep n' r)
  end.

Definition at_least (n : nat) (r : re) : re := Seq (rep n r) (Star true r).  (* [r{n,}] *)

(** A literal text, as [re.escape] makes it. *)
Fixpoint lit (s : string) : re :=
  match s with
  | EmptyString => Eps
  | String c s' => Seq (chr c) (lit s')
  end.

(** The same under IGNORECASE. *)
Fixpoint lit_ci (s : string) : re :=
  match s with
  | EmptyString => Eps
  | String c s' => Seq (chr_ci c) (lit_ci s')
  end.

Fixpoint seqs (rs : list re) : re :=
  match rs with
  | [] => Eps
  | [r] => r
  | r :: rs' => Seq r (seqs rs')
  end.

End Re.

(** ** Output patterns: [looks_like_sequence] and [build_output_matcher]
    (orchestrator.py, 44-90) *)

Module OutputPatterns.

Import Text Re.

Definition hash_or_zero : re := Chr (λ c, (code c =? 35)%N || (code c =? 48)%N).
Definition not_dot : re := Chr (λ c, negb (code c =? 46)%N).

(** [\[[#0]+\]], [#{3,}] and [%0?\d*d]. *)
Definition seq_bracket_re : re := seqs [chr "["; plus hash_or_zero; chr "]"].
Definition seq_hash_re : re := at_least 3 (chr "#").
Definition seq_printf_re : re := seqs [chr "%"; opt (chr "0"); star digit; chr "d"].

Definition looks_like_sequence (path_str : string) : bool :=
  bool_decide (is_Some (re_search seq_bracket_re path_str))
  || bool_decide (is_Some (re_search seq_hash_re path_str))
  || bool_decide (is_Some (re_search seq_printf_re path_str)).

(** The three classifying patterns of [build_output_matcher].  In each,
    group 1 is the text before the counter token and group 3 the text after
    it.  [ae_re]: greedy prefix, a bracketed run of [#] or [0] (group 2),
    greedy suffix.  [hash_re]: lazy prefix, a run of three or more [#]
    (group 2), an optional extension made of a dot and non-dot characters,
    end of text.  [printf_re]: greedy prefix, [%], an optional [0], a run of
    digits (group 2), [d], greedy suffix. *)
Definition ae_re : re :=
  seqs [Group 1 (star any); chr "["; Group 2 (plus hash_or_zero); chr "]";
        Group 3 (star any)].
Definition hash_re : re :=
  seqs [Group 1 (star_lazy any); Group 2 (at_least 3 (chr "#"));
        opt (Group 3 (Seq (chr ".") (star not_dot))); Eos].
Definition printf_re : re :=
  seqs [Group 1 (star any); chr "%"; opt (chr "0"); Group 2 (star digit); chr "d";
        Group 3 (star any)].

(** [^{re.escape(prefix)}\d{digits}{re.escape(suffix)}$] under IGNORECASE. *)
Definition frame_rx (prefix : string) (digits : nat) (suffix : string) : re :=
  seqs [lit_ci prefix; rep digits digit; lit_ci suffix; Eos].

(** Paths are POSIX-style strings.  [p.name] is the last component, where
    empty components and ["."] do not count. *)
Fixpoint components_aux (cur : string) (s : string) : list string :=
  match s with
  | EmptyString => [cur]
  | String c s' =>
      if (code c =? 47)%N then cur :: components_aux EmptyString s'
      else components_aux (cur +:+ String c EmptyString) s'
  end.

Definition components (p : string) : list string :=
  filter (λ c, c ≠ EmptyString ∧ c ≠ ".") (components_aux EmptyString p).

Definition path_name (p : string) : string := default EmptyString (last (components p)).

(** The predicate returned by [build_output_matcher(output_spec)], applied
    to the path [p]. *)
Definition build_output_matcher (output_spec : string) (p : string) : bool :=
  let base := path_name output_spec in
  match re_match ae_re base with
  | Some m =>
      let '(prefix, token, suffix) := (group m 1, group m 2, group m 3) in
      let digits := String.length token in
      bool_decide (is_Some (re_match (frame_rx prefix digits suffix) (path_name p)))
  | None =>
      match re_match hash_re base with
      | Some m =>
          let '(prefix, hashes, ext) := (group m 1, group m 2, group m 3) in
          let digits := String.length hashes in
          bool_decide (is_Some (re_match (frame_rx prefix digits ext) (path_name p)))
      | None =>
          match re_match printf_re base with
          | Some m =>
              let '(prefix, digits_s, suffix) := (group m 1, group m 2, group m 3) in
              let digits :=
                match digits_s with
                | EmptyString => 1%nat
                | _ => Z.to_nat (digits_value 0 digits_s)
                end in
              bool_decide (is_Some (re_match (frame_rx prefix digits suffix) (path_name p)))
          | None => bool_decide (lower (path_name p) = lower base)
          end
      end
  end.

Example ae_groups :
  (λ m, (group m 1, group m 2, group m 3)) <$> re_match ae_re "name_[#####].png"
  = Some ("name_", "#####", ".png").
Proof. vm_compute. reflexivity. Qed.

Example printf_groups :
  (λ m, (group m 1, group m 2, group m 3)) <$> re_match printf_re "name%04d.mov"
  = Some ("name", "4", ".mov").
Proof. vm_compute. reflexivity. Qed.

Example hash_groups :
  (λ m, (group m 1, group m 2, group m 3)) <$> re_match hash_re "shot_####.exr"
  = Some ("shot_", "####", ".exr").
Proof. vm_compute. reflexivity. Qed.

Example looks_like_sequence_examples :
  looks_like_sequence "out/name_[#####].png" = true ∧
  looks_like_sequence "out/name%04d.mov" = true ∧
  looks_like_sequence "out/final.mov" = false.
Proof. vm_compute. done. Qed.

(** C6. The matcher of [name_[#####].png] accepts [name_00042.png] and
    rejects [name_42.png] and [other_00042.png]; the matcher of
    [name%04d.mov] accepts [name0007.mov] and rejects [name7.mov]; and a
    matcher decides on the file name alone: two paths with the same name get
    the same answer. *)
Theorem build_output_matcher_examples :
  build_output_matcher "name_[#####].png" "name_00042.png" = true ∧
  build_output_matcher "name_[#####].png" "name_42.png" = false ∧
  build_output_matcher "name_[#####].png" "other_00042.png" = false ∧
  build_output_matcher "name%04d.mov" "name0007.mov" = true ∧
  build_output_matcher "name%04d.mov" "name7.mov" = false ∧
  ∀ spec p q, path_name p = path_name q →
    build_output_matcher spec p = build_output_matcher spec q.
Proof.
  split_and!; try (vm_compute; reflexivity).
  intros spec p q Hpq. unfold build_output_matcher. by rewrite Hpq.
Qed.

End OutputPatterns.

(** ** Format: [str(n)] and the [03d] format on integers *)

Module Format.

Import Text.

Definition digit_char (d : Z) : ascii := ascii_of_N (Z.to_N d + 48).

(** Decimal digits of [n >= 0], most significant first, put before [acc]. *)
Fixpoint dec_aux (fuel : nat) (n : Z) (acc : string) : string :=
  match fuel with
  | O => acc
  | S fuel' =>
      let acc' := String (digit_char (n `mod` 10)) acc in
      if decide (n < 10) then acc' else dec_aux fuel' (n `div` 10) acc'
  end.

Definition dec (n : Z) : string := dec_aux (S (Z.to_nat n)) n EmptyString.

(** [str(z)]. *)
Definition py_str (z : Z) : string :=
  if decide (z < 0) then String "-" (dec (- z)) else dec z.

Fixpoint zeros (k : nat) : string :=
  match k with
  | O => EmptyString
  | S k' => String "0" (zeros k')
  end.

(** [f"{n:03d}"] for [n >= 0]. *)
Definition format_03d (n : Z) : string :=
  let d := dec n in zeros (3 - String.length d) +:+ d.

Example py_str_examples :
  py_str 0 = "0" ∧ py_str 34 = "34" ∧ py_str (-7) = "-7" ∧ py_str 1200 = "1200".
Proof. vm_compute. done. Qed.

Example format_03d_examples :
  format_03d 1 = "001" ∧ format_03d 42 = "042" ∧ format_03d 1234 = "1234".
Proof. vm_compute. done. Qed.


Lemma digit_char_code d : 0 <= d < 10 → code (digit_char d) = (Z.to_N d + 48)%N.
Proof.
  intros Hd. unfold code, digit_char. rewrite N_ascii_embedding; [done|]. lia.
Qed.

Lemma digit_char_decimal d : 0 <= d < 10 → is_decimal (digit_char d) = true.
Proof.
  intros Hd. unfold is_decimal, in_range. rewrite digit_char_code by done.
  apply andb_true_intro. split; apply N.leb_le; lia.
Qed.

Lemma dec_aux_value fuel : ∀ n acc, 0 <= n → (Z.to_nat n < fuel)%nat →
  digits_value 0 (dec_aux fuel n acc) = digits_value n acc.
Proof.
  induction fuel as [|fuel IH]; intros n acc Hn Hf; [lia|]. simpl.
  assert (Hm : 0 <= n `mod` 10 < 10) by (apply Z.mod_pos_bound; lia).
  assert (Hc : Z.of_N (code (digit_char (n `mod` 10)) - 48) = n `mod` 10).
  { rewrite digit_char_code by done. lia. }
  case_decide.
  - simpl. rewrite Hc, Z.mod_small by lia. done.
  - assert (Hd : 0 <= n `div` 10 < n) by (split; [apply Z.div_pos|apply Z.div_lt]; lia).
    rewrite IH by lia. simpl. rewrite Hc. f_equal.
    pose proof (Z.div_mod n 10). lia.
Qed.

Lemma dec_value n : 0 <= n → digits_value 0 (dec n) = n.
Proof. intros Hn. unfold dec. rewrite dec_aux_value by lia. done. Qed.



Lemma forallb_str_app p s t :
  forallb_str p (s +:+ t) = forallb_str p s && forallb_str p t.
Proof. induction s as [|c s IH]; simpl; [done|]. by rewrite IH, andb_assoc. Qed.

Lemma dec_aux_decimal fuel : ∀ n acc, 0 <= n →
  forallb_str is_decimal acc = true →
  forallb_str is_decimal (dec_aux fuel n acc) = true.
Proof.
  induction fuel as [|fuel IH]; intros n acc Hn Hacc; simpl; [done|].
  assert (Hm : 0 <= n `mod` 10 < 10) by (apply Z.mod_pos_bound; lia).
  case_decide; [|apply IH; [apply Z.div_pos; lia|]];
    simpl; by rewrite digit_char_decimal, Hacc.
Qed.






End Format.

(** ** Paths: the [pathlib] operations used on the output path *)

Module Paths.

Import Text.

Definition joinpath (d n : string) : string := d +:+ "/" +:+ n.

Fixpoint last_index (c : ascii) (s : string) : option nat :=
  match s with
  | EmptyString => None
  | String a s' =>
      match last_index c s' with
      | Some i => Some (S i)
      | None => if (code a =? code c)%N then Some O else None
      end
  end.

(** [p.parent]: the text before the last separator, ["."] when there is
    none. *)
Definition path_parent (p : string) : string :=
  match last_index "/" p with
  | Some O => "/"
  | Some i => String.substring 0 i p
  | None => "."
  end.

(** Position of the dot that starts the suffix of a file name: the last
    dot, unless it is the first or the last character. *)
Definition suffix_index (name : string) : option nat :=
  match last_index "." name with
  | Some i =>
      if decide (0 < i ∧ i < String.length name - 1)%nat then Some i else None
  | None => None
  end.

Definition path_suffix (name : string) : string :=
  match suffix_index name with
  | Some i => String.substring i (String.length name - i) name
  | None => EmptyString
  end.

Definition path_stem (name : string) : string :=
  match suffix_index name with
  | Some i => String.substring 0 i name
  | None => name
  end.

Example path_parts :
  path_parent "out/final.mov" = "out" ∧ path_parent "final.mov" = "." ∧
  path_suffix "final.v2.mov" = ".mov" ∧ path_stem "final.v2.mov" = "final.v2" ∧
  path_suffix ".hidden" = "" ∧ path_stem ".hidden" = ".hidden".
Proof. vm_compute. done. Qed.

End Paths.

(** ** Orchestrator, part 1: what [run_orchestrator] decides before it
    spawns (orchestrator.py, 784-874 and 953) *)

Module Plan.

Import Text Format Paths RangeSplitter OutputPatterns.

(** The arguments read by the planning lines.  [planner] holds the fields
    that the concurrency planner reads. *)
Record run_args := {
  output : string;
  start : Z;
  end_ : Z;
  planner : ConcurrencyPlanner.args;
  output_is_pattern : bool;
  no_scratch : bool;
}.

(** What the planning lines read from the machine: the CPU count, the RAM
    quotient of [auto_concurrency], what [find_ffmpeg()] returns at line
    811, the resolved scratch root and the run identifier. *)
Record host := {
  logical_cpus : Z;
  ram_quotient : option Z;
  find_ffmpeg : option string;
  scratch_root : string;
  run_id : string;
}.

(** Truth value of an [Optional[str]]. *)
Definition truthy (o : option string) : bool :=
  match o with
  | Some s => bool_decide (s ≠ EmptyString)
  | None => false
  end.

Record plan := {
  concurrency : Z;
  single_file_concat_mode : bool;
  output_is_seq : bool;
  ranges : list (Z * Z);
  use_scratch : bool;
  local_scratch_dir : string;
  local_output_path : string;
  segment_outputs : list string;
}.

Definition seg_name (base : string) (idx : Z) (s e : Z) (ext : string) : string :=
  base +:+ "__part_" +:+ format_03d idx +:+ "_" +:+ py_str s +:+ "-" +:+ py_str e +:+ ext.

Definition total_frames (a : run_args) : Z := end_ a - start a + 1.

Definition is_seq (a : run_args) : bool :=
  output_is_pattern a || looks_like_sequence (output a).

Definition planned (a : run_args) (h : host) : Z :=
  ConcurrencyPlanner.planned_concurrency (planner a) (start a) (end_ a)
    (logical_cpus h) (ram_quotient h).

(** Lines 808-827: the mode flag and the worker count after the ffmpeg
    check. *)
Definition concat_mode (a : run_args) (h : host) : bool * Z :=
  let concurrency := planned a h in
  let single_file_concat_mode :=
    bool_decide (total_frames a > 1) && negb (is_seq a)
    && bool_decide (concurrency > 1) in
  if single_file_concat_mode then
    if truthy (find_ffmpeg h) then (true, concurrency) else (false, 1)
  else (false, concurrency).

Definition plan_run (a : run_args) (h : host) : result plan :=
  let final_output_path := output a in
  let output_is_seq := is_seq a in
  let '(single_file_concat_mode, concurrency) := concat_mode a h in
  ranges <- split_ranges (start a) (end_ a) concurrency ;;
  let use_scratch := negb (no_scratch a) in
  let local_scratch_dir := joinpath (scratch_root h) ("job_" +:+ run_id h) in
  let local_output_path :=
    if use_scratch then joinpath local_scratch_dir (path_name final_output_path)
    else final_output_path in
  let segment_outputs :=
    if single_file_concat_mode && bool_decide (concurrency > 1) then
      let segment_dir :=
        if use_scratch then joinpath local_scratch_dir "_segments"
        else joinpath (path_parent final_output_path) (".stmpo_segments_" +:+ run_id h) in
      let ext := path_suffix (path_name final_output_path) in
      let base :=
        match path_stem (path_name final_output_path) with
        | EmptyString => "render"
        | stem => stem
        end in
      imap (λ i '(s, e), joinpath segment_dir (seg_name base (i + 1)%nat s e ext)) ranges
    else [] in
  Ok {| concurrency := concurrency;
        single_file_concat_mode := single_file_concat_mode;
        output_is_seq := output_is_seq;
        ranges := ranges;
        use_scratch := use_scratch;
        local_scratch_dir := local_scratch_dir;
        local_output_path := local_output_path;
        segment_outputs := segment_outputs |}.


Definition example_args (out : string) (conc : Z) : run_args :=
  {| output := out; start := 1; end_ := 100;
     planner := {| ConcurrencyPlanner.concurrency := conc;
                   ConcurrencyPlanner.max_concurrency := 24;
                   ConcurrencyPlanner.mfr_threads := 0;
                   ConcurrencyPlanner.disable_mfr := false |};
     output_is_pattern := false; no_scratch := false |}.

Definition example_host (ffmpeg : option string) : host :=
  {| logical_cpus := 8; ram_quotient := Some 3; find_ffmpeg := ffmpeg;
     scratch_root := "/tmp/stmpo_ae"; run_id := "1a2b3c4d" |}.

Example plan_segmented :
  (λ p, (concurrency p, ranges p, segment_outputs p)) <$>
    (match plan_run (example_args "out/final.mov" 3) (example_host (Some "/usr/bin/ffmpeg"))
     with Ok p => Some p | Raise _ => None end)
  = Some (3, [(1, 34); (35, 67); (68, 100)],
          ["/tmp/stmpo_ae/job_1a2b3c4d/_segments/final__part_001_1-34.mov";
           "/tmp/stmpo_ae/job_1a2b3c4d/_segments/final__part_002_35-67.mov";
           "/tmp/stmpo_ae/job_1a2b3c4d/_segments/final__part_003_68-100.mov"]).
Proof. vm_compute. reflexivity. Qed.

Example plan_without_ffmpeg :
  (λ p, (concurrency p, ranges p, segment_outputs p)) <$>
    (match plan_run (example_args "out/final.mov" 3) (example_host None)
     with Ok p => Some p | Raise _ => None end)
  = Some (1, [(1, 100)], []).
Proof. vm_compute. reflexivity. Qed.






End Plan.

(** ** The worker count of a run: lines 790-829 with the float step of
    [auto_concurrency] *)

Module WorkerCount.

Import RangeSplitter Plan.

(** The machine as the planning lines meet it: a [host] with the outcome
    of the float step in place of the quotient. *)
Record machine := {
  cpus : Z;
  ram : ConcurrencyPlanner.ram_step;
  ffmpeg : option string;
  scratch : string;
  id : string;
}.

Definition host_of (m : machine) (q : option Z) : host :=
  {| logical_cpus := cpus m; ram_quotient := q; find_ffmpeg := ffmpeg m;
     scratch_root := scratch m; run_id := id m |}.

(** The planning lines.  [auto_concurrency] is not called under an explicit
    request, and it returns before its float step when no CPU count is
    known; in both cases no quotient is read. *)
Definition planning (a : run_args) (m : machine) : result plan :=
  if decide (ConcurrencyPlanner.requested (planner a) >= 1) then plan_run a (host_of m None)
  else if decide (cpus m <= 0) then plan_run a (host_of m None)
  else q <- ConcurrencyPlanner.ram_quotient_of (ram m) ;; plan_run a (host_of m q).

(** The count after line 820. *)
Definition after_fallback (a : run_args) (m : machine) (c : Z) : Z :=
  if bool_decide (total_frames a > 1) && negb (is_seq a) && bool_decide (c > 1)
     && negb (truthy (ffmpeg m))
  then 1 else c.

Definition sequence_args (conc : Z) : run_args := example_args "out/name_[#####].png" conc.

Definition example_machine (r : ConcurrencyPlanner.ram_step) : machine :=
  {| cpus := 8; ram := r; ffmpeg := None; scratch := "/tmp/stmpo_ae"; id := "1a2b3c4d" |}.

Lemma planned_host_of a m q :
  planned a (host_of m q) =
  ConcurrencyPlanner.planned_concurrency (planner a) (start a) (end_ a) (cpus m) q.
Proof. reflexivity. Qed.

(** Where no quotient is read, the plan does not depend on it. *)
Lemma plan_run_quotient_unread a m q q' :
  ConcurrencyPlanner.requested (planner a) >= 1 ∨ cpus m <= 0 →
  plan_run a (host_of m q) = plan_run a (host_of m q').
Proof.
  intros Hcase.
  assert (Hp : planned a (host_of m q) = planned a (host_of m q')).
  { rewrite !planned_host_of.
    unfold ConcurrencyPlanner.planned_concurrency, ConcurrencyPlanner.auto_concurrency.
    destruct Hcase as [Hr|Hl].
    - by rewrite !(decide_True (P := ConcurrencyPlanner.requested (planner a) >= 1)).
    - by rewrite !(decide_True (P := cpus m <= 0)). }
  unfold plan_run, concat_mode. rewrite Hp. done.
Qed.

(** The planning lines go on with the count of lines 790-799, float step
    included, or stop with its exception. *)
Lemma planning_count a m :
  match ConcurrencyPlanner.planned_concurrency_run (planner a) (start a) (end_ a)
          (cpus m) (ram m) with
  | Raise e => planning a m = Raise e
  | Ok c => ∃ q, planning a m = plan_run a (host_of m q) ∧ planned a (host_of m q) = c
  end.
Proof.
  unfold ConcurrencyPlanner.planned_concurrency_run, ConcurrencyPlanner.auto_concurrency_run,
    planning.
  destruct (decide (ConcurrencyPlanner.requested (planner a) >= 1)) as [Hr|Hr]; simpl.
  - exists None. split; [done|]. rewrite planned_host_of.
    unfold ConcurrencyPlanner.planned_concurrency.
    by rewrite (decide_True (P := ConcurrencyPlanner.requested (planner a) >= 1)).
  - destruct (decide (cpus m <= 0)) as [Hl|Hl]; simpl.
    + exists None. split; [done|]. rewrite planned_host_of.
      unfold ConcurrencyPlanner.planned_concurrency.
      by rewrite (decide_False (P := ConcurrencyPlanner.requested (planner a) >= 1)).
    + destruct (ConcurrencyPlanner.ram_quotient_of (ram m)) as [q|e]; simpl; [|done].
      exists q. split; [done|]. rewrite planned_host_of.
      unfold ConcurrencyPlanner.planned_concurrency.
      by rewrite (decide_False (P := ConcurrencyPlanner.requested (planner a) >= 1)).
Qed.

Lemma planning_reads a m p :
  planning a m = Ok p →
  ∃ q, plan_run a (host_of m q) = Ok p ∧
    (ConcurrencyPlanner.requested (planner a) < 1 → 1 <= cpus m →
     ConcurrencyPlanner.ram_quotient_of (ram m) = Ok q).
Proof.
  unfold planning. case_decide as Hr; [|case_decide as Hl].
  - intros H. exists None. split; [done|lia].
  - intros H. exists None. split; [done|lia].
  - destruct (ConcurrencyPlanner.ram_quotient_of (ram m)) as [q|e]; [|done].
    simpl. intros H. by exists q.
Qed.

Lemma plan_run_concurrency a h p :
  plan_run a h = Ok p → concurrency p = (concat_mode a h).2.
Proof.
  unfold plan_run. destruct (concat_mode a h) as [mode c].
  destruct (split_ranges (start a) (end_ a) c) as [rs|e]; [|done].
  simpl. by intros [= <-].
Qed.

Lemma plan_run_ranges a h p :
  plan_run a h = Ok p → split_ranges (start a) (end_ a) (concurrency p) = Ok (ranges p).
Proof.
  unfold plan_run. destruct (concat_mode a h) as [mode c].
  destruct (split_ranges (start a) (end_ a) c) as [rs|e] eqn:Hs; [|done].
  simpl. by intros [= <-].
Qed.

Lemma plan_run_raises a h e :
  plan_run a h = Raise e → e = ZeroDivisionError ∧ end_ a = start a - 1.
Proof.
  unfold plan_run. destruct (concat_mode a h) as [mode c].
  destruct (split_ranges (start a) (end_ a) c) as [rs|e'] eqn:Hs; [done|].
  simpl. intros [= <-]. unfold split_ranges in Hs.
  case_decide as H0; [|done]. injection Hs as <-. split; [done|].
  unfold clamp_parts in H0. repeat case_decide; lia.
Qed.

(** C3, as the code has it.  The planning lines raise only when the
    float step of [auto_concurrency] does (a NaN or infinite RAM quotient,
    in automatic mode with a known CPU count), or on an empty interval.
    When they return, the plan is the one made with the quotient [q] that
    the float step gave, if it was reached; the count after line 799 is at
    least 1, is exactly 1 when there is at most one frame, also under an
    explicit request, and in automatic mode with at least one logical CPU
    and a cap of at least 1 it is at most [min max_cap logical_cpus].  An
    explicit request of at
    least 1 over more than one frame is taken as the count after line 799
    without regard to the cap or the CPUs; line 820 then sets the count to
    1 when the output is a single file and ffmpeg is missing, and
    [split_ranges] starts [min count total_frames] jobs. *)
Theorem planned_workers_bounds (a : run_args) (m : machine) :
  let req := ConcurrencyPlanner.requested (planner a) in
  match planning a m with
  | Raise e =>
      (req < 1 ∧ 1 <= cpus m ∧ ConcurrencyPlanner.ram_quotient_of (ram m) = Raise e) ∨
      (e = ZeroDivisionError ∧ end_ a = start a - 1)
  | Ok p =>
      ∃ q, plan_run a (host_of m q) = Ok p ∧
        (req < 1 → 1 <= cpus m → ConcurrencyPlanner.ram_quotient_of (ram m) = Ok q) ∧
        let c := planned a (host_of m q) in
        1 <= c ∧
        (total_frames a <= 1 → c = 1) ∧
        (req < 1 → 1 <= ConcurrencyPlanner.max_concurrency (planner a) → 1 <= cpus m →
           c <= Z.min (ConcurrencyPlanner.max_concurrency (planner a)) (cpus m)) ∧
        (1 <= req → 1 < total_frames a → c = req) ∧
        concurrency p = after_fallback a m c ∧
        1 <= concurrency p <= c ∧
        (start a <= end_ a →
           Z.of_nat (length (ranges p)) = Z.min (concurrency p) (total_frames a))
  end.
Proof.
  intros req. destruct (planning a m) as [p|e] eqn:Hplan.
  - destruct (planning_reads a m p Hplan) as (q & Hrun & Hread). exists q.
    split; [done|]. split; [done|]. intros c.
    destruct (ConcurrencyPlanner.planned_concurrency_facts (planner a) (start a) (end_ a)
                (cpus m) q) as (Hge & Hone & Hcap & Hreq).
    rewrite <- planned_host_of in Hge, Hone, Hcap, Hreq. fold c in Hge, Hone, Hcap, Hreq.
    assert (Hafter : concurrency p = after_fallback a m c).
    { rewrite (plan_run_concurrency a _ p Hrun). unfold concat_mode, after_fallback.
      fold c. simpl find_ffmpeg.
      destruct (bool_decide (total_frames a > 1) && negb (is_seq a) && bool_decide (c > 1));
        simpl; [|done]. by destruct (truthy (ffmpeg m)). }
    assert (Hrange : 1 <= concurrency p <= c).
    { rewrite Hafter. unfold after_fallback. case_match; lia. }
    split_and!; try done; try lia.
    intros Hse. pose proof (plan_run_ranges a _ p Hrun) as Hsplit.
    destruct (split_closed_form (start a) (end_ a) (concurrency p) Hse)
      as (Hp & _ & _ & _ & Hs & _).
    rewrite Hs in Hsplit. injection Hsplit as <-. rewrite split_loop_length.
    fold (total_frames a) in Hp |- *. unfold clamp_parts in *.
    repeat case_decide; lia.
  - unfold planning in Hplan. case_decide as Hr; [|case_decide as Hl].
    + right. by apply (plan_run_raises a (host_of m None)).
    + right. by apply (plan_run_raises a (host_of m None)).
    + destruct (ConcurrencyPlanner.ram_quotient_of (ram m)) as [q|e'] eqn:Hq.
      * right. by apply (plan_run_raises a (host_of m q)).
      * simpl in Hplan. injection Hplan as ->. left. split_and!; [lia|lia|done].
Qed.

(** Frames 1-100 of a sequence on 8 logical CPUs in automatic mode: one
    job per 16 threads, so one job. *)
Lemma planned_workers_bounds_witness :
  ∃ p, planning (sequence_args 0) (example_machine (ConcurrencyPlanner.RamQuotient 3)) = Ok p ∧
       concurrency p = 1 ∧ length (ranges p) = 1%nat.
Proof.
  pose proof (planned_workers_bounds (sequence_args 0)
                (example_machine (ConcurrencyPlanner.RamQuotient 3))) as H.
  simpl in H.
  destruct (planning (sequence_args 0) (example_machine (ConcurrencyPlanner.RamQuotient 3)))
    as [p|e] eqn:Hplan; [|by vm_compute in Hplan].
  exists p. split; [done|].
  destruct H as (q & Hrun & _ & _ & _ & _ & _ & _ & _ & _).
  vm_compute in Hplan. injection Hplan as <-. split; reflexivity.
Defined.

(** C3 as stated fails twice.  With 100 workers requested for frames 1-100
    of a sequence on a machine with 8 logical CPUs and a cap of 24, the
    count stays 100 through line 820 and 100 jobs are planned; and in
    automatic mode a NaN RAM quotient makes the planning lines raise, so
    that there is no count at all. *)
Lemma planned_workers_exceed_cap :
  (∃ p, planning (sequence_args 100) (example_machine (ConcurrencyPlanner.RamQuotient 3)) = Ok p ∧
        concurrency p = 100 ∧ length (ranges p) = 100%nat ∧
        ¬ (concurrency p <= Z.min 24 8) ∧ ¬ (Z.of_nat (length (ranges p)) <= Z.min 24 8)) ∧
  planning (sequence_args 0) (example_machine ConcurrencyPlanner.RamNaN) = Raise ValueError.
Proof.
  split; [|reflexivity].
  eexists. split; [vm_compute; reflexivity|]. simpl. split_and!; [done|done|lia|lia].
Qed.

End WorkerCount.

(** ** Offloader: [offload_loop] (orchestrator.py, 644-678) *)

Module Offloader.

Import Text.

(** An entry of [local_dir.iterdir()]. *)
Record entry := {
  name : string;
  is_file : bool;
}.

(** The loop's state: the [copied] set, and a journal of the copy attempts
    made so far with their outcome ([true] when [shutil.copy2] returned). *)
Record state := {
  copied : gset string;
  journal : list (string * bool);
}.

Definition init : state := {| copied := ∅; journal := [] |}.

(** [p.name.lower() if sys.platform == "win32" else p.name]. *)
Definition key (win32 : bool) (name : string) : string :=
  if win32 then lower name else name.

(** One pass of the [for p in local_dir.iterdir()] loop.  [copy_ok x] tells
    whether the copy of [x] attempted in this pass succeeds. *)
Fixpoint offload_pass (win32 : bool) (matcher : string → bool)
    (copy_ok : string → bool) (entries : list entry) (st : state) : state :=
  match entries with
  | [] => st
  | p :: rest =>
      if negb (is_file p) then offload_pass win32 matcher copy_ok rest st
      else if negb (matcher (name p)) then offload_pass win32 matcher copy_ok rest st
      else
        let k := key win32 (name p) in
        if decide (k ∈ copied st) then offload_pass win32 matcher copy_ok rest st
        else if copy_ok (name p) then
          offload_pass win32 matcher copy_ok rest
            {| copied := {[k]} ∪ copied st; journal := journal st ++ [(name p, true)] |}
        else
          offload_pass win32 matcher copy_ok rest
            {| copied := copied st; journal := journal st ++ [(name p, false)] |}
  end.

(** The [while not stop_event.is_set()] loop over an unchanged directory:
    one pass per element of [oracles]. *)
Definition offload_loop (win32 : bool) (matcher : string → bool)
    (oracles : list (string → bool)) (entries : list entry) (st : state) : state :=
  fold_left (λ st copy_ok, offload_pass win32 matcher copy_ok entries st) oracles st.

(** The names a pass considers: files accepted by the matcher. *)
Definition qualifying (matcher : string → bool) (entries : list entry) : list string :=
  name <$> filter (λ p, is_file p = true ∧ matcher (name p) = true) entries.

(** The files copied to the final directory, in order. *)
Definition copies (st : state) : list string :=
  (filter (λ a, a.2 = true) (journal st)).*1.

(** The pass on the qualifying names alone. *)
Fixpoint copy_loop (win32 : bool) (copy_ok : string → bool) (names : list string)
    (st : state) : state :=
  match names with
  | [] => st
  | x :: rest =>
      let k := key win32 x in
      if decide (k ∈ copied st) then copy_loop win32 copy_ok rest st
      else if copy_ok x then
        copy_loop win32 copy_ok rest
          {| copied := {[k]} ∪ copied st; journal := journal st ++ [(x, true)] |}
      else
        copy_loop win32 copy_ok rest
          {| copied := copied st; journal := journal st ++ [(x, false)] |}
  end.

Lemma offload_pass_copy_loop win32 matcher copy_ok entries : ∀ st,
  offload_pass win32 matcher copy_ok entries st =
  copy_loop win32 copy_ok (qualifying matcher entries) st.
Proof.
  unfold qualifying.
  induction entries as [|p rest IH]; intros st; simpl; [done|].
  rewrite filter_cons.
  destruct (is_file p) eqn:Hf, (matcher (name p)) eqn:Hm; simpl.
  - case_decide; [apply IH|]. destruct (copy_ok (name p)); apply IH.
  - apply IH.
  - apply IH.
  - apply IH.
Qed.

Section invariant.

Variable win32 : bool.

(** The [copied] set holds exactly the keys of the files copied so far, and
    no key was copied twice. *)
Definition consistent (st : state) : Prop :=
  NoDup (key win32 <$> copies st) ∧
  ∀ k, k ∈ copied st ↔ k ∈ key win32 <$> copies st.

Lemma consistent_init : consistent init.
Proof.
  split; [apply NoDup_nil_2|]. intros k. unfold copies, init; simpl.
  split; [by intros ?%elem_of_empty|by intros ?%elem_of_nil].
Qed.

Lemma copies_snoc st x b c :
  copies {| copied := c; journal := journal st ++ [(x, b)] |} =
  copies st ++ (if b then [x] else []).
Proof.
  unfold copies; simpl. rewrite filter_app, fmap_app. f_equal.
  destruct b; [by rewrite filter_cons_True|by rewrite filter_cons_False].
Qed.

Lemma copy_loop_consistent copy_ok names : ∀ st,
  consistent st → consistent (copy_loop win32 copy_ok names st).
Proof.
  induction names as [|x rest IH]; intros st [Hnd Hset]; simpl; [done|].
  case_decide as Hk; [by apply IH|].
  destruct (copy_ok x); apply IH; split; rewrite ?copies_snoc, ?fmap_app; simpl.
  - apply NoDup_app. split_and!; [done| |apply NoDup_singleton].
    intros k Hin ->%list_elem_of_singleton. by apply Hk, Hset.
  - intros k. rewrite elem_of_union, elem_of_singleton, elem_of_app,
      list_elem_of_singleton, Hset. tauto.
  - by rewrite app_nil_r.
  - intros k. by rewrite app_nil_r.
Qed.

Lemma copy_loop_copied_mono copy_ok names : ∀ st k,
  k ∈ copied st → k ∈ copied (copy_loop win32 copy_ok names st).
Proof.
  induction names as [|x rest IH]; intros st k Hk; simpl; [done|].
  case_decide; [by apply IH|].
  destruct (copy_ok x); apply IH; simpl; [|done].
  apply elem_of_union. by right.
Qed.

Lemma copy_loop_all_ok copy_ok names : ∀ st x,
  (∀ y, copy_ok y = true) → x ∈ names →
  key win32 x ∈ copied (copy_loop win32 copy_ok names st).
Proof.
  induction names as [|y rest IH]; intros st x Hok Hx; [by apply elem_of_nil in Hx|].
  simpl. apply elem_of_cons in Hx as [->|Hx].
  - case_decide; [by apply copy_loop_copied_mono|].
    rewrite Hok. apply copy_loop_copied_mono. simpl.
    apply elem_of_union. left. by apply elem_of_singleton.
  - case_decide; [by apply IH|]. rewrite Hok. by apply IH.
Qed.

Lemma copy_loop_copies_from copy_ok names : ∀ st x,
  x ∈ copies (copy_loop win32 copy_ok names st) → x ∈ copies st ∨ x ∈ names.
Proof.
  induction names as [|y rest IH]; intros st x Hx; simpl in Hx; [by left|].
  rewrite elem_of_cons.
  case_decide; [apply IH in Hx; tauto|].
  destruct (copy_ok y); apply IH in Hx; rewrite copies_snoc, elem_of_app in Hx.
  - rewrite list_elem_of_singleton in Hx. tauto.
  - rewrite elem_of_nil in Hx. tauto.
Qed.

Lemma copy_loop_app copy_ok l1 : ∀ l2 st,
  copy_loop win32 copy_ok (l1 ++ l2) st =
  copy_loop win32 copy_ok l2 (copy_loop win32 copy_ok l1 st).
Proof.
  induction l1 as [|x l1 IH]; intros l2 st; simpl; [done|].
  case_decide; [apply IH|]. destruct (copy_ok x); apply IH.
Qed.

Lemma copy_loop_copied_from copy_ok names : ∀ st k,
  k ∈ copied (copy_loop win32 copy_ok names st) →
  k ∈ copied st ∨ k ∈ key win32 <$> names.
Proof.
  induction names as [|x rest IH]; intros st k Hk; simpl in Hk; [by left|].
  rewrite fmap_cons, elem_of_cons.
  case_decide; [apply IH in Hk; tauto|].
  destruct (copy_ok x); apply IH in Hk; simpl in Hk; [|tauto].
  rewrite elem_of_union, elem_of_singleton in Hk. tauto.
Qed.

Lemma copy_loop_journal copy_ok names : ∀ st,
  ∃ more, journal (copy_loop win32 copy_ok names st) = journal st ++ more.
Proof.
  induction names as [|z rest IH]; intros st; simpl.
  - exists []. by rewrite app_nil_r.
  - case_decide; [apply IH|].
    destruct (copy_ok z);
      (edestruct IH as [more ->]; simpl; eexists; by rewrite <- app_assoc).
Qed.

(** A pass attempts the first name of every key that is not recorded. *)
Lemma copy_loop_attempts copy_ok before x after st :
  key win32 x ∉ key win32 <$> before → key win32 x ∉ copied st →
  ∃ b a,
    journal (copy_loop win32 copy_ok (before ++ x :: after) st) =
    journal st ++ b ++ (x, copy_ok x) :: a.
Proof.
  intros Hfirst Hk. rewrite copy_loop_app.
  destruct (copy_loop_journal copy_ok before st) as [m1 Hm1].
  assert (Hk1 : key win32 x ∉ copied (copy_loop win32 copy_ok before st)).
  { intros Hin. apply copy_loop_copied_from in Hin as [?|?]; done. }
  set (st1 := copy_loop win32 copy_ok before st) in *.
  simpl. rewrite decide_False by done.
  destruct (copy_ok x);
    (edestruct copy_loop_journal as [m2 ->]; simpl; exists m1, m2;
     by rewrite Hm1, <- !app_assoc).
Qed.

Lemma copy_loop_noop copy_ok names : ∀ st,
  (∀ x, x ∈ names → key win32 x ∈ copied st) →
  copy_loop win32 copy_ok names st = st.
Proof.
  induction names as [|y rest IH]; intros st Hall; simpl; [done|].
  rewrite decide_True by (apply Hall, elem_of_cons; by left).
  apply IH. intros x Hx. apply Hall, elem_of_cons. by right.
Qed.

Lemma NoDup_fmap_eq (l : list string) x y :
  NoDup (key win32 <$> l) → x ∈ l → y ∈ l → key win32 x = key win32 y → x = y.
Proof.
  induction l as [|z l IH]; intros Hnd Hx Hy Heq; [by apply elem_of_nil in Hx|].
  rewrite fmap_cons in Hnd. apply NoDup_cons in Hnd as [Hz Hnd].
  apply elem_of_cons in Hx as [->|Hx], Hy as [->|Hy].
  - done.
  - exfalso. apply Hz. rewrite Heq. by apply list_elem_of_fmap_2.
  - exfalso. apply Hz. rewrite <- Heq. by apply list_elem_of_fmap_2.
  - by apply IH.
Qed.

Variable matcher : string → bool.
Variable entries : list entry.

Lemma offload_loop_facts oracles : ∀ st,
  consistent st →
  let st' := offload_loop win32 matcher oracles entries st in
  consistent st' ∧
  (∀ k, k ∈ copied st → k ∈ copied st') ∧
  (∀ x, x ∈ copies st' → x ∈ copies st ∨ x ∈ qualifying matcher entries) ∧
  ((∃ copy_ok, copy_ok ∈ oracles ∧ ∀ x, copy_ok x = true) →
     ∀ x, x ∈ qualifying matcher entries → key win32 x ∈ copied st').
Proof.
  induction oracles as [|o oracles IH]; intros st Hst; simpl.
  - split_and!; [done|done|by left|]. by intros (o & ?%elem_of_nil & _).
  - rewrite offload_pass_copy_loop.
    set (st1 := copy_loop win32 o (qualifying matcher entries) st).
    destruct (IH st1) as (H1 & H2 & H3 & H4); [by apply copy_loop_consistent|].
    split_and!; [done| | |].
    + intros k Hk. by apply H2, copy_loop_copied_mono.
    + intros x Hx. apply H3 in Hx as [Hx|Hx]; [|by right].
      by apply copy_loop_copies_from in Hx.
    + intros (ok & [->|Hin]%elem_of_cons & Hok) x Hx.
      * by apply H2, copy_loop_all_ok.
      * apply H4; eauto.
Qed.

End invariant.

(** *** Names that differ in case only *)

(** The same character, or an ASCII capital and its small letter. *)
Definition same_letter (c d : ascii) : bool :=
  (code c =? code d)%N ||
  (in_range 65 90 c && (code d =? code c + 32)%N) ||
  (in_range 65 90 d && (code c =? code d + 32)%N).

Fixpoint same_up_to_case (x y : string) : bool :=
  match x, y with
  | EmptyString, EmptyString => true
  | String c x', String d y' => same_letter c d && same_up_to_case x' y'
  | _, _ => false
  end.

Lemma lower_char_capital c d :
  in_range 65 90 c = true → code d = (code c + 32)%N → lower_char c = lower_char d.
Proof.
  intros Hc Hd. unfold lower_char. rewrite Hc. simpl.
  unfold in_range in *. rewrite Hd.
  apply andb_prop in Hc as [Hlo%N.leb_le Hhi%N.leb_le].
  rewrite (proj2 (N.leb_gt (code c + 32) 90)) by lia. rewrite andb_false_r.
  rewrite (proj2 (N.leb_gt 192 (code c + 32))) by lia. simpl.
  rewrite <- Hd. unfold code. by rewrite ascii_N_embedding.
Qed.

Lemma same_letter_lower c d : same_letter c d = true → lower_char c = lower_char d.
Proof.
  unfold same_letter. intros [[H|H]%orb_prop|H]%orb_prop.
  - apply N.eqb_eq in H. unfold code in H.
    f_equal. rewrite <- (ascii_N_embedding c), <- (ascii_N_embedding d). by rewrite H.
  - apply andb_prop in H as [Hc Hd%N.eqb_eq]. by apply lower_char_capital.
  - apply andb_prop in H as [Hd Hc%N.eqb_eq]. symmetry. by apply lower_char_capital.
Qed.

(** On win32 names that differ in case only have the same key. *)
Lemma same_up_to_case_key x : ∀ y,
  same_up_to_case x y = true → key true x = key true y.
Proof.
  unfold key. induction x as [|c x IH]; intros [|d y] H; simpl in H; try done.
  apply andb_prop in H as [Hcd Hxy]. simpl.
  by rewrite (same_letter_lower c d Hcd), (IH y Hxy).
Qed.

(** C8, as the code has it.  Over an unchanged directory, any number of
    passes copies at most one file for each key (the name, lower-cased on
    win32), so no file twice, and only files accepted by the matcher; a key
    is recorded exactly when a copy of a file with that key succeeded.
    Once some pass had no failing copy, a file has been copied for every
    key of an accepted file and a further pass changes nothing.  In every
    pass the first accepted file of each unrecorded key is attempted, so a
    failed copy is tried again.  Two copied files never share a key; when
    the accepted files have distinct keys, each of them is recorded exactly
    when it was copied, and all of them are copied once some pass had no
    failing copy.  On win32 the test is case-insensitive: of the files whose
    names differ in the case of ASCII letters only, at most one is ever
    copied. *)
Theorem offload_idempotent (win32 : bool) (matcher : string → bool)
    (entries : list entry) (oracles : list (string → bool)) :
  let st := offload_loop win32 matcher oracles entries init in
  let accepted := qualifying matcher entries in
  NoDup (key win32 <$> copies st) ∧
  NoDup (copies st) ∧
  (∀ x, x ∈ copies st → x ∈ accepted) ∧
  (∀ k, k ∈ copied st ↔ ∃ x, x ∈ copies st ∧ key win32 x = k) ∧
  ((∃ copy_ok, copy_ok ∈ oracles ∧ ∀ x, copy_ok x = true) →
     (∀ x, x ∈ accepted → ∃ y, y ∈ copies st ∧ key win32 y = key win32 x) ∧
     (∀ copy_ok, offload_pass win32 matcher copy_ok entries st = st)) ∧
  (∀ copy_ok before x after, accepted = before ++ x :: after →
     key win32 x ∉ key win32 <$> before → key win32 x ∉ copied st →
     ∃ b a,
       journal (offload_pass win32 matcher copy_ok entries st) =
       journal st ++ b ++ (x, copy_ok x) :: a) ∧
  (∀ x y, x ∈ copies st → y ∈ copies st → key win32 x = key win32 y → x = y) ∧
  (NoDup (key win32 <$> accepted) →
     (∀ x, x ∈ accepted → (key win32 x ∈ copied st ↔ x ∈ copies st)) ∧
     ((∃ copy_ok, copy_ok ∈ oracles ∧ ∀ x, copy_ok x = true) →
        ∀ x, x ∈ accepted → x ∈ copies st)) ∧
  (win32 = true →
     ∀ x y, x ∈ copies st → y ∈ copies st → same_up_to_case x y = true → x = y).
Proof.
  intros st accepted.
  destruct (offload_loop_facts win32 matcher entries oracles init (consistent_init win32))
    as ([Hnd' Hset] & _ & Hfrom & Hall).
  fold st in Hnd', Hset, Hfrom, Hall. fold accepted in Hfrom, Hall.
  assert (Hsub : ∀ x, x ∈ copies st → x ∈ accepted).
  { intros x Hx. apply Hfrom in Hx as [Hx|Hx]; [|done]. by apply elem_of_nil in Hx. }
  assert (Hkey : ∀ k, k ∈ copied st ↔ ∃ x, x ∈ copies st ∧ key win32 x = k).
  { intros k. rewrite Hset, list_elem_of_fmap. split; intros (x & ? & ?); by exists x. }
  split_and!; [done|by apply (NoDup_fmap_1 (key win32))|done|done| | | | |].
  - intros Hok. split.
    + intros x Hx. by apply Hkey, Hall.
    + intros copy_ok. rewrite offload_pass_copy_loop. apply copy_loop_noop.
      intros x Hx. by apply Hall.
  - intros copy_ok before x after Hacc Hfirst Hk. rewrite offload_pass_copy_loop.
    fold accepted. rewrite Hacc. by apply copy_loop_attempts.
  - intros x y Hx Hy Heq. by apply (NoDup_fmap_eq win32 (copies st) x y).
  - intros Hnd.
    assert (Hrec : ∀ x, x ∈ accepted → (key win32 x ∈ copied st ↔ x ∈ copies st)).
    { intros x Hx. rewrite Hkey. split.
      - intros (y & Hy & Heq).
        by rewrite (NoDup_fmap_eq win32 accepted x y Hnd Hx (Hsub y Hy)).
      - intros Hc. by exists x. }
    split; [done|]. intros Hok x Hx. by apply Hrec, Hall.
  - intros -> x y Hx Hy Hcase.
    apply (NoDup_fmap_eq true (copies st) x y); [done..|].
    by apply same_up_to_case_key.
Qed.

Definition example_dir : list entry :=
  [ {| name := "name_00001.png"; is_file := true |};
    {| name := "_segments"; is_file := false |};
    {| name := "name_00002.png"; is_file := true |};
    {| name := "notes.txt"; is_file := true |} ].

Definition example_matcher : string → bool :=
  OutputPatterns.build_output_matcher "out/name_[#####].png".

(** Two passes over [example_dir]; the copy of frame 2 fails in the first. *)
Lemma offload_idempotent_witness :
  qualifying example_matcher example_dir = ["name_00001.png"; "name_00002.png"] ∧
  copies (offload_loop false example_matcher
            [λ x, negb (String.eqb x "name_00002.png"); λ _, true]
            example_dir init)
    = ["name_00001.png"; "name_00002.png"] ∧
  NoDup (copies (offload_loop false example_matcher
            [λ x, negb (String.eqb x "name_00002.png"); λ _, true]
            example_dir init)).
Proof.
  split_and!; [vm_compute; reflexivity..|].
  apply (offload_idempotent false example_matcher example_dir).
Defined.

(** The matcher of a single-file output (line 880). *)
Definition single_file_matcher (final_name : string) : string → bool :=
  λ n, String.eqb (lower n) (lower final_name).

(** A directory that holds the output under two names that differ in case
    only. *)
Definition case_dir : list entry :=
  [ {| name := "Final.mov"; is_file := true |};
    {| name := "final.mov"; is_file := true |} ].

(** C8 as stated fails on win32.  Both files of [case_dir] are accepted by
    the matcher, and whatever the passes and the outcomes of the copies, at
    most one of them is ever copied: after two passes without failing copy
    [final.mov] has not been copied, and no later pass attempts it.
    Elsewhere both are copied. *)
Lemma offload_case_collision :
  qualifying (single_file_matcher "final.mov") case_dir = ["Final.mov"; "final.mov"] ∧
  (∀ oracles,
     ¬ ("Final.mov" ∈ copies (offload_loop true (single_file_matcher "final.mov")
                                 oracles case_dir init) ∧
        "final.mov" ∈ copies (offload_loop true (single_file_matcher "final.mov")
                                 oracles case_dir init))) ∧
  copies (offload_loop true (single_file_matcher "final.mov")
            [λ _, true; λ _, true] case_dir init) = ["Final.mov"] ∧
  (∀ copy_ok,
     offload_pass true (single_file_matcher "final.mov") copy_ok case_dir
       (offload_loop true (single_file_matcher "final.mov")
          [λ _, true; λ _, true] case_dir init) =
     offload_loop true (single_file_matcher "final.mov")
       [λ _, true; λ _, true] case_dir init) ∧
  copies (offload_loop false (single_file_matcher "final.mov")
            [λ _, true; λ _, true] case_dir init) = ["Final.mov"; "final.mov"].
Proof.
  split_and!; [vm_compute; reflexivity| |vm_compute; reflexivity| |vm_compute; reflexivity].
  - intros oracles [H1 H2].
    destruct (offload_loop_facts true (single_file_matcher "final.mov") case_dir oracles
                init (consistent_init true)) as ([Hnd _] & _).
    assert (Heq : "Final.mov" = "final.mov")
      by (by apply (NoDup_fmap_eq true _ _ _ Hnd H1 H2)).
    discriminate Heq.
  - intros copy_ok. reflexivity.
Qed.

Example offload_key_case :
  key true "Final.MOV" = key true "final.mov" ∧ key false "Final.MOV" ≠ key false "final.mov".
Proof. split; [reflexivity|discriminate]. Qed.

End Offloader.

(** ** The external kill tool (stmpo_stop.py) *)

Module StopTool.

Import Text Re.

(** [PID_RE]: the letters p, i, d in any case, blanks, [=], blanks, then
    the captured digits.  [LAUNCHED_RE]: the text [Launched child], a
    bracketed number, blanks, [pid=] and the captured digits. *)
Definition PID_RE : re :=
  seqs [lit_ci "pid"; star space; chr "="; star space; Group 1 (plus digit)].
Definition LAUNCHED_RE : re :=
  seqs [lit "Launched child["; plus digit; chr "]"; plus space; lit "pid=";
        Group 1 (plus digit)].

(** [try: pid = int(s); if pid > 1: pids.add(pid) except Exception: pass]. *)
Definition add_pid (s : string) (pids : gset Z) : gset Z :=
  match py_int s with
  | Ok pid => if decide (pid > 1) then {[pid]} ∪ pids else pids
  | Raise _ => pids
  end.

Definition add_matches (r : re) (txt : string) (pids : gset Z) : gset Z :=
  foldl (λ pids m, add_pid (group m 1) pids) pids (finditer r txt).

(** [txt] is what [_read_text(path)] returned. *)
Definition _gather_pids_from_file (txt : string) : gset Z :=
  match txt with
  | EmptyString => ∅
  | _ =>
      let pids := add_matches PID_RE txt ∅ in
      foldl (λ pids line,
               let line := strip line in
               if isdigit line then add_pid line pids else pids)
            pids (splitlines txt)
  end.

Definition _gather_pids_from_log (txt : string) : gset Z :=
  match txt with
  | EmptyString => ∅
  | _ => add_matches PID_RE txt (add_matches LAUNCHED_RE txt ∅)
  end.

Example gather_file_example :
  elements (_gather_pids_from_file
    ("4242" +:+ String (ascii_of_N 10) ("child PID = 77" +:+ String (ascii_of_N 10) "pid=1")))
  = elements ({[4242; 77]} : gset Z).
Proof. vm_compute. reflexivity. Qed.

Example gather_log_example :
  elements (_gather_pids_from_log
    ("Runner pid=900" +:+ String (ascii_of_N 10)
       "Launched child[0] pid=901 frames=1-50"))
  = elements ({[900; 901]} : gset Z).
Proof. vm_compute. reflexivity. Qed.

(** *** The kill primitive *)

Inductive action :=
  | Terminate (pid : Z)      (* [os.kill(pid, 15)] or [proc.terminate()] *)
  | Kill (pid : Z)           (* [os.kill(pid, 9)] or [proc.kill()] *)
  | Taskkill (pid : Z).      (* [taskkill /PID pid /T /F] *)

Definition action_pid (a : action) : Z :=
  match a with Terminate p | Kill p | Taskkill p => p end.

Record platform := {
  has_psutil : bool;
  is_nt : bool;
}.

(** What the operating system answers during one call of [_kill_tree]:
    whether [os.kill(pid, 15)] returns, whether [psutil.Process(pid)] finds
    the process, its descendants ([None] when [children] raises), and which
    processes outlive the grace period ([None] when [wait_procs] raises). *)
Record os_view := {
  kill_ok : Z → bool;
  proc_exists : Z → bool;
  descendants : Z → option (list Z);
  outlives : option (Z → bool);
}.

Definition _kill_tree (pl : platform) (v : os_view) (pid : Z) : list action :=
  if decide (pid <= 1) then []
  else if negb (has_psutil pl) then
    if is_nt pl then [Taskkill pid]
    else Terminate pid :: (if kill_ok v pid then [Kill pid] else [])
  else if negb (proc_exists v pid) then []
  else
    let procs := pid :: default [] (descendants v pid) in
    let alive :=
      match outlives v with
      | Some f => filter (λ p, f p = true) procs
      | None => procs
      end in
    (Terminate <$> procs) ++ (Kill <$> alive).

(** *** [main] *)

(** The text of each input file, [None] when the file does not exist. *)
Record inputs := {
  pid_file : option string;
  child_pid_file : option string;
  log_file : option string;
}.

(** A call of [_kill_tree]: its argument and what it did. *)
Definition call : Type := Z * list action.

(** The operating system as the tool meets it: its answers may depend on
    the calls made so far. *)
Definition world : Type := list call → os_view.

(** Lines 151-169. *)
Definition gather (inp : inputs) : gset Z :=
  let pids : gset Z :=
    match pid_file inp with
    | Some raw =>
        let txt := strip raw in
        if isdigit txt then
          match py_int txt with Ok n => {[n]} | Raise _ => ∅ end
        else ∅
    | None => ∅
    end in
  let pids :=
    match child_pid_file inp with
    | Some raw => pids ∪ _gather_pids_from_file raw
    | None => pids
    end in
  match log_file inp with
  | Some raw => pids ∪ _gather_pids_from_log raw
  | None => pids
  end.

(** Line 173: [[p for p in sorted(pids) if p > 1]]. *)
Definition pids_list (inp : inputs) : list Z :=
  filter (λ p, p > 1) (merge_sort Z.le (elements (gather inp))).

(** Lines 178-182; the conversion is not guarded here. *)
Definition read_runner_pid (inp : inputs) : result (option Z) :=
  match pid_file inp with
  | Some raw =>
      let txt := strip raw in
      if isdigit txt then (n <- py_int txt ;; Ok (Some n)) else Ok None
  | None => Ok None
  end.

(** Lines 184-187. *)
Definition kill_non_runners (pl : platform) (w : world) (runner_pid : option Z)
    (targets : list Z) : list call :=
  foldl (λ calls pid,
           if decide (runner_pid = Some pid) then calls
           else calls ++ [(pid, _kill_tree pl (w calls) pid)])
        [] targets.

(** [main]: the calls of [_kill_tree] in order, and how [main] ends.  The
    stop log and the final removal of the child-pid file touch no process
    and are left out. *)
Definition main (pl : platform) (w : world) (inp : inputs) : list call * result Z :=
  let targets := pids_list inp in
  match read_runner_pid inp with
  | Raise e => ([], Raise e)
  | Ok runner_pid =>
      let calls := kill_non_runners pl w runner_pid targets in
      let calls :=
        match runner_pid with
        | Some r => calls ++ [(r, _kill_tree pl (w calls) r)]
        | None => calls
        end in
      (calls, Ok 0)
  end.

(** *** Facts about the kill primitive *)

Lemma _kill_tree_guard pl v pid : pid <= 1 → _kill_tree pl v pid = [].
Proof. intros H. unfold _kill_tree. by rewrite decide_True. Qed.

(** Every process touched by a call is the target or one of the
    descendants reported for it. *)
Lemma _kill_tree_touches pl v pid a :
  a ∈ _kill_tree pl v pid →
  1 < pid ∧
  (action_pid a = pid ∨
   has_psutil pl = true ∧ ∃ ds, descendants v pid = Some ds ∧ action_pid a ∈ ds).
Proof.
  unfold _kill_tree. case_decide as Hp; [by intros ?%elem_of_nil|].
  intros Ha. split; [lia|].
  destruct (has_psutil pl); cbn [negb] in Ha.
  - destruct (proc_exists v pid); cbn [negb] in Ha; [|by apply elem_of_nil in Ha].
    assert (Hin : action_pid a ∈ pid :: default [] (descendants v pid)).
    { apply elem_of_app in Ha as [Ha|Ha].
      - apply list_elem_of_fmap in Ha as (q & -> & Hq). done.
      - apply list_elem_of_fmap in Ha as (q & -> & Hq). simpl.
        destruct (outlives v); [|done]. by apply list_elem_of_filter in Hq as [_ Hq]. }
    apply elem_of_cons in Hin as [Hin|Hin]; [by left|]. right. split; [done|].
    destruct (descendants v pid) as [ds|]; [eauto|by apply elem_of_nil in Hin].
  - left. destruct (is_nt pl).
    + by apply list_elem_of_singleton in Ha as ->.
    + apply elem_of_cons in Ha as [->|Ha]; [done|].
      destruct (kill_ok v pid); [|by apply elem_of_nil in Ha].
      by apply list_elem_of_singleton in Ha as ->.
Qed.

(** *** Facts about the gathered pids *)

Lemma add_pid_gt1 s (pids : gset Z) :
  (∀ p, p ∈ pids → 1 < p) → ∀ p, p ∈ add_pid s pids → 1 < p.
Proof.
  intros Hall p. unfold add_pid. destruct (py_int s) as [n|]; [|apply Hall].
  case_decide; [|apply Hall].
  intros [->%elem_of_singleton|?]%elem_of_union; [lia|by apply Hall].
Qed.

Lemma add_matches_gt1 r txt (pids : gset Z) :
  (∀ p, p ∈ pids → 1 < p) → ∀ p, p ∈ add_matches r txt pids → 1 < p.
Proof.
  unfold add_matches. revert pids.
  induction (finditer r txt) as [|m ms IH]; intros pids Hall; simpl; [done|].
  apply IH. by apply add_pid_gt1.
Qed.

Lemma _gather_pids_from_file_gt1 txt p : p ∈ _gather_pids_from_file txt → 1 < p.
Proof.
  unfold _gather_pids_from_file. destruct txt as [|c txt]; [by intros ?%elem_of_empty|].
  generalize (splitlines (String c txt)) as lines.
  assert (H0 : ∀ q, q ∈ add_matches PID_RE (String c txt) ∅ → 1 < q).
  { apply add_matches_gt1. by intros q ?%elem_of_empty. }
  revert H0. generalize (add_matches PID_RE (String c txt) ∅) as pids.
  intros pids Hall lines. revert pids Hall p.
  induction lines as [|l lines IH]; intros pids Hall p; simpl; [apply Hall|].
  apply IH. destruct (isdigit (strip l)); [by apply add_pid_gt1|done].
Qed.

Lemma _gather_pids_from_log_gt1 txt p : p ∈ _gather_pids_from_log txt → 1 < p.
Proof.
  unfold _gather_pids_from_log. destruct txt as [|c txt]; [by intros ?%elem_of_empty|].
  apply add_matches_gt1, add_matches_gt1. by intros q ?%elem_of_empty.
Qed.

Lemma pids_list_spec inp p : p ∈ pids_list inp ↔ p ∈ gather inp ∧ 1 < p.
Proof.
  unfold pids_list. rewrite list_elem_of_filter, merge_sort_Permutation, elem_of_elements.
  split; intros [? ?]; split; (done || lia).
Qed.

(** *** Facts about the order of the calls *)

Lemma kill_non_runners_roots pl w runner_pid targets :
  (kill_non_runners pl w runner_pid targets).*1 =
  filter (λ p, runner_pid ≠ Some p) targets.
Proof.
  unfold kill_non_runners.
  assert (H : ∀ acc : list call,
    (foldl (λ calls pid,
              if decide (runner_pid = Some pid) then calls
              else calls ++ [(pid, _kill_tree pl (w calls) pid)]) acc targets).*1 =
    acc.*1 ++ filter (λ p, runner_pid ≠ Some p) targets).
  { induction targets as [|t ts IH]; intros acc; simpl.
    - by rewrite app_nil_r.
    - rewrite IH, filter_cons. case_decide as Hr.
      + by rewrite decide_False by (by intros ?).
      + rewrite decide_True by done. by rewrite fmap_app, <- app_assoc. }
  by rewrite H.
Qed.

Lemma kill_non_runners_calls pl w runner_pid targets c :
  c ∈ kill_non_runners pl w runner_pid targets →
  ∃ hist, c.2 = _kill_tree pl (w hist) c.1.
Proof.
  unfold kill_non_runners.
  assert (H : ∀ acc : list call,
    (∀ c, c ∈ acc → ∃ hist, c.2 = _kill_tree pl (w hist) c.1) →
    ∀ c, c ∈ foldl (λ calls pid,
              if decide (runner_pid = Some pid) then calls
              else calls ++ [(pid, _kill_tree pl (w calls) pid)]) acc targets →
         ∃ hist, c.2 = _kill_tree pl (w hist) c.1).
  { induction targets as [|t ts IH]; intros acc Hacc; simpl; [done|].
    apply IH. case_decide; [done|].
    intros c' [Hc| ->%list_elem_of_singleton]%elem_of_app; [by apply Hacc|]. eauto. }
  apply H. by intros c' ?%elem_of_nil.
Qed.

(** Every call made by [main] is a call of [_kill_tree] in some state of
    the system. *)
Lemma main_calls pl w inp c :
  c ∈ (main pl w inp).1 → ∃ hist, c.2 = _kill_tree pl (w hist) c.1.
Proof.
  unfold main. destruct (read_runner_pid inp) as [[r|]|e]; simpl.
  - intros [Hc| ->%list_elem_of_singleton]%elem_of_app; [|by eauto].
    by apply kill_non_runners_calls in Hc.
  - apply kill_non_runners_calls.
  - by intros ?%elem_of_nil.
Qed.

(** The runner is the target of the last call only, and every other
    target of the list has had its call by then. *)
Lemma main_kills_runner_last pl w inp r :
  read_runner_pid inp = Ok (Some r) →
  ∃ before acts,
    main pl w inp = (before ++ [(r, acts)], Ok 0) ∧
    before.*1 = filter (λ p, p ≠ r) (pids_list inp) ∧
    (r ∉ before.*1) ∧
    (∀ p, p ∈ pids_list inp → p ≠ r → p ∈ (before.*1)) ∧
    ((∀ hist p ds, descendants (w hist) p = Some ds → r ∉ ds) →
     ∀ c a, c ∈ before → a ∈ c.2 → action_pid a ≠ r).
Proof.
  intros Hr. unfold main. rewrite Hr.
  set (before := kill_non_runners pl w (Some r) (pids_list inp)).
  assert (Hroots : before.*1 = filter (λ p, p ≠ r) (pids_list inp)).
  { unfold before. rewrite kill_non_runners_roots. clear.
    induction (pids_list inp) as [|t ts IH]; [done|].
    rewrite !filter_cons, IH. destruct (decide (t = r)) as [->|Hne].
    - by rewrite !decide_False by (intros H; by apply H).
    - by rewrite !decide_True by congruence. }
  exists before, (_kill_tree pl (w before) r). split_and!; [reflexivity|done| | |].
  - rewrite Hroots. intros [Hne _]%list_elem_of_filter. by apply Hne.
  - intros p Hp Hne. rewrite Hroots. by apply list_elem_of_filter.
  - intros Hdesc c a Hc Ha.
    assert (c.1 ≠ r) as Hne.
    { assert (c.1 ∈ (before.*1)) as Hin by (by apply list_elem_of_fmap_2).
      rewrite Hroots in Hin. by apply list_elem_of_filter in Hin as [? _]. }
    apply kill_non_runners_calls in Hc as [hist Hc]. rewrite Hc in Ha.
    apply _kill_tree_touches in Ha as (_ & [->|(_ & ds & Hds & Hin)]); [done|].
    intros Heq. rewrite Heq in Hin. by apply (Hdesc hist c.1 ds).
Qed.

(** With no input file there is nothing to kill and [main] returns 0. *)
Lemma main_absent_inputs pl w :
  main pl w {| pid_file := None; child_pid_file := None; log_file := None |} = ([], Ok 0).
Proof. reflexivity. Qed.

(** When none of the named processes is found, [main] signals nothing. *)
Lemma main_no_live_processes pl w inp r :
  has_psutil pl = true → (∀ hist pid, proc_exists (w hist) pid = false) →
  read_runner_pid inp = Ok r →
  (main pl w inp).2 = Ok 0 ∧ ∀ c, c ∈ (main pl w inp).1 → c.2 = [].
Proof.
  intros Hps Hdead Hr. split; [unfold main; by rewrite Hr|].
  intros c [hist ->]%main_calls. unfold _kill_tree.
  case_decide; [done|]. by rewrite Hps, Hdead.
Qed.

(** The process tree as [psutil] reports it never lists the idle or init
    process below another process. *)
Definition tree_above_init (w : world) : Prop :=
  ∀ hist pid ds d, 1 < pid → descendants (w hist) pid = Some ds → d ∈ ds → 1 < d.

(** C10. Whatever the three input files contain, every pid gathered from
    the child-pid file or the log is above 1, every pid of the target list
    is above 1, the kill primitive does nothing for a pid of 1 or less, and
    every action of every call made by [main] is aimed at a pid above 1. *)
Theorem kill_targets_above_init (pl : platform) (w : world) (inp : inputs) :
  (has_psutil pl = true → tree_above_init w) →
  (∀ txt p, p ∈ _gather_pids_from_file txt → 1 < p) ∧
  (∀ txt p, p ∈ _gather_pids_from_log txt → 1 < p) ∧
  (∀ p, p ∈ pids_list inp → 1 < p) ∧
  (∀ v p, p <= 1 → _kill_tree pl v p = []) ∧
  (∀ c a, c ∈ (main pl w inp).1 → a ∈ c.2 → 1 < c.1 ∧ 1 < action_pid a).
Proof.
  intros Htree. split_and!.
  - apply _gather_pids_from_file_gt1.
  - apply _gather_pids_from_log_gt1.
  - intros p Hp. by apply pids_list_spec in Hp as [_ ?].
  - intros v p. apply _kill_tree_guard.
  - intros c a [hist Hc]%main_calls Ha. rewrite Hc in Ha.
    apply _kill_tree_touches in Ha as (Hroot & [->|(Hps & ds & Hds & Hin)]); [done|].
    split; [done|]. by apply (Htree Hps hist c.1 ds).
Qed.

Definition example_platform : platform := {| has_psutil := true; is_nt := false |}.

(** A runner 900 with the two children 901 and 902, all of which exit on
    the first signal. *)
Definition example_world : world := λ _,
  {| kill_ok := λ _, true;
     proc_exists := λ _, true;
     descendants := λ pid, if decide (pid = 900) then Some [901; 902] else Some [];
     outlives := Some (λ _, false) |}.

Definition example_inputs : inputs :=
  {| pid_file := Some "900";
     child_pid_file :=
       Some ("902" +:+ String (ascii_of_N 10) ("901" +:+ String (ascii_of_N 10)
             ("1" +:+ String (ascii_of_N 10) "pid=0")));
     log_file := Some "Runner pid=900" |}.

Example main_example :
  main example_platform example_world example_inputs =
  ([(901, [Terminate 901]); (902, [Terminate 902]);
    (900, [Terminate 900; Terminate 901; Terminate 902])], Ok 0).
Proof. vm_compute. reflexivity. Qed.

Lemma example_world_tree : tree_above_init example_world.
Proof.
  intros hist pid ds d Hpid Hds Hd. simpl in Hds.
  destruct (decide (pid = 900)); injection Hds as <-.
  - apply elem_of_cons in Hd as [->|Hd]; [lia|].
    apply list_elem_of_singleton in Hd as ->. lia.
  - by apply elem_of_nil in Hd.
Defined.

Lemma kill_targets_above_init_witness :
  Forall (λ c : call, Forall (λ a, 1 < action_pid a) c.2)
    (main example_platform example_world example_inputs).1.
Proof.
  pose proof (kill_targets_above_init example_platform example_world example_inputs
                (λ _, example_world_tree)) as (_ & _ & _ & _ & H).
  apply Forall_forall. intros c Hc. apply Forall_forall. intros a Ha.
  by destruct (H c a Hc Ha).
Defined.

(** C9, at a runner-pid file that holds the single character U+00B2.
    [isdigit] accepts it and [int] does not: the guarded conversion of line
    158 leaves the target set empty, and the conversion of line 182, which
    has no guard, ends [main] with [ValueError] instead of the return value
    0. *)
Theorem main_superscript_pid_file_raises (pl : platform) (w : world) :
  gather {| pid_file := Some (String (ascii_of_N 178) EmptyString);
            child_pid_file := None; log_file := None |} = ∅ ∧
  main pl w {| pid_file := Some (String (ascii_of_N 178) EmptyString);
               child_pid_file := None; log_file := None |} = ([], Raise ValueError).
Proof. split; reflexivity. Qed.

End StopTool.

(** ** Orchestrator, part 2: spawning, the monitor loop and the end of
    [run_orchestrator] (orchestrator.py, 916-1104) *)

Module Run.

Import Text Plan.

(** *** Calling [ffmpeg_concat_segments] *)

(** A Python signature: the positional-or-keyword parameters, the
    keyword-only parameters without default, and the keyword-only
    parameters with one. *)
Record signature := {
  positional : list string;
  kw_required : list string;
  kw_optional : list string;
}.

(** Argument binding for a call with [n] positional arguments and the
    keyword arguments [kws]: [TypeError] for a positional argument without
    parameter, an unknown keyword, a parameter given twice, or a required
    parameter left out. *)
Definition bind_call (sg : signature) (n : nat) (kws : list string) : result unit :=
  if decide (length (positional sg) < n)%nat then Raise TypeError
  else if bool_decide
       (Forall (λ k, k ∈ positional sg ++ kw_required sg ++ kw_optional sg) kws)
  then
    if bool_decide (Forall (λ k, k ∉ take n (positional sg)) kws) then
      if bool_decide (Forall (λ q, q ∈ kws) (drop n (positional sg) ++ kw_required sg))
      then Ok ()
      else Raise TypeError
    else Raise TypeError
  else Raise TypeError.

(** [def ffmpeg_concat_segments( *, ffmpeg_path, segments, output_file,
    work_dir, log, allow_reencode=True)]. *)
Definition ffmpeg_concat_segments_sig : signature :=
  {| positional := [];
     kw_required := ["ffmpeg_path"; "segments"; "output_file"; "work_dir"; "log"];
     kw_optional := ["allow_reencode"] |}.

(** What the three ffmpeg invocations would do: whether the concat list can
    be written, and whether attempt 1 (stream copy), 2 (re-encode video) and
    3 (re-encode video and audio) exit with status 0. *)
Record stitch_env := {
  write_list_ok : bool;
  attempt_ok : nat → bool;
}.

(** The body of [ffmpeg_concat_segments] (159-283): the result and the
    attempts made. *)
Definition ffmpeg_concat_segments (segments : list string) (allow_reencode : bool)
    (e : stitch_env) : bool * list nat :=
  match segments with
  | [] => (false, [])
  | _ =>
      if negb (write_list_ok e) then (false, [])
      else if attempt_ok e 1 then (true, [1%nat])
      else if negb allow_reencode then (false, [1%nat])
      else if attempt_ok e 2 then (true, [1%nat; 2%nat])
      else (attempt_ok e 3, [1%nat; 2%nat; 3%nat])
  end.

(** Line 1066: [ffmpeg_concat_segments(ffmpeg, segment_outputs,
    local_output_path, logger)], four positional arguments and no keyword. *)
Definition stitch_call (segments : list string) (e : stitch_env) : result bool :=
  _ <- bind_call ffmpeg_concat_segments_sig 4 [] ;;
  Ok (ffmpeg_concat_segments segments true e).1.

(** *** State of a run *)

(** [failures] and [stop_children_event] are the variables of the source;
    [files] is the set of files that exist; [interrupted] is a ghost field
    that records that [_sig_handler] ran. *)
Record mon := {
  failures : list Z;
  stop_children_event : bool;
  files : gset string;
  interrupted : bool;
}.

Definition under (d f : string) : bool := String.prefix (d +:+ "/") f.

(** [shutil.rmtree(d, ignore_errors=True)]. *)
Definition rmtree (d : string) (fs : gset string) : gset string :=
  filter (λ f, under d f = false) fs.

(** [cleanup_resources] (921-937). *)
Definition cleanup_resources (p : plan) (st : mon) : mon :=
  {| failures := failures st;
     stop_children_event := true;
     files := if use_scratch p then rmtree (local_scratch_dir p) (files st) else files st;
     interrupted := interrupted st |}.

(** [_sig_handler] (940-942). *)
Definition _sig_handler (p : plan) (st : mon) : mon :=
  let st := cleanup_resources p st in
  {| failures := failures st;
     stop_children_event := stop_children_event st;
     files := files st;
     interrupted := true |}.

Definition on_signal (p : plan) (signal : bool) (st : mon) : mon :=
  if signal then _sig_handler p st else st.

(** *** Spawning (947-988) *)

(** The loop tests the stop flag once per range, at the top of the
    iteration (line 948), and launches the job of the range after the
    test, whatever happens in between.  [spawn_signal i] tells whether a
    signal was handled in the stretch of time that ends with the test of
    iteration [i]: since the handlers were installed for [i = 0], and since
    the test of iteration [i - 1] otherwise, which covers the delay, the
    launch and the bookkeeping of job [i - 1].  A signal handled after the
    last test belongs to the first turn of the monitor loop.  The handler
    changes the state of this model in the same way wherever in the stretch
    it runs.  [spawn_pid i] is the pid of the process started for range
    [i]. *)
Fixpoint spawn_loop (p : plan) (spawn_signal : nat → bool) (spawn_pid : nat → Z)
    (i : nat) (ranges : list (Z * Z)) (st : mon) (children : list Z)
  : mon * list Z :=
  match ranges with
  | [] => (st, children)
  | _ :: rest =>
      let st := on_signal p (spawn_signal i) st in
      if stop_children_event st then (st, children)
      else spawn_loop p spawn_signal spawn_pid (S i) rest st (children ++ [spawn_pid i])
  end.

(** *** The monitor loop (994-1043) *)

(** One turn of the loop as the outside world shapes it: the files written
    since the last turn, whether a signal arrived, and what [poll()] returns
    for the child at each position. *)
Record tick := {
  writes : list string;
  signal : bool;
  poll : nat → option Z;
}.

(** The [for ch in children] loop of lines 1026-1037, entered at position
    [i]. *)
Fixpoint check_completion (kill_on_fail : bool) (p : plan) (poll : nat → option Z)
    (i : nat) (children : list Z) (st : mon) (all_done : bool) : mon * bool :=
  match children with
  | [] => (st, all_done)
  | pid :: rest =>
      match poll i with
      | None => check_completion kill_on_fail p poll (S i) rest st false
      | Some rc =>
          if decide (rc ≠ 0 ∧ pid ∉ failures st) then
            let st := {| failures := failures st ++ [pid];
                         stop_children_event := stop_children_event st;
                         files := files st;
                         interrupted := interrupted st |} in
            if kill_on_fail then (cleanup_resources p st, all_done)
            else check_completion kill_on_fail p poll (S i) rest st all_done
          else check_completion kill_on_fail p poll (S i) rest st all_done
      end
  end.

(** The [while True] loop; [None] when the given turns end before every
    child is done. *)
Fixpoint monitor (kill_on_fail : bool) (p : plan) (children : list Z)
    (ticks : list tick) (st : mon) : option mon :=
  match ticks with
  | [] => None
  | t :: ts =>
      let st := {| failures := failures st;
                   stop_children_event := stop_children_event st;
                   files := files st ∪ list_to_set (writes t);
                   interrupted := interrupted st |} in
      let st := on_signal p (signal t) st in
      let '(st, all_done) := check_completion kill_on_fail p (poll t) 0 children st true in
      if all_done then Some st else monitor kill_on_fail p children ts st
  end.

(** *** The end of the run (1048-1104) *)

Inductive finish :=
  | Fatal                 (* [return 2] at 1056, 1063 or 1069 *)
  | Raised (e : exn)      (* an exception leaves [run_orchestrator] *)
  | Completed (rc : Z).   (* [return rc] at 1104 *)

(** The status with which the process ends. *)
Definition exit_status (f : finish) : Z :=
  match f with
  | Fatal => 2
  | Raised _ => 1
  | Completed rc => rc
  end.

(** Lines 1078-1104, after the stitching block. *)
Definition complete (p : plan) (final_output_path : string) (st : mon) : finish * gset string :=
  let fs := files st in
  let fs :=
    if use_scratch p && negb (output_is_seq p) && bool_decide (local_output_path p ∈ fs)
    then {[final_output_path]} ∪ fs else fs in
  let fs := if use_scratch p then rmtree (local_scratch_dir p) fs else fs in
  let rc :=
    if stop_children_event st && bool_decide (failures st = []) then 130
    else if bool_decide (failures st ≠ []) then 1 else 0 in
  (Completed rc, fs).

(** Lines 1048-1104.  [ffmpeg] is what [find_ffmpeg()] returns at line
    1049. *)
Definition finalize (p : plan) (final_output_path : string) (ffmpeg : option string)
    (e : stitch_env) (st : mon) : finish * gset string :=
  match segment_outputs p with
  | [] => complete p final_output_path st
  | seg0 :: _ =>
      if negb (truthy ffmpeg) then (Fatal, files st)
      else
        let missing := filter (λ s, s ∉ files st) (segment_outputs p) in
        match missing with
        | _ :: _ => (Fatal, files st)
        | [] =>
            match stitch_call (segment_outputs p) e with
            | Raise ex => (Raised ex, files st)
            | Ok false => (Fatal, files st)
            | Ok true =>
                let fs := {[local_output_path p]} ∪ files st in
                let fs := rmtree (Paths.path_parent seg0) fs in
                complete p final_output_path
                  {| failures := failures st;
                     stop_children_event := stop_children_event st;
                     files := fs;
                     interrupted := interrupted st |}
            end
        end
  end.

(** *** The whole run *)

(** What the outside world does during a run: signals and pids while
    spawning, the turns of the monitor loop, a signal between the loop and
    the exit code, the second [find_ffmpeg()], the ffmpeg outcomes, and the
    files present at the start. *)
Record run_env := {
  spawn_signal : nat → bool;
  spawn_pid : nat → Z;
  ticks : list tick;
  late_signal : bool;
  ffmpeg_at_stitch : option string;
  stitch : stitch_env;
  files0 : gset string;
}.

(** The state in which the spawn loop starts: stale segment files have been
    unlinked (868-873). *)
Definition blank_state (fs : gset string) : mon :=
  {| failures := []; stop_children_event := false; files := fs; interrupted := false |}.

Definition start_state (p : plan) (e : run_env) : mon :=
  blank_state (files0 e ∖ list_to_set (segment_outputs p)).

(** The pids of the jobs that were started. *)
Definition spawned (p : plan) (e : run_env) : list Z :=
  (spawn_loop p (spawn_signal e) (spawn_pid e) 0 (ranges p) (start_state p e) []).2.

(** [run_orchestrator]: how it ends, the files left behind, and the state
    just before line 1048.  [None] when the monitor loop is still running
    after the given turns. *)
Definition run_orchestrator (a : run_args) (h : host) (kill_on_fail dry_run : bool)
    (e : run_env) : option (finish * gset string * mon) :=
  match plan_run a h with
  | Raise ex => Some (Raised ex, files0 e, blank_state (files0 e))
  | Ok p =>
      let st := start_state p e in
      if dry_run then Some (Completed 0, files st, st)
      else
        let '(st, children) :=
          spawn_loop p (spawn_signal e) (spawn_pid e) 0 (ranges p) st [] in
        match monitor kill_on_fail p children (ticks e) st with
        | None => None
        | Some st =>
            let st := on_signal p (late_signal e) st in
            let '(f, fs) := finalize p (output a) (ffmpeg_at_stitch e) (stitch e) st in
            Some (f, fs, st)
        end
  end.

Definition quiet_tick (polls : list (option Z)) : tick :=
  {| writes := []; signal := false; poll := λ i, default None (polls !! i) |}.

Definition example_env (ts : list tick) : run_env :=
  {| spawn_signal := λ _, false; spawn_pid := λ i, 500 + i; ticks := ts;
     late_signal := false; ffmpeg_at_stitch := Some "/usr/bin/ffmpeg";
     stitch := {| write_list_ok := true; attempt_ok := λ _, false |}; files0 := ∅ |}.

(** Three jobs of a sequence render; the second one exits with status 3. *)
Example run_sequence_with_failure :
  (λ r, exit_status r.1.1) <$>
    run_orchestrator (example_args "out/name_[#####].png" 3) (example_host None)
      false false
      (example_env [quiet_tick [None; Some 3; None]; quiet_tick [Some 0; Some 3; Some 0]])
  = Some 1.
Proof. vm_compute. reflexivity. Qed.

(** The same render, interrupted while every job still runs; the jobs then
    exit with status 0. *)
Example run_sequence_interrupted :
  (λ r, exit_status r.1.1) <$>
    run_orchestrator (example_args "out/name_[#####].png" 3) (example_host None)
      false false
      (example_env [ {| writes := []; signal := true; poll := λ _, None |};
                     quiet_tick [Some 0; Some 0; Some 0] ])
  = Some 130.
Proof. vm_compute. reflexivity. Qed.

(** A segmented run in which every segment file was written. *)
Definition segments_written : tick :=
  {| writes := ["/tmp/stmpo_ae/job_1a2b3c4d/_segments/final__part_001_1-34.mov";
                "/tmp/stmpo_ae/job_1a2b3c4d/_segments/final__part_002_35-67.mov";
                "/tmp/stmpo_ae/job_1a2b3c4d/_segments/final__part_003_68-100.mov"];
     signal := false;
     poll := λ _, Some 0 |}.

Example run_segmented_all_present :
  (λ r, (r.1.1, elements r.1.2)) <$>
    run_orchestrator (example_args "out/final.mov" 3) (example_host (Some "/usr/bin/ffmpeg"))
      false false (example_env [segments_written])
  = Some (Raised TypeError,
          elements (list_to_set (writes segments_written) : gset string)).
Proof. vm_compute. reflexivity. Qed.

Example run_segmented_one_missing :
  (λ r, r.1.1) <$>
    run_orchestrator (example_args "out/final.mov" 3) (example_host (Some "/usr/bin/ffmpeg"))
      false false
      (example_env [ {| writes := ["/tmp/stmpo_ae/job_1a2b3c4d/_segments/final__part_001_1-34.mov"];
                        signal := false; poll := λ _, Some 0 |} ])
  = Some Fatal.
Proof. vm_compute. reflexivity. Qed.

(** *** Invariants of the loops *)

(** The stop flag is set exactly by the signal handler and by the
    escalation of a failure. *)
Definition stop_inv (st : mon) : Prop :=
  (interrupted st = true → stop_children_event st = true) ∧
  (stop_children_event st = true → interrupted st = true ∨ failures st ≠ []).

Lemma on_signal_spec p sg st :
  let st' := on_signal p sg st in
  failures st' = failures st ∧
  interrupted st' = (sg || interrupted st) ∧
  (stop_inv st → stop_inv st').
Proof.
  destruct sg; simpl; [|done]. split_and!; [done|done|].
  intros _. split; simpl; auto.
Qed.

Lemma snoc_not_nil (l : list Z) x more : l ++ [x] ++ more ≠ [].
Proof. by destruct l. Qed.

Lemma check_completion_spec kof p poll children : ∀ i st ad st' ad',
  check_completion kof p poll i children st ad = (st', ad') →
  interrupted st' = interrupted st ∧
  (∃ more, failures st' = failures st ++ more) ∧
  (stop_inv st → stop_inv st') ∧
  (failures st' = [] → ad' = true →
     ad = true ∧ ∀ (k : nat) pid, children !! k = Some pid → poll (i + k)%nat = Some 0) ∧
  (failures st' ≠ [] →
     failures st ≠ [] ∨ ∃ (k : nat) rc, poll (i + k)%nat = Some rc ∧ rc ≠ 0).
Proof.
  induction children as [|pid rest IH]; intros i st ad st' ad' H; simpl in H.
  - injection H as <- <-. split_and!; [done|by exists []; rewrite app_nil_r|done| |by left].
    intros _ ->. split; [done|]. by intros k pid' ?.
  - destruct (poll i) as [rc|] eqn:Hpoll.
    + case_decide as Hfail.
      * destruct Hfail as [Hrc Hnew]. destruct kof.
        -- injection H as <- <-. simpl.
           split_and!; [done|by eexists| | |].
           ++ intros [Hi Hs]. split; simpl; [done|]. intros _. right. by destruct (failures st).
           ++ intros Hnil. by destruct (failures st).
           ++ intros _. right. exists 0%nat, rc. by rewrite Nat.add_0_r.
        -- apply IH in H as (Hint & [more Hmore] & Hinv & Hnil & Hne). simpl in *.
           split_and!; [done|exists ([pid] ++ more); by rewrite Hmore, <- app_assoc| | |].
           ++ intros [Hi Hs]. apply Hinv. split; simpl; [done|].
              intros Hstop. destruct (Hs Hstop); [by left|right; by destruct (failures st)].
           ++ intros Hf. exfalso. rewrite Hmore, <- app_assoc in Hf.
              by apply snoc_not_nil in Hf.
           ++ intros _. right. exists 0%nat, rc. by rewrite Nat.add_0_r.
      * apply IH in H as (Hint & Hmore & Hinv & Hnil & Hne).
        split_and!; [done|done|done| |].
        -- intros Hf Had. destruct (Hnil Hf Had) as [-> Hall]. split; [done|].
           intros [|k] pid' Hk; simpl in Hk.
           ++ rewrite Nat.add_0_r, Hpoll. f_equal.
              destruct (decide (rc = 0)) as [|Hrc]; [done|]. exfalso. apply Hfail.
              split; [done|]. destruct Hmore as [more Hmore]. rewrite Hf in Hmore.
              symmetry in Hmore. apply app_eq_nil in Hmore as [-> _]. by intros ?%elem_of_nil.
           ++ replace (i + S k)%nat with (S i + k)%nat by lia. by apply (Hall k pid').
        -- intros Hf. destruct (Hne Hf) as [?|(k & rc' & Hk & ?)]; [by left|].
           right. exists (S k), rc'. by replace (i + S k)%nat with (S i + k)%nat by lia.
    + apply IH in H as (Hint & Hmore & Hinv & Hnil & Hne).
      split_and!; [done|done|done| |].
      * intros Hf Had. by destruct (Hnil Hf Had) as [? _].
      * intros Hf. destruct (Hne Hf) as [?|(k & rc' & Hk & ?)]; [by left|].
        right. exists (S k), rc'. by replace (i + S k)%nat with (S i + k)%nat by lia.
Qed.

Lemma monitor_spec kof p children ticks : ∀ st st',
  monitor kof p children ticks st = Some st' →
  (interrupted st' = true →
     interrupted st = true ∨ ∃ t, t ∈ ticks ∧ signal t = true) ∧
  (∃ more, failures st' = failures st ++ more) ∧
  (stop_inv st → stop_inv st') ∧
  (failures st' = [] →
     ∃ t, t ∈ ticks ∧ ∀ (k : nat) pid, children !! k = Some pid → poll t k = Some 0) ∧
  (failures st' ≠ [] →
     failures st ≠ [] ∨ ∃ t (k : nat) rc, t ∈ ticks ∧ poll t k = Some rc ∧ rc ≠ 0).
Proof.
  induction ticks as [|t ts IH]; intros st st' H; simpl in H; [done|].
  set (st1 := {| failures := failures st;
                 stop_children_event := stop_children_event st;
                 files := files st ∪ list_to_set (writes t);
                 interrupted := interrupted st |}) in H.
  destruct (on_signal_spec p (signal t) st1) as (Hsf & Hsi & Hsinv).
  destruct (check_completion kof p (poll t) 0 children (on_signal p (signal t) st1) true)
    as [st2 ad] eqn:Hcc.
  apply check_completion_spec in Hcc as (Hci & [m1 Hcm] & Hcinv & Hcnil & Hcne).
  rewrite Hsi in Hci. rewrite Hsf in Hcm, Hcne. simpl in Hci, Hcm, Hcne.
  assert (Hinv1 : stop_inv st → stop_inv st2).
  { intros Hst. apply Hcinv, Hsinv. exact Hst. }
  destruct ad.
  - injection H as <-. split_and!; [| by eexists | done | |].
    + rewrite Hci. intros [Hs|?]%orb_true_iff; [right|by left].
      exists t. split; [apply elem_of_cons; by left|done].
    + intros Hf. exists t. split; [apply elem_of_cons; by left|].
      by destruct (Hcnil Hf eq_refl) as [_ ?].
    + intros Hf. destruct (Hcne Hf) as [?|(k & rc & ? & ?)]; [by left|].
      right. exists t, k, rc. split_and!; [apply elem_of_cons; by left|done|done].
  - apply IH in H as (Hi & [m2 Hm] & Hinv & Hnil & Hne).
    split_and!.
    + intros Hint. destruct (Hi Hint) as [Hint2|(t' & ? & ?)].
      * rewrite Hci in Hint2. apply orb_true_iff in Hint2 as [?|?]; [right|by left].
        exists t. split; [apply elem_of_cons; by left|done].
      * right. exists t'. split; [apply elem_of_cons; by right|done].
    + exists (m1 ++ m2). by rewrite Hm, Hcm, <- app_assoc.
    + intros Hst. by apply Hinv, Hinv1.
    + intros Hf. destruct (Hnil Hf) as (t' & ? & ?).
      exists t'. split; [apply elem_of_cons; by right|done].
    + intros Hf. destruct (Hne Hf) as [Hf2|(t' & k & rc & ? & ? & ?)].
      * destruct (Hcne Hf2) as [?|(k & rc & ? & ?)]; [by left|].
        right. exists t, k, rc. split_and!; [apply elem_of_cons; by left|done|done].
      * right. exists t', k, rc. split_and!; [apply elem_of_cons; by right|done|done].
Qed.

Lemma spawn_loop_spec p sig pid ranges : ∀ i st children st' children',
  spawn_loop p sig pid i ranges st children = (st', children') →
  failures st' = failures st ∧
  (interrupted st' = true → interrupted st = true ∨ ∃ j, sig j = true) ∧
  (stop_inv st → stop_inv st').
Proof.
  induction ranges as [|r rest IH]; intros i st children st' children' H; simpl in H.
  - injection H as <- <-. split_and!; [done|by left|done].
  - destruct (on_signal_spec p (sig i) st) as (Hsf & Hsi & Hsinv).
    destruct (stop_children_event (on_signal p (sig i) st)).
    + injection H as <- <-. split_and!; [done| |done].
      rewrite Hsi. intros [?|?]%orb_true_iff; [right; by exists i|by left].
    + apply IH in H as (Hf & Hi & Hinv). split_and!.
      * by rewrite Hf.
      * intros Hint. destruct (Hi Hint) as [Hint2|?]; [|by right].
        rewrite Hsi in Hint2. apply orb_true_iff in Hint2 as [?|?]; [right; by exists i|by left].
      * intros Hst. by apply Hinv, Hsinv.
Qed.

(** The exit code of line 1099-1102 in terms of the signal handler. *)
Lemma complete_rc p out st rc fs :
  stop_inv st → complete p out st = (Completed rc, fs) →
  rc = (if interrupted st && bool_decide (failures st = []) then 130
        else if bool_decide (failures st ≠ []) then 1 else 0).
Proof.
  intros [Hi Hs] H. unfold complete in H. injection H as <- _.
  destruct (failures st) as [|x l] eqn:Hf; simpl.
  - rewrite !andb_true_r. destruct (interrupted st) eqn:Hint.
    + by rewrite Hi.
    + destruct (stop_children_event st); [|done]. by destruct Hs.
  - by rewrite !andb_false_r.
Qed.

Lemma stitch_call_raises segments e : stitch_call segments e = Raise TypeError.
Proof. reflexivity. Qed.

Lemma finalize_completed p out ff e st rc fs :
  finalize p out ff e st = (Completed rc, fs) →
  segment_outputs p = [] ∧ complete p out st = (Completed rc, fs).
Proof.
  unfold finalize. destruct (segment_outputs p) as [|seg0 segs]; [done|].
  destruct (negb (truthy ff)); [done|].
  destruct (filter _ _); [|done]. by rewrite stitch_call_raises.
Qed.

(** *** The stitching block *)

(** The three attempts of the function body: it reports failure after a
    written concat list exactly when the attempts it makes all fail. *)
Lemma ffmpeg_concat_segments_fallback seg segs e :
  write_list_ok e = true →
  (ffmpeg_concat_segments (seg :: segs) true e).1 = false ↔
  attempt_ok e 1 = false ∧ attempt_ok e 2 = false ∧ attempt_ok e 3 = false.
Proof.
  intros Hw. unfold ffmpeg_concat_segments. rewrite Hw. simpl.
  destruct (attempt_ok e 1), (attempt_ok e 2), (attempt_ok e 3); simpl;
    (split; [intros H; by try discriminate H|intros (H1 & H2 & H3); by try discriminate]).
Qed.

(** With a segment file missing, or ffmpeg gone, the run returns 2 and
    deletes nothing. *)
Lemma finalize_missing_segment p out ff e st :
  segment_outputs p ≠ [] →
  truthy ff = false ∨ (∃ seg, seg ∈ segment_outputs p ∧ seg ∉ files st) →
  finalize p out ff e st = (Fatal, files st) ∧ exit_status Fatal = 2.
Proof.
  intros Hne Hcase. split; [|done]. unfold finalize.
  destruct (segment_outputs p) as [|seg0 segs] eqn:Hsegs; [done|].
  destruct (truthy ff); simpl; [|done].
  destruct Hcase as [?|(seg & Hin & Hmiss)]; [done|].
  destruct (filter (λ s, s ∉ files st) (seg0 :: segs)) as [|m ms] eqn:Hfil; [|done].
  exfalso. assert (seg ∈ filter (λ s, s ∉ files st) (seg0 :: segs)) as Hf
    by (by apply list_elem_of_filter).
  rewrite Hfil in Hf. by apply elem_of_nil in Hf.
Qed.

(** With every segment file present and ffmpeg found, the call of line 1066
    raises before ffmpeg is run; nothing is deleted. *)
Lemma finalize_stitch_raises p out ff e st :
  segment_outputs p ≠ [] → truthy ff = true →
  (∀ seg, seg ∈ segment_outputs p → seg ∈ files st) →
  finalize p out ff e st = (Raised TypeError, files st).
Proof.
  intros Hne Hff Hall. unfold finalize.
  destruct (segment_outputs p) as [|seg0 segs] eqn:Hsegs; [done|].
  rewrite Hff. simpl.
  destruct (filter (λ s, s ∉ files st) (seg0 :: segs)) as [|m ms] eqn:Hfil; [done|].
  exfalso. assert (m ∈ filter (λ s, s ∉ files st) (seg0 :: segs)) as Hm
    by (rewrite Hfil; apply elem_of_cons; by left).
  apply list_elem_of_filter in Hm as [Hm Hin]. by apply Hm, Hall.
Qed.

(** C1, at a segmented run whose three segment files exist when the jobs
    have exited.  Whatever the ffmpeg attempts would do, and so also when
    all three would fail, [run_orchestrator] does not return 2: the call of
    [ffmpeg_concat_segments] passes four positional arguments to a function
    whose parameters are keyword-only, and the run ends with [TypeError].
    The segment files are left in place. *)
Theorem run_segmented_stitch_raises (se : stitch_env) :
  let e := {| spawn_signal := λ _, false; spawn_pid := λ i, 500 + i;
              ticks := [segments_written]; late_signal := false;
              ffmpeg_at_stitch := Some "/usr/bin/ffmpeg"; stitch := se;
              files0 := ∅ |} in
  ∃ st,
    run_orchestrator (example_args "out/final.mov" 3)
      (example_host (Some "/usr/bin/ffmpeg")) false false e
    = Some (Raised TypeError, list_to_set (writes segments_written), st) ∧
    exit_status (Raised TypeError) ≠ 2.
Proof.
  intros e. eexists. split; [vm_compute; reflexivity|done].
Qed.

(** C5. When [run_orchestrator] returns through its last line, the exit
    code is 130 if the signal handler ran and no failure was recorded, 1 if
    a failure was recorded, and 0 otherwise.  The handler runs only on a
    signal; a failure is recorded only for a job seen with a non-zero exit
    status; and with no failure recorded every job that was started has
    exited with status 0. *)
Theorem exit_code_policy (a : run_args) (h : host) (kill_on_fail dry_run : bool)
    (e : run_env) (fs : gset string) (st : mon) (rc : Z) :
  run_orchestrator a h kill_on_fail dry_run e = Some (Completed rc, fs, st) →
  rc = (if interrupted st && bool_decide (failures st = []) then 130
        else if bool_decide (failures st ≠ []) then 1 else 0) ∧
  (interrupted st = true →
     (∃ j, spawn_signal e j = true) ∨ (∃ t, t ∈ ticks e ∧ signal t = true) ∨
     late_signal e = true) ∧
  (failures st ≠ [] →
     ∃ t (k : nat) rc', t ∈ ticks e ∧ poll t k = Some rc' ∧ rc' ≠ 0) ∧
  (failures st = [] → dry_run = false →
     ∃ p t, plan_run a h = Ok p ∧ t ∈ ticks e ∧
       ∀ (k : nat) pid, spawned p e !! k = Some pid → poll t k = Some 0).
Proof.
  unfold run_orchestrator. destruct (plan_run a h) as [p|ex] eqn:Hplan; [|done].
  destruct dry_run.
  { intros [= <- <- <-]. simpl. split_and!; done. }
  unfold spawned.
  destruct (spawn_loop p (spawn_signal e) (spawn_pid e) 0 (ranges p) (start_state p e) [])
    as [st1 children] eqn:Hspawn.
  pose proof Hspawn as Hchildren.
  apply spawn_loop_spec in Hspawn as (Hsf & Hsi & Hsinv).
  destruct (monitor kill_on_fail p children (ticks e) st1) as [st2|] eqn:Hmon; [|done].
  apply monitor_spec in Hmon as (Hmi & [more Hmf] & Hminv & Hmnil & Hmne).
  destruct (on_signal_spec p (late_signal e) st2) as (Hlf & Hli & Hlinv).
  destruct (finalize p (output a) (ffmpeg_at_stitch e) (stitch e)
              (on_signal p (late_signal e) st2)) as [f fs'] eqn:Hfin.
  intros [= -> -> <-].
  apply finalize_completed in Hfin as [_ Hfin].
  assert (Hinv : stop_inv (on_signal p (late_signal e) st2)).
  { apply Hlinv, Hminv, Hsinv. split; simpl; [done|]. done. }
  split_and!.
  - by apply (complete_rc p (output a) _ rc fs).
  - rewrite Hli. intros [?|Hint]%orb_true_iff; [by right; right|].
    destruct (Hmi Hint) as [Hint1|?]; [|by right; left].
    destruct (Hsi Hint1) as [?|?]; [done|by left].
  - rewrite Hlf. intros Hf. destruct (Hmne Hf) as [Hf1|?]; [|done].
    by rewrite Hsf in Hf1.
  - rewrite Hlf. intros Hf _. destruct (Hmnil Hf) as (t & ? & ?).
    exists p, t. split_and!; [done|done|]. by rewrite Hchildren.
Qed.

Definition outcome_files (r : option (finish * gset string * mon)) : gset string :=
  match r with Some (_, fs, _) => fs | None => ∅ end.

Definition outcome_state (r : option (finish * gset string * mon)) : mon :=
  match r with Some (_, _, st) => st | None => blank_state ∅ end.

Definition interrupted_run : option (finish * gset string * mon) :=
  run_orchestrator (example_args "out/name_[#####].png" 3) (example_host None)
    false false
    (example_env [ {| writes := []; signal := true; poll := λ _, None |};
                   quiet_tick [Some 0; Some 0; Some 0] ]).

(** A sequence render that is interrupted and whose jobs exit with status 0
    ends with 130. *)
Lemma exit_code_policy_witness :
  130 = (if interrupted (outcome_state interrupted_run)
            && bool_decide (failures (outcome_state interrupted_run) = [])
         then 130
         else if bool_decide (failures (outcome_state interrupted_run) ≠ []) then 1 else 0).
Proof.
  apply (exit_code_policy (example_args "out/name_[#####].png" 3) (example_host None)
           false false
           (example_env [ {| writes := []; signal := true; poll := λ _, None |};
                          quiet_tick [Some 0; Some 0; Some 0] ])
           (outcome_files interrupted_run) (outcome_state interrupted_run) 130).
  vm_compute. reflexivity.
Defined.

End Run.

(** ** PyInt: [int(s)] on an arbitrary text *)

Module PyInt.

Import Text.

(** The blanks that [int] skips at both ends of its argument. *)
Definition is_int_space (c : ascii) : bool :=
  in_range 9 13 c || (code c =? 32)%N || (code c =? 133)%N || (code c =? 160)%N.

Fixpoint lskip (s : string) : string :=
  match s with
  | String c s' => if is_int_space c then lskip s' else s
  | EmptyString => EmptyString
  end.

Fixpoint rskip (s : string) : string :=
  match s with
  | EmptyString => EmptyString
  | String c s' =>
      match rskip s' with
      | EmptyString => if is_int_space c then EmptyString else String c EmptyString
      | t => String c t
      end
  end.

(** Where the scan of the digits stands: nothing read yet, just after a
    digit, or just after an underscore. *)
Inductive scan := AtStart | AfterDigit | AfterUnderscore.

(** Digits with single underscores between them: the value and the number
    of digits, [None] when the text is not of that form. *)
Fixpoint scan_digits (st : scan) (acc : Z) (n : nat) (s : string) : option (Z * nat) :=
  match s with
  | EmptyString =>
      match st with
      | AfterDigit => Some (acc, n)
      | _ => None
      end
  | String c s' =>
      if is_decimal c then
        scan_digits AfterDigit (10 * acc + Z.of_N (code c - 48)) (S n) s'
      else if (code c =? 95)%N then
        match st with
        | AfterDigit => scan_digits AfterUnderscore acc n s'
        | _ => None
        end
      else None
  end.

(** [int(s)].  [max_str_digits] is [sys.get_int_max_str_digits()]: when it
    is not 0, a text with more digits is refused.  Every refusal is a
    [ValueError]. *)
Definition py_int_full (max_str_digits : nat) (s : string) : result Z :=
  let t := rskip (lskip s) in
  let '(negative, body) :=
    match t with
    | String c r =>
        if (code c =? 45)%N then (true, r)
        else if (code c =? 43)%N then (false, r)
        else (false, t)
    | EmptyString => (false, t)
    end in
  match scan_digits AtStart 0 0 body with
  | Some (v, n) =>
      if decide (max_str_digits ≠ 0%nat ∧ (max_str_digits < n)%nat) then Raise ValueError
      else Ok (if negative then - v else v)
  | None => Raise ValueError
  end.

End PyInt.

(** ** FrameSpec: stmpo/frame_spec.py *)

Module FrameSpec.

Import Text PyInt.

(** [s.split(sep)] for a one-character separator. *)
Fixpoint split_aux (sep : ascii) (cur : string) (s : string) : list string :=
  match s with
  | EmptyString => [cur]
  | String c s' =>
      if (code c =? code sep)%N then cur :: split_aux sep EmptyString s'
      else split_aux sep (cur +:+ String c EmptyString) s'
  end.

Definition split (sep : ascii) (s : string) : list string := split_aux sep EmptyString s.

(** [s.split(sep, 1)] when [sep] occurs in [s]: the text before the first
    occurrence and the text after it; [None] when [sep] does not occur. *)
Fixpoint split_first (sep : ascii) (s : string) : option (string * string) :=
  match s with
  | EmptyString => None
  | String c s' =>
      if (code c =? code sep)%N then Some (EmptyString, s')
      else
        match split_first sep s' with
        | Some (a, b) => Some (String c a, b)
        | None => None
        end
  end.

Record Chunk := {
  index : Z;
  start_frame : Z;
  end_frame : Z;
}.

(** What the interpreter that runs the code allows. *)
Record limits := {
  (** [sys.get_int_max_str_digits()], 0 for no limit *)
  max_str_digits : nat;
  (** [sys.maxsize], the largest length a container reports *)
  maxsize : Z;
  (** the longest list [frames] for which the interpreter finds the memory
      (for the list, for [set(frames)] and for the sorted copy) *)
  list_capacity : Z;
}.

(** CPython on a 64-bit machine with its default digit limit: a list holds
    at most [sys.maxsize / 8] pointers. *)
Definition cpython64 : limits :=
  {| max_str_digits := 4300; maxsize := 2 ^ 63 - 1; list_capacity := 2 ^ 60 - 1 |}.

Section with_limits.

Variable L : limits.

(** [frames.extend(range(start, start + n))]: the length of the range is
    asked for first and raises [OverflowError] beyond [sys.maxsize]; a list
    that would outgrow the memory raises [MemoryError]. *)
Definition extend_range (frames : list Z) (start n : Z) : result (list Z) :=
  if decide (maxsize L < n) then Raise OverflowError
  else if decide (list_capacity L < Z.of_nat (length frames) + Z.max 0 n) then Raise MemoryError
  else Ok (frames ++ seqZ start n).

(** [frames.append(v)]. *)
Definition append_frame (frames : list Z) (v : Z) : result (list Z) :=
  if decide (list_capacity L < Z.of_nat (length frames) + 1) then Raise MemoryError
  else Ok (frames ++ [v]).

(** One turn of the [for part in ...] loop: [frames] after the part, left as
    it is by a blank part. *)
Definition part_frames (part : string) (frames : list Z) : result (list Z) :=
  let part := strip part in
  match part with
  | EmptyString => Ok frames
  | _ =>
      match split_first "-" part with
      | Some (a, b) =>
          start <- py_int_full (max_str_digits L) a ;;
          end_ <- py_int_full (max_str_digits L) b ;;
          let '(start, end_) := if decide (end_ < start) then (end_, start) else (start, end_) in
          extend_range frames start (end_ + 1 - start)
      | None =>
          v <- py_int_full (max_str_digits L) part ;;
          append_frame frames v
      end
  end.

(** The [for part in ...] loop: the frames gathered, in order. *)
Fixpoint gather_frames (parts : list string) (frames : list Z) : result (list Z) :=
  match parts with
  | [] => Ok frames
  | part :: rest =>
      frames <- part_frames part frames ;;
      gather_frames rest frames
  end.

Definition parse_frames (frames_spec : string) : result (list Z) :=
  frames <- gather_frames (split "," frames_spec) [] ;;
  Ok (merge_sort Z.le (elements (list_to_set frames : gset Z))).

End with_limits.

(** The state of the loop of [build_chunks]. *)
Record chunking := {
  chunks : list Chunk;
  chunk_index : Z;
  chunk_start : Z;
  prev : Z;
  count : Z;
}.

Fixpoint chunk_loop (chunk_size : Z) (frames : list Z) (st : chunking) : chunking :=
  match frames with
  | [] => st
  | f :: rest =>
      chunk_loop chunk_size rest
        (if decide (f ≠ prev st + 1 ∨ count st >= chunk_size) then
           {| chunks := chunks st ++
                [{| index := chunk_index st; start_frame := chunk_start st;
                    end_frame := prev st |}];
              chunk_index := chunk_index st + 1;
              chunk_start := f;
              prev := f;
              count := 1 |}
         else
           {| chunks := chunks st;
              chunk_index := chunk_index st;
              chunk_start := chunk_start st;
              prev := f;
              count := count st + 1 |})
  end.

Definition build_chunks (frames : list Z) (chunk_size : Z) : list Chunk :=
  match frames with
  | [] => []
  | start :: rest =>
      let chunk_size := if decide (chunk_size <= 0) then Z.of_nat (length frames) else chunk_size in
      let st := chunk_loop chunk_size rest
                  {| chunks := []; chunk_index := 0; chunk_start := start;
                     prev := start; count := 1 |} in
      chunks st ++ [{| index := chunk_index st; start_frame := chunk_start st;
                       end_frame := prev st |}]
  end.

(** [next((c for c in chunks if c.index == index), None)]. *)
Definition find_chunk (cs : list Chunk) (i : Z) : option Chunk :=
  head (filter (λ c, index c = i) cs).

(** [chunk_size] and [index] are [None] or an integer. *)
Definition select_task_range (L : limits) (frames_spec : string)
    (chunk_size : option Z) (idx : option Z) : result (Z * Z) :=
  frames <- parse_frames L frames_spec ;;
  match frames with
  | [] => Raise ValueError
  | first :: _ =>
      match chunk_size, idx with
      | Some cs, Some i =>
          if decide (cs = 0) then Ok (first, default first (last frames))
          else
            match find_chunk (build_chunks frames cs) i with
            | Some c => Ok (start_frame c, end_frame c)
            | None => Raise ValueError
            end
      | _, _ => Ok (first, default first (last frames))
      end
  end.

Example parse_frames_example :
  parse_frames cpython64 "9-5, 3,120-122,3" = Ok [3; 5; 6; 7; 8; 9; 120; 121; 122].
Proof. vm_compute. reflexivity. Qed.

Example build_chunks_example :
  build_chunks [1; 2; 3; 4; 5; 9; 10] 2 =
  [ {| index := 0; start_frame := 1; end_frame := 2 |};
    {| index := 1; start_frame := 3; end_frame := 4 |};
    {| index := 2; start_frame := 5; end_frame := 5 |};
    {| index := 3; start_frame := 9; end_frame := 10 |} ].
Proof. vm_compute. reflexivity. Qed.

Example select_task_range_example :
  select_task_range cpython64 "1-300" (Some 50) (Some 2) = Ok (101, 150).
Proof. vm_compute. reflexivity. Qed.

(** *** [sorted(set(frames))] *)

Definition sorted_set (frames : list Z) : list Z :=
  merge_sort Z.le (elements (list_to_set frames : gset Z)).

Lemma le_sorted_NoDup_lt (l : list Z) :
  StronglySorted Z.le l → NoDup l → StronglySorted Z.lt l.
Proof.
  induction 1 as [|x l Hs IH Hall]; intros Hnd; [constructor|].
  apply NoDup_cons in Hnd as [Hx Hnd]. constructor; [by apply IH|].
  rewrite Forall_forall in Hall |- *. intros y Hy.
  destruct (decide (x = y)) as [->|]; [done|]. specialize (Hall y Hy). lia.
Qed.

Lemma lt_sorted_le_NoDup (l : list Z) :
  StronglySorted Z.lt l → StronglySorted Z.le l ∧ NoDup l.
Proof.
  induction 1 as [|x l Hs [IH1 IH2] Hall]; [split; constructor|].
  rewrite Forall_forall in Hall. split.
  - constructor; [done|]. apply Forall_forall. intros y Hy. specialize (Hall y Hy). lia.
  - apply NoDup_cons. split; [|done]. intros Hx. specialize (Hall x Hx). lia.
Qed.

Lemma sorted_set_spec frames :
  StronglySorted Z.lt (sorted_set frames) ∧ ∀ f, f ∈ sorted_set frames ↔ f ∈ frames.
Proof.
  unfold sorted_set. split.
  - apply le_sorted_NoDup_lt.
    + apply StronglySorted_merge_sort; apply _.
    + rewrite merge_sort_Permutation. apply NoDup_elements.
  - intros f. by rewrite merge_sort_Permutation, elem_of_elements, elem_of_list_to_set.
Qed.

(** A strictly increasing list is left as it is. *)
Lemma sorted_set_id frames : StronglySorted Z.lt frames → sorted_set frames = frames.
Proof.
  intros Hs. destruct (lt_sorted_le_NoDup frames Hs) as [Hle Hnd].
  apply (StronglySorted_unique Z.le); [|done|].
  - apply StronglySorted_merge_sort; apply _.
  - unfold sorted_set. by rewrite merge_sort_Permutation, elements_list_to_set.
Qed.

(** *** Errors *)

Lemma py_int_full_raises L s e : py_int_full L s = Raise e → e = ValueError.
Proof.
  unfold py_int_full. destruct (rskip (lskip s)) as [|c r]; simpl.
  - by intros [= <-].
  - destruct (code c =? 45)%N; [|destruct (code c =? 43)%N];
      (match goal with |- context [scan_digits ?a ?b ?c ?d] =>
         destruct (scan_digits a b c d) as [[v n]|] end;
       [case_decide; [by intros [= <-]|done]|by intros [= <-]]).
Qed.

Lemma extend_range_raises L frames start n e :
  extend_range L frames start n = Raise e → e = OverflowError ∨ e = MemoryError.
Proof. unfold extend_range. repeat case_decide; intros [= <-]; auto. Qed.

Lemma append_frame_raises L frames v e :
  append_frame L frames v = Raise e → e = MemoryError.
Proof. unfold append_frame. case_decide; by intros [= <-]. Qed.

Lemma part_frames_raises L part frames e :
  part_frames L part frames = Raise e →
  e = ValueError ∨ e = OverflowError ∨ e = MemoryError.
Proof.
  unfold part_frames. destruct (strip part) as [|c r]; [done|].
  destruct (split_first "-" (String c r)) as [[a b]|].
  - destruct (py_int_full (max_str_digits L) a) as [x|e1] eqn:Ha; simpl;
      [|intros [= <-]; left; by eapply py_int_full_raises].
    destruct (py_int_full (max_str_digits L) b) as [y|e2] eqn:Hb; simpl;
      [|intros [= <-]; left; by eapply py_int_full_raises].
    case_decide; intros Hx%extend_range_raises; tauto.
  - destruct (py_int_full (max_str_digits L) (String c r)) as [x|e1] eqn:Ha; simpl.
    + intros Hx%append_frame_raises. tauto.
    + intros [= <-]. left. by eapply py_int_full_raises.
Qed.

Lemma gather_frames_raises L parts : ∀ frames e,
  gather_frames L parts frames = Raise e →
  e = ValueError ∨ e = OverflowError ∨ e = MemoryError.
Proof.
  induction parts as [|part rest IH]; intros frames e; simpl; [done|].
  destruct (part_frames L part frames) as [more|e1] eqn:Hp; simpl; [apply IH|].
  intros [= <-]. by eapply part_frames_raises.
Qed.

(** The loop over [pre ++ post] is the loop over [pre] followed by the loop
    over [post]. *)
Lemma gather_frames_app L pre post : ∀ frames,
  gather_frames L (pre ++ post) frames =
  (frames <- gather_frames L pre frames ;; gather_frames L post frames).
Proof.
  induction pre as [|p pre IH]; intros frames; simpl; [done|].
  destruct (part_frames L p frames) as [more|e]; simpl; [apply IH|done].
Qed.

(** A part that starts with a minus sign is refused, whatever was gathered
    before it. *)
Lemma part_frames_minus L part rest frames :
  strip part = String "-" rest → part_frames L part frames = Raise ValueError.
Proof. intros Hstrip. unfold part_frames. rewrite Hstrip. reflexivity. Qed.

Lemma parse_frames_sorted L spec fs :
  parse_frames L spec = Ok fs → StronglySorted Z.lt fs.
Proof.
  unfold parse_frames.
  destruct (gather_frames L (split "," spec) []) as [raw|e]; simpl; [|done].
  intros [= <-]. apply sorted_set_spec.
Qed.

(** X1. When [parse_frames] returns, its result is strictly increasing and
    holds exactly the frames gathered from the parts; when it fails, the
    exception is [ValueError] (a part that [int] refuses), [OverflowError]
    (a range of more than [sys.maxsize] frames) or [MemoryError] (a list
    that outgrows the memory). *)
Theorem parse_frames_sorted_unique (L : limits) (spec : string) :
  match parse_frames L spec with
  | Ok fs =>
      StronglySorted Z.lt fs ∧
      ∃ raw, gather_frames L (split "," spec) [] = Ok raw ∧ ∀ f, f ∈ fs ↔ f ∈ raw
  | Raise e => e = ValueError ∨ e = OverflowError ∨ e = MemoryError
  end.
Proof.
  unfold parse_frames.
  destruct (gather_frames L (split "," spec) []) as [raw|e] eqn:Hg; simpl.
  - destruct (sorted_set_spec raw) as [Hs Hin]. split; [done|]. by exists raw.
  - by eapply gather_frames_raises.
Qed.

(** The three failures of [parse_frames] on a 64-bit CPython. *)
Example parse_frames_failures :
  parse_frames cpython64 "1-3,x" = Raise ValueError ∧
  parse_frames cpython64 "0-100000000000000000000" = Raise OverflowError ∧
  parse_frames cpython64 "0-2000000000000000000" = Raise MemoryError.
Proof. vm_compute. done. Qed.

(** X2. A part that starts with a minus sign, such as a negative frame
    number, keeps [parse_frames] from returning: the text before the first
    minus sign is empty and [int] refuses it.  The exception is that
    [ValueError] when the parts before it were gathered, and otherwise the
    exception of the first part that failed. *)
Theorem parse_frames_negative_start (L : limits) (spec part rest : string)
    (pre post : list string) :
  split "," spec = pre ++ part :: post → strip part = String "-" rest →
  match gather_frames L pre [] with
  | Ok _ => parse_frames L spec = Raise ValueError
  | Raise e => parse_frames L spec = Raise e
  end.
Proof.
  intros Hsplit Hstrip. unfold parse_frames. rewrite Hsplit, gather_frames_app.
  destruct (gather_frames L pre []) as [fs|e]; simpl; [|done].
  by erewrite part_frames_minus.
Qed.

Lemma parse_frames_negative_start_witness :
  parse_frames cpython64 "1-3, -5" = Raise ValueError ∧
  parse_frames cpython64 "0-100000000000000000000,-5" = Raise OverflowError.
Proof.
  split.
  - apply (parse_frames_negative_start cpython64 "1-3, -5" " -5" "5" ["1-3"] []);
      vm_compute; reflexivity.
  - apply (parse_frames_negative_start cpython64 "0-100000000000000000000,-5" "-5" "5"
             ["0-100000000000000000000"] []); vm_compute; reflexivity.
Defined.

(** *** Chunks *)

(** The frames of a chunk. *)
Definition expand (c : Chunk) : list Z :=
  seqZ (start_frame c) (end_frame c + 1 - start_frame c).

(** What the loop of [build_chunks] keeps true, [seen] being the frames read
    so far: the closed chunks and the open run spell [seen], the open run
    ends at [prev] and has between 1 and [size] frames, and the closed
    chunks are numbered from 0. *)
Definition chunk_inv (size : Z) (st : chunking) (seen : list Z) : Prop :=
  concat (expand <$> chunks st) ++ seqZ (chunk_start st) (count st) = seen ∧
  prev st = chunk_start st + count st - 1 ∧
  1 <= count st <= size ∧
  index <$> chunks st = seqZ 0 (Z.of_nat (length (chunks st))) ∧
  chunk_index st = Z.of_nat (length (chunks st)) ∧
  Forall (λ c, start_frame c <= end_frame c ∧ end_frame c - start_frame c + 1 <= size)
         (chunks st).

Lemma chunk_loop_inv size frames : ∀ st seen,
  chunk_inv size st seen → chunk_inv size (chunk_loop size frames st) (seen ++ frames).
Proof.
  induction frames as [|f rest IH]; intros st seen Hinv; simpl.
  - by rewrite app_nil_r.
  - replace (seen ++ f :: rest) with ((seen ++ [f]) ++ rest) by (by rewrite <- app_assoc).
    apply IH. destruct Hinv as (Hseen & Hprev & Hcount & Hidx & Hci & Hall).
    case_decide as Hcut; unfold chunk_inv; simpl.
    + rewrite fmap_app, concat_app, length_app. simpl.
      refine (conj _ (conj _ (conj _ (conj _ (conj _ _))))); [| lia | lia | | lia |].
      * rewrite app_nil_r, <- Hseen, <- !app_assoc. f_equal.
        unfold expand; simpl. f_equal. f_equal. lia.
      * rewrite fmap_app, Hidx. simpl.
        replace (Z.of_nat (length (chunks st) + 1)) with (Z.of_nat (S (length (chunks st)))) by lia.
        rewrite seqZ_S. f_equal. f_equal. lia.
      * apply Forall_app. split; [done|]. apply Forall_singleton. simpl. lia.
    + assert (f = prev st + 1 ∧ count st < size) as [Hf Hlt].
      { destruct (decide (f = prev st + 1)); destruct (decide (count st < size));
          try done; exfalso; apply Hcut; lia. }
      refine (conj _ (conj _ (conj _ (conj _ (conj _ _))))); [| lia | lia | done | done | done].
      rewrite <- Hseen, <- app_assoc. f_equal.
      rewrite seqZ_app by lia. f_equal.
      rewrite seqZ_cons, seqZ_nil by lia. f_equal. lia.
Qed.

Lemma build_chunks_facts (frames : list Z) (chunk_size : Z) :
  let cs := build_chunks frames chunk_size in
  let size := if decide (chunk_size <= 0) then Z.of_nat (length frames) else chunk_size in
  concat (expand <$> cs) = frames ∧
  index <$> cs = seqZ 0 (Z.of_nat (length cs)) ∧
  Forall (λ c, start_frame c <= end_frame c ∧ end_frame c - start_frame c + 1 <= size) cs.
Proof.
  intros cs size. subst cs. unfold build_chunks.
  destruct frames as [|start rest]; [by split_and!|].
  fold size.
  assert (Hsize : 1 <= size).
  { subst size. case_decide; simpl length; lia. }
  set (st0 := {| chunks := []; chunk_index := 0; chunk_start := start;
                 prev := start; count := 1 |}).
  assert (H0 : chunk_inv size st0 [start]).
  { unfold chunk_inv, st0; simpl.
    refine (conj _ (conj _ (conj _ (conj _ (conj _ _))))); try done; lia. }
  apply (chunk_loop_inv size rest) in H0.
  destruct H0 as (Hseen & Hprev & Hcount & Hidx & Hci & Hall).
  set (st := chunk_loop size rest st0) in *.
  refine (conj _ (conj _ _)).
  - rewrite fmap_app, concat_app. simpl. rewrite app_nil_r.
    change (start :: rest) with ([start] ++ rest). rewrite <- Hseen. f_equal.
    unfold expand. simpl. f_equal. lia.
  - rewrite fmap_app, length_app, Hidx. simpl.
    replace (Z.of_nat (length (chunks st) + 1)) with (Z.of_nat (S (length (chunks st)))) by lia.
    rewrite seqZ_S. f_equal. f_equal. lia.
  - apply Forall_app. split; [done|]. apply Forall_singleton. simpl. lia.
Qed.

(** X3. Whatever the frame list and the chunk size, the chunks of
    [build_chunks] spell the frame list when each is expanded in order, they
    are numbered 0, 1, 2, ..., each has [start_frame <= end_frame] and at
    most [chunk_size] frames (the length of the list when [chunk_size <= 0]),
    and there is no chunk exactly when there is no frame. *)
Theorem build_chunks_partition (frames : list Z) (chunk_size : Z) :
  let cs := build_chunks frames chunk_size in
  let size := if decide (chunk_size <= 0) then Z.of_nat (length frames) else chunk_size in
  concat (expand <$> cs) = frames ∧
  index <$> cs = seqZ 0 (Z.of_nat (length cs)) ∧
  Forall (λ c, start_frame c <= end_frame c ∧ end_frame c - start_frame c + 1 <= size) cs ∧
  (cs = [] ↔ frames = []).
Proof.
  intros cs size.
  destruct (build_chunks_facts frames chunk_size) as (Hcat & Hidx & Hall).
  fold cs in Hcat, Hidx, Hall. fold size in Hall.
  split_and!; [done|done|done|]. split.
  - intros Hnil. rewrite Hnil in Hcat. by rewrite <- Hcat.
  - intros ->. done.
Qed.

(** Chunks numbered from [o] are found by position. *)
Lemma find_chunk_from (cs : list Chunk) : ∀ (o i : Z),
  (∀ (k : nat) c, cs !! k = Some c → index c = o + Z.of_nat k) →
  find_chunk cs i = if decide (o <= i) then cs !! Z.to_nat (i - o) else None.
Proof.
  unfold find_chunk. induction cs as [|c cs IH]; intros o i Hat; simpl.
  - by case_decide.
  - rewrite filter_cons. pose proof (Hat 0%nat c eq_refl) as Hc. simpl in Hc.
    destruct (decide (index c = i)) as [Heq|Hne]; simpl.
    + rewrite decide_True by lia. by replace (i - o) with 0 by lia.
    + rewrite (IH (o + 1) i).
      * destruct (decide (o + 1 <= i)), (decide (o <= i)); try lia; [|done].
        replace (Z.to_nat (i - o)) with (S (Z.to_nat (i - (o + 1)))) by lia. done.
      * intros k c' Hk. rewrite (Hat (S k) c' Hk). lia.
Qed.

Lemma find_chunk_lookup (cs : list Chunk) (i : Z) :
  index <$> cs = seqZ 0 (Z.of_nat (length cs)) →
  find_chunk cs i = if decide (0 <= i) then cs !! Z.to_nat i else None.
Proof.
  intros Hidx. rewrite (find_chunk_from cs 0 i).
  - by rewrite Z.sub_0_r.
  - intros k c Hk. assert ((index <$> cs) !! k = Some (index c)) as Hl
      by (by rewrite list_lookup_fmap, Hk).
    rewrite Hidx in Hl. apply lookup_seqZ in Hl. lia.
Qed.

Lemma sorted_first_last (first : Z) (rest : list Z) :
  StronglySorted Z.lt (first :: rest) →
  let l := default first (last (first :: rest)) in
  l ∈ first :: rest ∧ first <= l ∧ ∀ f, f ∈ first :: rest → first <= f <= l.
Proof.
  intros Hs l.
  assert (Hl : l ∈ first :: rest).
  { subst l. destruct (last (first :: rest)) as [x|] eqn:Hlast; simpl.
    - apply last_Some in Hlast as [l' ->]. apply elem_of_app. right. by apply list_elem_of_singleton.
    - apply elem_of_cons. by left. }
  assert (Hmin : ∀ f, f ∈ first :: rest → first <= f).
  { intros f [->|Hf]%elem_of_cons; [lia|].
    apply StronglySorted_inv in Hs as [_ Hall]. rewrite Forall_forall in Hall.
    specialize (Hall f Hf). lia. }
  assert (Hmax : ∀ f, f ∈ first :: rest → f <= l).
  { subst l. destruct (last (first :: rest)) as [x|] eqn:Hlast; simpl.
    - apply last_Some in Hlast as [l' Heq]. rewrite Heq in Hs |- *.
      intros f [Hf| ->%list_elem_of_singleton]%elem_of_app; [|lia].
      apply StronglySorted_app in Hs as (Hlt & _ & _).
      specialize (Hlt f x Hf). rewrite list_elem_of_singleton in Hlt.
      specialize (Hlt eq_refl). lia.
    - by apply last_None in Hlast. }
  split_and!; [done|by apply Hmin|]. intros f Hf. split; [by apply Hmin|by apply Hmax].
Qed.

(** X4. A range returned by [select_task_range] starts and ends on frames
    of the spec and is not empty.  With a chunk size other than 0 and an
    index, every frame number inside it is a frame of the spec; otherwise it
    spans all frames of the spec. *)
Theorem select_task_range_within (L : limits) (spec : string)
    (chunk_size idx : option Z) (s e : Z) :
  select_task_range L spec chunk_size idx = Ok (s, e) →
  ∃ frames, parse_frames L spec = Ok frames ∧
    s ∈ frames ∧ e ∈ frames ∧ s <= e ∧
    ((∃ c i, chunk_size = Some c ∧ c ≠ 0 ∧ idx = Some i) →
       ∀ f, s <= f <= e → f ∈ frames) ∧
    (¬ (∃ c i, chunk_size = Some c ∧ c ≠ 0 ∧ idx = Some i) →
       ∀ f, f ∈ frames → s <= f <= e).
Proof.
  unfold select_task_range. intros H.
  pose proof (parse_frames_sorted L spec) as Hsorted.
  destruct (parse_frames L spec) as [frames|ex]; [|done]. simpl in H.
  specialize (Hsorted frames eq_refl). rename Hsorted into Hs.
  exists frames. split; [done|].
  destruct frames as [|first rest]; [done|].
  destruct (sorted_first_last first rest Hs) as (Hl & Hle & Hspan).
  assert (Hwhole : (s, e) = (first, default first (last (first :: rest))) →
    s ∈ first :: rest ∧ e ∈ first :: rest ∧ s <= e ∧
    ((∃ c i, chunk_size = Some c ∧ c ≠ 0 ∧ idx = Some i) →
       ∀ f, s <= f <= e → f ∈ first :: rest) ∧
    (¬ (∃ c i, chunk_size = Some c ∧ c ≠ 0 ∧ idx = Some i) →
       ∀ f, f ∈ first :: rest → s <= f <= e) →
    s ∈ first :: rest ∧ e ∈ first :: rest ∧ s <= e ∧
    ((∃ c i, chunk_size = Some c ∧ c ≠ 0 ∧ idx = Some i) →
       ∀ f, s <= f <= e → f ∈ first :: rest) ∧
    (¬ (∃ c i, chunk_size = Some c ∧ c ≠ 0 ∧ idx = Some i) →
       ∀ f, f ∈ first :: rest → s <= f <= e)) by tauto.
  clear Hwhole.
  destruct chunk_size as [c|], idx as [i|];
    try (injection H as <- <-;
         split_and!; [apply elem_of_cons; by left|done|done| |by intros _];
         intros (? & ? & ? & ? & ?); done).
  destruct (decide (c = 0)) as [->|Hc].
  { injection H as <- <-.
    split_and!; [apply elem_of_cons; by left|done|done| |by intros _].
    intros (? & ? & [= <-] & ? & _). done. }
  destruct (find_chunk (build_chunks (first :: rest) c) i) as [ch|] eqn:Hfind; [|done].
  injection H as <- <-.
  destruct (build_chunks_facts (first :: rest) c) as (Hcat & Hidx & Hall).
  rewrite (find_chunk_lookup _ _ Hidx) in Hfind.
  destruct (decide (0 <= i)); [|done]. apply list_elem_of_lookup_2 in Hfind.
  rewrite Forall_forall in Hall. destruct (Hall ch Hfind) as [Hse _].
  assert (Hsub : ∀ f, start_frame ch <= f <= end_frame ch → f ∈ first :: rest).
  { intros f Hf. rewrite <- Hcat. apply AffinityPlanner.elem_of_concat.
    exists (expand ch). split; [by apply list_elem_of_fmap_2|].
    unfold expand. apply elem_of_seqZ. lia. }
  split_and!; [apply Hsub; lia|apply Hsub; lia|done|by intros _|].
  intros Hno. exfalso. apply Hno. by exists c, i.
Qed.

Lemma select_task_range_within_witness :
  ∃ frames, parse_frames cpython64 "1-30,40-45" = Ok frames ∧ 21 ∈ frames ∧ 30 ∈ frames.
Proof.
  destruct (select_task_range_within cpython64 "1-30,40-45" (Some 10) (Some 2) 21 30)
    as (frames & Hp & Hs & He & _); [vm_compute; reflexivity|].
  by exists frames.
Defined.

(** X5. With a chunk size other than 0 and an index, [select_task_range]
    raises [ValueError] exactly when the spec holds no frame or the index is
    not the number of a chunk. *)
Theorem select_task_range_index_error (L : limits) (spec : string) (c i : Z)
    (frames : list Z) :
  parse_frames L spec = Ok frames → c ≠ 0 →
  (select_task_range L spec (Some c) (Some i) = Raise ValueError ↔
   frames = [] ∨ i < 0 ∨ Z.of_nat (length (build_chunks frames c)) <= i).
Proof.
  intros Hp Hc. unfold select_task_range. rewrite Hp. simpl.
  destruct frames as [|first rest]; [by split; [left|]|].
  rewrite decide_False by done.
  destruct (build_chunks_facts (first :: rest) c) as (_ & Hidx & _).
  rewrite (find_chunk_lookup _ _ Hidx).
  destruct (decide (0 <= i)) as [Hi|Hi].
  - destruct (build_chunks (first :: rest) c !! Z.to_nat i) as [ch|] eqn:Hl.
    + apply lookup_lt_Some in Hl. split; [done|]. intros [?|[?|?]]; [done|lia|lia].
    + apply lookup_ge_None in Hl. split; [|done]. intros _. right. right. lia.
  - split; [|done]. intros _. right. left. lia.
Qed.

Lemma select_task_range_index_error_witness :
  select_task_range cpython64 "1-30" (Some 10) (Some 3) = Raise ValueError.
Proof.
  apply (select_task_range_index_error cpython64 "1-30" 10 3 (seqZ 1 30));
    [vm_compute; reflexivity|lia|].
  right. right. vm_compute. discriminate.
Defined.

(** *** Chunks of an unbroken range *)

(** Chunk [k] of the range that starts at [a], for chunks of [c] frames. *)
Definition full_chunk (a c k : Z) : Chunk :=
  {| index := k; start_frame := a + k * c; end_frame := a + (k + 1) * c - 1 |}.

Lemma chunk_loop_contiguous (a c : Z) (m : nat) : ∀ st (q cnt : nat),
  1 <= c →
  chunks st = full_chunk a c <$> seqZ 0 (Z.of_nat q) →
  chunk_index st = Z.of_nat q → chunk_start st = a + Z.of_nat q * c →
  count st = Z.of_nat cnt → (1 <= cnt)%nat → Z.of_nat cnt <= c →
  prev st = chunk_start st + count st - 1 →
  ∃ (q' cnt' : nat),
    let st' := chunk_loop c (seqZ (prev st + 1) (Z.of_nat m)) st in
    chunks st' = full_chunk a c <$> seqZ 0 (Z.of_nat q') ∧
    chunk_index st' = Z.of_nat q' ∧ chunk_start st' = a + Z.of_nat q' * c ∧
    (1 <= cnt')%nat ∧ Z.of_nat cnt' <= c ∧
    prev st' = a + Z.of_nat q' * c + Z.of_nat cnt' - 1 ∧
    prev st' = prev st + Z.of_nat m.
Proof.
  induction m as [|m IH]; intros st q cnt Hc Hch Hci Hcs Hcount Hcnt1 Hcntc Hprev.
  - exists q, cnt. simpl. split_and!; try done; lia.
  - rewrite seqZ_cons by lia. simpl.
    replace (Z.pred (Z.of_nat (S m))) with (Z.of_nat m) by lia.
    destruct (decide (prev st + 1 ≠ prev st + 1 ∨ count st >= c)) as [Hcut|Hcut].
    + assert (Z.of_nat cnt = c) as Hfull by (destruct Hcut; [done|lia]).
      edestruct (IH {| chunks := chunks st ++
                         [{| index := chunk_index st; start_frame := chunk_start st;
                             end_frame := prev st |}];
                       chunk_index := chunk_index st + 1;
                       chunk_start := prev st + 1;
                       prev := prev st + 1;
                       count := 1 |} (S q) 1%nat)
        as (q' & cnt' & H1 & H2 & H3 & H4 & H5 & H6 & H7); simpl; try done; try lia.
      * rewrite Hch. replace (Z.of_nat (S q)) with (Z.of_nat q + 1) by lia.
        rewrite seqZ_app, fmap_app by lia. f_equal.
        rewrite seqZ_cons, seqZ_nil by lia. simpl. unfold full_chunk. f_equal.
        f_equal; lia.
      * simpl in *. exists q', cnt'.
        replace (Z.succ (prev st + 1)) with (prev st + 1 + 1) in * by lia.
        replace (Z.succ (prev st)) with (prev st + 1) in * by lia.
        split_and!; try done; lia.
    + edestruct (IH {| chunks := chunks st;
                       chunk_index := chunk_index st;
                       chunk_start := chunk_start st;
                       prev := prev st + 1;
                       count := count st + 1 |} q (S cnt))
        as (q' & cnt' & H1 & H2 & H3 & H4 & H5 & H6 & H7); simpl; try done; try lia.
      simpl in *. exists q', cnt'.
        replace (Z.succ (prev st + 1)) with (prev st + 1 + 1) in * by lia.
        replace (Z.succ (prev st)) with (prev st + 1) in * by lia.
        split_and!; try done; lia.
Qed.

(** Chunk [i] of an unbroken range, found by its index. *)
Lemma find_chunk_contiguous (a n c i : Z) :
  1 <= n → 1 <= c →
  find_chunk (build_chunks (seqZ a n) c) i =
  if decide (0 <= i ∧ i * c < n) then
    Some {| index := i; start_frame := a + i * c;
            end_frame := Z.min (a + n - 1) (a + (i + 1) * c - 1) |}
  else None.
Proof.
  intros Hn Hc.
  destruct (build_chunks_facts (seqZ a n) c) as (_ & Hidx & _).
  rewrite (find_chunk_lookup _ _ Hidx). clear Hidx.
  rewrite seqZ_cons by lia. unfold build_chunks.
  rewrite (decide_False (P := c <= 0)) by lia.
  set (st0 := {| chunks := []; chunk_index := 0; chunk_start := a; prev := a; count := 1 |}).
  destruct (chunk_loop_contiguous a c (Z.to_nat (n - 1)) st0 0%nat 1%nat)
    as (q & cnt & H1 & H2 & H3 & H4 & H5 & H6 & H7); simpl; try done; try lia.
  simpl in H1, H2, H3, H6, H7.
  replace (Z.of_nat (Z.to_nat (n - 1))) with (Z.pred n) in * by lia.
  replace (a + 1) with (Z.succ a) in * by lia.
  set (st := chunk_loop c (seqZ (Z.succ a) (Z.pred n)) st0) in *.
  rewrite H1, H2, H3.
  assert (Hend : prev st = a + n - 1) by lia.
  assert (Hq : Z.of_nat q * c + Z.of_nat cnt = n) by lia.
  destruct (decide (0 <= i)) as [Hi|Hi]; [|by rewrite decide_False by lia].
  destruct (decide (i < Z.of_nat q)) as [Hlt|Hge].
  - rewrite lookup_app_l by (rewrite length_fmap, length_seqZ; lia).
    rewrite list_lookup_fmap, lookup_seqZ_lt by lia. simpl.
    assert ((i + 1) * c <= Z.of_nat q * c) by nia.
    rewrite decide_True by (split; [done|nia]).
    unfold full_chunk. rewrite Z2Nat.id by lia. f_equal. f_equal; lia.
  - destruct (decide (i = Z.of_nat q)) as [->|Hne].
    + rewrite lookup_app_r by (rewrite length_fmap, length_seqZ; lia).
      rewrite length_fmap, length_seqZ.
      replace (Z.to_nat (Z.of_nat q) - Z.to_nat (Z.of_nat q))%nat with 0%nat by lia. simpl.
      rewrite decide_True by (split; [done|nia]).
      f_equal. f_equal; lia.
    + rewrite lookup_ge_None_2
        by (rewrite length_app, length_fmap, length_seqZ; simpl; lia).
      rewrite decide_False; [done|]. intros [_ Hic].
      assert ((Z.of_nat q + 1) * c <= i * c) by nia. nia.
Qed.

(** X6. For an unbroken range of [n >= 1] frames from [a] and a chunk size
    [c >= 1], there are [ceil (n / c)] chunks; chunk [i] exists exactly when
    [0 <= i] and [i * c < n]; it starts at [a + i * c] and ends [c] frames
    later or at the last frame, whichever comes first. *)
Theorem build_chunks_contiguous (a n c i : Z) :
  1 <= n → 1 <= c →
  Z.of_nat (length (build_chunks (seqZ a n) c)) = (n + c - 1) `div` c ∧
  find_chunk (build_chunks (seqZ a n) c) i =
  if decide (0 <= i ∧ i * c < n) then
    Some {| index := i; start_frame := a + i * c;
            end_frame := Z.min (a + n - 1) (a + (i + 1) * c - 1) |}
  else None.
Proof.
  intros Hn Hc. split; [|by apply find_chunk_contiguous].
  destruct (build_chunks_facts (seqZ a n) c) as (_ & Hidx & _).
  set (cs := build_chunks (seqZ a n) c) in *.
  assert (Hnext : n <= Z.of_nat (length cs) * c).
  { pose proof (find_chunk_contiguous a n c (Z.of_nat (length cs)) Hn Hc) as H.
    fold cs in H. rewrite (find_chunk_lookup _ _ Hidx), decide_True in H by lia.
    rewrite lookup_ge_None_2 in H by lia. case_decide; [done|lia]. }
  assert (Hlast : (Z.of_nat (length cs) - 1) * c < n).
  { destruct (decide (length cs = 0)%nat) as [Hz|Hz]; [rewrite Hz in *; lia|].
    pose proof (find_chunk_contiguous a n c (Z.of_nat (length cs) - 1) Hn Hc) as H.
    fold cs in H. rewrite (find_chunk_lookup _ _ Hidx), decide_True in H by lia.
    destruct (cs !! Z.to_nat (Z.of_nat (length cs) - 1)) as [ch|] eqn:Hl.
    - case_decide; [lia|done].
    - apply lookup_ge_None in Hl. lia. }
  apply (Z.div_unique _ _ _ (n + c - 1 - Z.of_nat (length cs) * c)); lia.
Qed.

Lemma build_chunks_contiguous_witness :
  find_chunk (build_chunks (seqZ 1 300) 50) 2 =
  Some {| index := 2; start_frame := 101; end_frame := 150 |}.
Proof. exact (proj2 (build_chunks_contiguous 1 300 50 2 ltac:(lia) ltac:(lia))). Defined.

(** *** Reading back a written range *)

(** The characters of a written range: digits and the minus sign. *)
Definition range_char (c : ascii) : bool := is_decimal c || (code c =? 45)%N.

Ltac char_facts :=
  unfold range_char, is_decimal, is_space, is_int_space, in_range in *;
  repeat match goal with
         | |- context [(?x <=? ?y)%N] => destruct (N.leb_spec x y)
         | |- context [(?x =? ?y)%N] => destruct (N.eqb_spec x y)
         | H : context [(?x <=? ?y)%N] |- _ => destruct (N.leb_spec x y)
         | H : context [(?x =? ?y)%N] |- _ => destruct (N.eqb_spec x y)
         end; simpl in *; try done; try lia.

Lemma range_char_facts c :
  range_char c = true →
  is_space c = false ∧ is_int_space c = false ∧ (code c =? 44)%N = false.
Proof. intros H. split_and!; char_facts. Qed.

Lemma decimal_facts c :
  is_decimal c = true →
  range_char c = true ∧ (code c =? 45)%N = false ∧ (code c =? 43)%N = false ∧
  (code c =? 95)%N = false.
Proof. intros H. split_and!; char_facts. Qed.

Lemma forallb_str_impl (p q : ascii → bool) s :
  (∀ c, p c = true → q c = true) → forallb_str p s = true → forallb_str q s = true.
Proof.
  intros Hpq. induction s as [|c s IH]; simpl; [done|].
  intros [Hc Hs]%andb_prop. by rewrite (Hpq c Hc), IH.
Qed.

Lemma append_empty_r (s : string) : s +:+ EmptyString = s.
Proof. induction s as [|c s IH]; [done|]. exact (f_equal (String c) IH). Qed.

Lemma append_snoc (s t : string) c : (s +:+ String c EmptyString) +:+ t = s +:+ String c t.
Proof. induction s as [|x s IH]; [done|]. exact (f_equal (String x) IH). Qed.

Lemma split_aux_cons sep cur c s :
  split_aux sep cur (String c s) =
  if (code c =? code sep)%N then cur :: split_aux sep EmptyString s
  else split_aux sep (cur +:+ String c EmptyString) s.
Proof. reflexivity. Qed.

Lemma split_first_cons sep c s :
  split_first sep (String c s) =
  if (code c =? code sep)%N then Some (EmptyString, s)
  else match split_first sep s with
       | Some (a, b) => Some (String c a, b)
       | None => None
       end.
Proof. reflexivity. Qed.

Lemma split_aux_plain s : ∀ cur,
  forallb_str range_char s = true → split_aux "," cur s = [cur +:+ s].
Proof.
  induction s as [|c s IH]; intros cur Hs.
  - simpl. by rewrite append_empty_r.
  - simpl in Hs. apply andb_prop in Hs as [Hc Hs].
    destruct (range_char_facts c Hc) as (_ & _ & Hcomma).
    rewrite split_aux_cons. change (code ",") with 44%N.
    by rewrite Hcomma, IH, append_snoc.
Qed.

Lemma split_plain s : forallb_str range_char s = true → split "," s = [s].
Proof. intros Hs. unfold split. by rewrite split_aux_plain. Qed.

Lemma strip_plain s : forallb_str range_char s = true → strip s = s.
Proof.
  intros Hs. unfold strip.
  assert (lstrip s = s) as ->.
  { destruct s as [|c s]; [done|]. simpl in *. apply andb_prop in Hs as [Hc _].
    by destruct (range_char_facts c Hc) as (-> & _ & _). }
  induction s as [|c s IH]; simpl; [done|].
  simpl in Hs. apply andb_prop in Hs as [Hc Hs]. rewrite IH by done.
  destruct s; [|done]. by destruct (range_char_facts c Hc) as (-> & _ & _).
Qed.

Lemma skip_plain s : forallb_str range_char s = true → rskip (lskip s) = s.
Proof.
  intros Hs.
  assert (lskip s = s) as ->.
  { destruct s as [|c s]; [done|]. simpl in *. apply andb_prop in Hs as [Hc _].
    by destruct (range_char_facts c Hc) as (_ & -> & _). }
  induction s as [|c s IH]; simpl; [done|].
  simpl in Hs. apply andb_prop in Hs as [Hc Hs]. rewrite IH by done.
  destruct s; [|done]. by destruct (range_char_facts c Hc) as (_ & -> & _).
Qed.

Lemma split_first_digits d r :
  forallb_str is_decimal d = true →
  split_first "-" (d +:+ String "-" r) = Some (d, r).
Proof.
  induction d as [|c d IH]; [done|]. intros Hcd. simpl in Hcd.
  apply andb_prop in Hcd as [Hc Hd]. destruct (decimal_facts c Hc) as (_ & Hm & _).
  change (String c d +:+ String "-" r) with (String c (d +:+ String "-" r)).
  rewrite split_first_cons. change (code "-") with 45%N. by rewrite Hm, IH.
Qed.

Lemma split_first_none d :
  forallb_str is_decimal d = true → split_first "-" d = None.
Proof.
  induction d as [|c d IH]; [done|]. intros Hcd. simpl in Hcd.
  apply andb_prop in Hcd as [Hc Hd]. destruct (decimal_facts c Hc) as (_ & Hm & _).
  rewrite split_first_cons. change (code "-") with 45%N. by rewrite Hm, IH.
Qed.

Lemma scan_digits_decimal d : ∀ st acc n,
  forallb_str is_decimal d = true → d ≠ EmptyString ∨ st = AfterDigit →
  scan_digits st acc n d = Some (digits_value acc d, (n + String.length d)%nat).
Proof.
  induction d as [|c d IH]; intros st acc n Hd Hne; simpl.
  - destruct Hne as [?| ->]; [done|]. by rewrite Nat.add_0_r.
  - simpl in Hd. apply andb_prop in Hd as [Hc Hd]. rewrite Hc.
    rewrite IH by (done || by right). do 2 f_equal. lia.
Qed.

(** The digit limit lets a text of [n] digits through. *)
Definition fits (L n : nat) : Prop := L = 0%nat ∨ (n <= L)%nat.

Lemma dec_aux_nonempty fuel : ∀ n acc,
  acc ≠ EmptyString ∨ fuel ≠ 0%nat → Format.dec_aux fuel n acc ≠ EmptyString.
Proof.
  induction fuel as [|fuel IH]; intros n acc Hne; simpl.
  - by destruct Hne.
  - case_decide; [done|]. apply IH. by left.
Qed.

Lemma py_int_full_dec L n :
  0 <= n → fits L (String.length (Format.dec n)) → py_int_full L (Format.dec n) = Ok n.
Proof.
  intros Hn Hfit.
  assert (Hd : forallb_str is_decimal (Format.dec n) = true)
    by (by apply Format.dec_aux_decimal).
  assert (Hne : Format.dec n ≠ EmptyString) by (apply dec_aux_nonempty; by right).
  unfold py_int_full.
  rewrite skip_plain by (eapply forallb_str_impl; [|exact Hd]; intros c Hc;
                         by destruct (decimal_facts c Hc)).
  destruct (Format.dec n) as [|c r] eqn:Hdec; [done|].
  pose proof Hd as Hd'. simpl in Hd'. apply andb_prop in Hd' as [Hc _].
  destruct (decimal_facts c Hc) as (_ & -> & -> & _).
  rewrite scan_digits_decimal by (done || by left).
  rewrite <- Hdec, Format.dec_value by done.
  rewrite decide_False; [done|]. intros [? Hlt]. rewrite Hdec in Hlt.
  destruct Hfit; lia.
Qed.

Lemma py_int_full_neg L n :
  0 <= n → fits L (String.length (Format.dec n)) →
  py_int_full L (String "-" (Format.dec n)) = Ok (- n).
Proof.
  intros Hn Hfit.
  assert (Hd : forallb_str is_decimal (Format.dec n) = true)
    by (by apply Format.dec_aux_decimal).
  assert (Hne : Format.dec n ≠ EmptyString) by (apply dec_aux_nonempty; by right).
  unfold py_int_full.
  rewrite skip_plain.
  - simpl. rewrite scan_digits_decimal by (done || by left).
    rewrite Format.dec_value by done.
    rewrite decide_False; [done|]. intros [? Hlt]. destruct Hfit; lia.
  - simpl. eapply forallb_str_impl; [|exact Hd]. intros c Hc.
    by destruct (decimal_facts c Hc).
Qed.

Lemma py_int_full_py_str L z :
  fits L (String.length (Format.dec (Z.abs z))) →
  py_int_full L (Format.py_str z) = Ok z.
Proof.
  intros Hfit. unfold Format.py_str. case_decide.
  - replace (Z.abs z) with (- z) in Hfit by lia.
    rewrite py_int_full_neg by (done || lia). f_equal. lia.
  - replace (Z.abs z) with z in Hfit by lia. by apply py_int_full_dec; [lia|].
Qed.

Lemma seqZ_sorted m n : StronglySorted Z.lt (seqZ m n).
Proof.
  destruct (decide (0 <= n)) as [Hn|Hn]; [|rewrite seqZ_nil by lia; constructor].
  rewrite <- (Z2Nat.id n) by done. generalize (Z.to_nat n) as k. clear. intros k. revert m.
  induction k as [|k IH]; intros m; [constructor|].
  rewrite seqZ_cons by lia. constructor.
  - replace (Z.pred (Z.of_nat (S k))) with (Z.of_nat k) by lia. apply IH.
  - apply Forall_forall. intros x Hx%elem_of_seqZ. lia.
Qed.

Lemma py_str_range_char z : forallb_str range_char (Format.py_str z) = true.
Proof.
  unfold Format.py_str. case_decide; simpl.
  - eapply forallb_str_impl; [|apply Format.dec_aux_decimal; [lia|done]].
    intros c Hc. by destruct (decimal_facts c Hc).
  - eapply forallb_str_impl; [|apply Format.dec_aux_decimal; [lia|done]].
    intros c Hc. by destruct (decimal_facts c Hc).
Qed.

(** A written range is read back when it fits. *)
Lemma parse_frames_written (L : limits) (a b : Z) :
  0 <= a →
  fits (max_str_digits L) (String.length (Format.dec a)) →
  fits (max_str_digits L) (String.length (Format.dec (Z.abs b))) →
  parse_frames L (Format.dec a +:+ String "-" (Format.py_str b)) =
  if decide (maxsize L < Z.abs (b - a) + 1) then Raise OverflowError
  else if decide (list_capacity L < Z.abs (b - a) + 1) then Raise MemoryError
  else Ok (seqZ (Z.min a b) (Z.abs (b - a) + 1)).
Proof.
  intros Ha Hfa Hfb.
  assert (Hda : forallb_str is_decimal (Format.dec a) = true)
    by (by apply Format.dec_aux_decimal).
  assert (Hplain : forallb_str range_char
                     (Format.dec a +:+ String "-" (Format.py_str b)) = true).
  { rewrite Format.forallb_str_app. simpl. rewrite py_str_range_char, andb_true_r.
    eapply forallb_str_impl; [|exact Hda]. intros c Hc. by destruct (decimal_facts c Hc). }
  unfold parse_frames. rewrite split_plain by done. simpl.
  unfold part_frames. rewrite strip_plain by done.
  assert (Hne : Format.dec a ≠ EmptyString) by (apply dec_aux_nonempty; by right).
  destruct (Format.dec a +:+ String "-" (Format.py_str b)) as [|c r] eqn:Htxt.
  { by destruct (Format.dec a). }
  rewrite <- Htxt, split_first_digits by done.
  rewrite py_int_full_dec, py_int_full_py_str by done. simpl.
  unfold extend_range. simpl.
  destruct (decide (b < a)); simpl.
  - replace (a + 1 - b) with (Z.abs (b - a) + 1) by lia.
    replace (Z.max 0 (Z.abs (b - a) + 1)) with (Z.abs (b - a) + 1) by lia.
    repeat case_decide; try done; try lia. simpl.
    change (merge_sort _ _) with (sorted_set (seqZ b (Z.abs (b - a) + 1))).
    rewrite sorted_set_id by apply seqZ_sorted. f_equal. f_equal; lia.
  - replace (b + 1 - a) with (Z.abs (b - a) + 1) by lia.
    replace (Z.max 0 (Z.abs (b - a) + 1)) with (Z.abs (b - a) + 1) by lia.
    repeat case_decide; try done; try lia. simpl.
    change (merge_sort _ _) with (sorted_set (seqZ a (Z.abs (b - a) + 1))).
    rewrite sorted_set_id by apply seqZ_sorted. f_equal. f_equal; lia.
Qed.

(** X7. What was written is read back.  Provided the digit limit of [int]
    lets the numbers through, the decimal text of a frame [a >= 0] is read
    as that one frame, unless there is no memory for a list of one element
    ([MemoryError]); and the text [a-b], with [b] any integer, is read as
    the [|b - a| + 1] frames between [a] and [b] in increasing order,
    whichever of the two is larger, unless they are more than [sys.maxsize]
    ([OverflowError]) or more than the memory holds ([MemoryError]). *)
Theorem parse_frames_range (L : limits) (a b : Z) :
  0 <= a →
  fits (max_str_digits L) (String.length (Format.dec a)) →
  fits (max_str_digits L) (String.length (Format.dec (Z.abs b))) →
  parse_frames L (Format.dec a) =
    (if decide (list_capacity L < 1) then Raise MemoryError else Ok [a]) ∧
  parse_frames L (Format.dec a +:+ String "-" (Format.py_str b)) =
    (if decide (maxsize L < Z.abs (b - a) + 1) then Raise OverflowError
     else if decide (list_capacity L < Z.abs (b - a) + 1) then Raise MemoryError
     else Ok (seqZ (Z.min a b) (Z.abs (b - a) + 1))).
Proof.
  intros Ha Hfa Hfb. split; [|by apply parse_frames_written].
  assert (Hda : forallb_str is_decimal (Format.dec a) = true)
    by (by apply Format.dec_aux_decimal).
  assert (Hplain : forallb_str range_char (Format.dec a) = true).
  { eapply forallb_str_impl; [|exact Hda]. intros c Hc. by destruct (decimal_facts c Hc). }
  assert (Hne : Format.dec a ≠ EmptyString) by (apply dec_aux_nonempty; by right).
  unfold parse_frames. rewrite split_plain by done. simpl.
  unfold part_frames. rewrite strip_plain by done.
  pose proof (split_first_none _ Hda) as Hsf.
  pose proof (py_int_full_dec (max_str_digits L) a Ha Hfa) as Hint.
  destruct (Format.dec a) as [|c r]; [done|].
  rewrite Hsf, Hint. simpl. unfold append_frame. simpl.
  repeat case_decide; try done; try lia. simpl.
  change (merge_sort _ _) with (sorted_set [a]).
  rewrite sorted_set_id; [done|]. repeat constructor.
Qed.

Lemma parse_frames_range_witness :
  parse_frames cpython64 "9" = Ok [9] ∧
  parse_frames cpython64 "9-5" = Ok [5; 6; 7; 8; 9].
Proof.
  split; (apply (parse_frames_range cpython64 9 5); [lia|right; vm_compute; lia..]).
Defined.

End FrameSpec.

(** ** Intervals without frames: [split_ranges] and [run_orchestrator] when
    [end < start] (orchestrator.py, 375-393 and 790-829) *)

Module NoFrames.

Import RangeSplitter Plan Run.

(** X8. [split_ranges] fails with [ZeroDivisionError] exactly on an empty
    interval ([end = start - 1]), whatever [parts] is; it returns the empty
    list exactly when the interval is reversed by more than that
    ([end < start - 1]); in every other case it returns at least one range. *)
Theorem split_ranges_degenerate (start end_ parts : Z) :
  match split_ranges start end_ parts with
  | Raise e => e = ZeroDivisionError ∧ end_ = start - 1
  | Ok rs => end_ ≠ start - 1 ∧ (rs = [] ↔ end_ < start - 1)
  end.
Proof.
  unfold split_ranges. set (total := end_ - start + 1).
  assert (Hp : clamp_parts total parts = 0 ↔ total = 0)
    by (unfold clamp_parts; repeat case_decide; lia).
  assert (Hneg : clamp_parts total parts <= 0 ↔ total <= 0)
    by (unfold clamp_parts; repeat case_decide; lia).
  case_decide as H0.
  - split; [done|]. apply Hp in H0. lia.
  - split; [intros ?; apply H0, Hp; lia|]. split.
    + intros Hnil. apply (f_equal length) in Hnil.
      rewrite split_loop_length in Hnil. simpl in Hnil. lia.
    + intros Hlt. destruct (Z.to_nat (clamp_parts total parts)) eqn:E; [done|lia].
Qed.







End NoFrames.

(** ** Affinity: the balance of [build_affinity_blocks], [load_numa_nodes],
    [apply_affinity] and the affinity lines of [run_orchestrator]
    (orchestrator.py, 567-637 and 888-896) *)

Module AffinityFlow.

Import Text PyInt AffinityPlanner.

(** *** The size of the blocks *)

Lemma picks_snoc n j cpus c : ∀ i,
  picks n j i (cpus ++ [c]) =
  picks n j i cpus ++
  (if decide (Z.to_nat ((i + length cpus) `mod` n) = j) then [c] else []).
Proof.
  induction cpus as [|x cpus IH]; intros i; simpl.
  - by rewrite Z.add_0_r, app_nil_r.
  - rewrite IH, <- app_assoc. do 3 f_equal.
    replace (i + 1 + length cpus) with (i + S (length cpus)) by lia. done.
Qed.

Lemma share_step (n j m : Z) :
  0 <= j < n → 0 <= m →
  (m + 1 + n - 1 - j) `div` n =
  (m + n - 1 - j) `div` n + (if decide (m `mod` n = j) then 1 else 0).
Proof.
  intros Hj Hm.
  pose proof (Z.div_mod m n ltac:(lia)) as Hdm.
  pose proof (Z.mod_pos_bound m n ltac:(lia)) as Hr.
  set (q := m `div` n) in *. set (r := m `mod` n) in *.
  destruct (decide (r = j)) as [Heq|Hne].
  - rewrite <- (Z.div_unique (m + 1 + n - 1 - j) n (q + 1) 0) by lia.
    rewrite <- (Z.div_unique (m + n - 1 - j) n q (n - 1)) by lia. lia.
  - destruct (decide (j < r)).
    + rewrite <- (Z.div_unique (m + 1 + n - 1 - j) n (q + 1) (r - j)) by lia.
      rewrite <- (Z.div_unique (m + n - 1 - j) n (q + 1) (r - j - 1)) by lia. lia.
    + rewrite <- (Z.div_unique (m + 1 + n - 1 - j) n q (r + n - j)) by lia.
      rewrite <- (Z.div_unique (m + n - 1 - j) n q (r + n - 1 - j)) by lia. lia.
Qed.

(** Block [j] of [n] gets every [n]-th of [m] ids, starting with id [j]. *)
Lemma picks_length n (j : nat) cpus :
  0 < n → j < n →
  Z.of_nat (length (picks n j 0 cpus)) = (length cpus + n - 1 - j) `div` n.
Proof.
  intros Hn Hj. induction cpus as [|c cpus IH] using rev_ind.
  - simpl. rewrite Z.div_small; lia.
  - rewrite picks_snoc, !length_app, Nat2Z.inj_add, IH. simpl length.
    replace (Z.of_nat (length cpus + 1)) with (length cpus + 1) by lia.
    rewrite share_step by lia. rewrite Z.add_0_l. f_equal.
    pose proof (Z.mod_pos_bound (length cpus) n Hn).
    destruct (decide (Z.to_nat (length cpus `mod` n) = j));
      destruct (decide (length cpus `mod` n = j)); simpl; lia.
Qed.

Lemma concat_alter_snoc (blocks : list (list Z)) c : ∀ k : nat,
  (k < length blocks)%nat →
  concat (alter (λ b, b ++ [c]) k blocks) ≡ₚ concat blocks ++ [c].
Proof.
  induction blocks as [|b blocks IH]; intros k Hk; simpl in Hk; [lia|].
  destruct k as [|k]; simpl.
  - rewrite <- !app_assoc. apply Permutation_app_head, Permutation_app_comm.
  - rewrite <- app_assoc. apply Permutation_app_head, IH. lia.
Qed.

Lemma distribute_concat n cpus : ∀ i blocks,
  0 < n → length blocks = Z.to_nat n →
  concat (distribute n i cpus blocks) ≡ₚ concat blocks ++ cpus.
Proof.
  induction cpus as [|c cpus IH]; intros i blocks Hn Hlen; simpl.
  - by rewrite app_nil_r.
  - rewrite IH by (done || by rewrite length_alter).
    rewrite concat_alter_snoc.
    + by rewrite <- app_assoc.
    + pose proof (Z.mod_pos_bound i n Hn). lia.
Qed.

Lemma concat_replicate_nil (k : nat) : concat (replicate k ([] : list Z)) = [].
Proof. induction k as [|k IH]; [done|]. done. Qed.

(** X10. [build_affinity_blocks] returns no block exactly when
    [concurrency <= 0] or every pool is empty.  Otherwise it returns exactly
    [concurrency] blocks which together hold every distinct id once; block
    [j] holds [ceil ((m - j) / concurrency)] of the [m] distinct ids, so an
    earlier block is never smaller than a later one and never larger by more
    than one id, and block [j] is empty exactly when [m <= j]: with more
    workers than ids, the last workers get an empty block. *)
Theorem build_affinity_blocks_balanced (n : Z) (pools : list (list Z)) :
  let all_cpus := fromkeys (concat pools) in
  let m := Z.of_nat (length all_cpus) in
  let blocks := build_affinity_blocks n pools in
  (blocks = [] ↔ n <= 0 ∨ ∀ p, p ∈ pools → p = []) ∧
  (blocks ≠ [] →
     Z.of_nat (length blocks) = n ∧
     concat blocks ≡ₚ all_cpus ∧
     (∀ (j : nat) b, blocks !! j = Some b →
        Z.of_nat (length b) = (m + n - 1 - j) `div` n ∧ (b = [] ↔ m <= j)) ∧
     (∀ (j k : nat) b b', (j <= k)%nat → blocks !! j = Some b → blocks !! k = Some b' →
        (length b' <= length b <= length b' + 1)%nat)).
Proof.
  intros all_cpus m blocks.
  destruct (fromkeys_spec (concat pools)) as (Hnd & Hin & _).
  fold all_cpus in Hnd, Hin.
  assert (Hempty : all_cpus = [] ↔ ∀ p, p ∈ pools → p = []).
  { split.
    - intros Hnil p Hp. destruct p as [|x p]; [done|]. exfalso.
      assert (x ∈ all_cpus) as Hx
        by (apply Hin, elem_of_concat; exists (x :: p); split; [done|by left]).
      rewrite Hnil in Hx. by apply elem_of_nil in Hx.
    - intros Hall. destruct all_cpus as [|x l] eqn:Hl; [done|]. exfalso.
      assert (x ∈ concat pools) as (p & Hp & Hx)%elem_of_concat
        by (apply Hin; by left).
      rewrite (Hall p Hp) in Hx. by apply elem_of_nil in Hx. }
  assert (Hblocks : blocks =
    if decide (n <= 0) then []
    else match all_cpus with
         | [] => []
         | _ => distribute n 0 all_cpus (replicate (Z.to_nat n) [])
         end).
  { subst blocks all_cpus. unfold build_affinity_blocks. by rewrite extend_all_concat. }
  assert (Hlen : 0 < n → all_cpus ≠ [] → length blocks = Z.to_nat n).
  { intros Hn Hne. rewrite Hblocks, decide_False by lia.
    destruct all_cpus; [done|]. by rewrite distribute_length, length_replicate. }
  split.
  - split.
    + intros Hnil. destruct (Z.le_gt_cases n 0) as [|Hn]; [by left|right].
      apply Hempty. destruct all_cpus as [|x l] eqn:Hl; [done|]. exfalso.
      assert (length blocks = Z.to_nat n) as Hl' by (apply Hlen; [lia|done]).
      rewrite Hnil in Hl'. simpl in Hl'. lia.
    + intros [Hn|Hall]; rewrite Hblocks.
      * by rewrite decide_True.
      * apply Hempty in Hall. rewrite Hall. by case_decide.
  - intros Hne.
    assert (Hn : 0 < n).
    { destruct (Z.le_gt_cases n 0) as [Hle|]; [|lia]. exfalso. apply Hne.
      by rewrite Hblocks, decide_True. }
    assert (Hcpus : all_cpus ≠ []).
    { intros Hnil. apply Hne. rewrite Hblocks, Hnil. by case_decide. }
    assert (Hsize : ∀ (j : nat) b, blocks !! j = Some b →
      j < n ∧ Z.of_nat (length b) = (m + n - 1 - j) `div` n).
    { intros j b Hj. apply build_affinity_blocks_lookup in Hj as [Hlt ->]; [|done].
      rewrite extend_all_concat. fold all_cpus. split; [lia|].
      apply picks_length; lia. }
    split_and!.
    + rewrite Hlen by done. lia.
    + rewrite Hblocks, decide_False by lia. destruct all_cpus as [|x l] eqn:Hl; [done|].
      rewrite distribute_concat by (done || by rewrite length_replicate).
      by rewrite concat_replicate_nil.
    + intros j b Hj. destruct (Hsize j b Hj) as [Hjn Hb]. split; [done|].
      split.
      * intros ->. simpl in Hb. destruct (decide (m <= j)); [done|]. exfalso.
        assert (1 <= (m + n - 1 - j) `div` n)
          by (apply Z.div_le_lower_bound; lia). lia.
      * intros Hmj. rewrite Z.div_small in Hb by lia. by destruct b.
    + intros j k b b' Hjk Hj Hk.
      destruct (Hsize j b Hj) as [Hjn Hb]. destruct (Hsize k b' Hk) as [Hkn Hb'].
      assert ((m + n - 1 - k) `div` n <= (m + n - 1 - j) `div` n)
        by (apply Z.div_le_mono; lia).
      assert ((m + n - 1 - j) `div` n <= (m + n - 1 - k + 1 * n) `div` n)
        by (apply Z.div_le_mono; lia).
      rewrite Z.div_add in * by lia. lia.
Qed.

(** *** The NUMA map *)

(** A float: [m * 2 ^ e], an infinity or a NaN. *)
Inductive pyfloat :=
  | Finite (m e : Z)
  | Infinite
  | NaN.

(** What [json.loads] returns. *)
Inductive json :=
  | JNull
  | JBool (b : bool)
  | JInt (z : Z)
  | JFloat (x : pyfloat)
  | JStr (s : string)
  | JList (l : list json)
  | JDict (d : list (string * json)).

(** [int(x)] for a float: truncation, an exception for infinities and
    NaN. *)
Definition float_to_int (x : pyfloat) : option Z :=
  match x with
  | Finite m e => Some (if decide (0 <= e) then m * 2 ^ e else Z.quot m (2 ^ (- e)))
  | Infinite | NaN => None
  end.

(** [int(x)] for a JSON value, [None] when it raises. *)
Definition int_of (max_str_digits : nat) (x : json) : option Z :=
  match x with
  | JBool b => Some (if b then 1 else 0)
  | JInt z => Some z
  | JFloat f => float_to_int f
  | JStr s =>
      match py_int_full max_str_digits s with
      | Ok z => Some z
      | Raise _ => None
      end
  | JNull | JList _ | JDict _ => None
  end.

(** The numa map file as [load_numa_nodes] meets it. *)
Inductive numa_file :=
  | Missing                   (* [p.exists()] is false *)
  | Unreadable                (* reading or parsing raises *)
  | Parsed (data : json).

(** The body of the loop over [data.items()] for one value: the ids kept,
    [None] when the entry is skipped. *)
Definition node_cpus (max_str_digits : nat) (v : json) : option (list Z) :=
  match v with
  | JList l =>
      match mapM (int_of max_str_digits) l with
      | Some cpus =>
          match filter (λ c, 0 <= c) cpus with
          | [] => None
          | cpus => Some cpus
          end
      | None => None
      end
  | _ => None
  end.

Definition load_numa_nodes (max_str_digits : nat) (f : numa_file) : gmap string (list Z) :=
  match f with
  | Parsed (JDict items) =>
      foldl (λ out '(k, v),
               match node_cpus max_str_digits v with
               | Some cpus => <[k := cpus]> out
               | None => out
               end) ∅ items
  | _ => ∅
  end.

(** The order of [str]: by code point, a proper prefix first. *)
Fixpoint str_le (s t : string) : bool :=
  match s, t with
  | EmptyString, _ => true
  | String _ _, EmptyString => false
  | String a s', String b t' =>
      if (code a <? code b)%N then true
      else if (code b <? code a)%N then false
      else str_le s' t'
  end.

Definition item_le (x y : string * list Z) : Prop := str_le x.1 y.1 = true.

#[local] Instance item_le_dec x y : Decision (item_le x y).
Proof. unfold item_le. apply _. Defined.

(** [[v for _, v in sorted(nodes.items())] if nodes else []]. *)
Definition numa_pools (nodes : gmap string (list Z)) : list (list Z) :=
  (merge_sort item_le (map_to_list nodes)).*2.

(** *** [apply_affinity] *)

(** The loop that builds [cleaned]. *)
Definition clean (affinity : list Z) : list Z :=
  foldl (λ cleaned cid,
           if decide (cid >= 0 ∧ cid ∉ cleaned) then cleaned ++ [cid] else cleaned)
        [] affinity.

(** What [apply_affinity] meets: whether psutil was imported, whether a
    process object with [cpu_affinity] is at hand, and whether the call
    [p.cpu_affinity(cleaned)] returns. *)
Record affinity_env := {
  psutil : bool;
  proc_ok : bool;
  set_ok : list Z → bool;
}.

(** The value returned and the lists passed to [cpu_affinity]. *)
Definition apply_affinity (env : affinity_env) (affinity : option (list Z))
  : option (list Z) * list (list Z) :=
  match affinity with
  | None | Some [] => (None, [])
  | Some affinity =>
      if negb (psutil env) then (None, [])
      else if negb (proc_ok env) then (None, [])
      else
        match clean affinity with
        | [] => (None, [])
        | cleaned =>
            if set_ok env cleaned then (Some cleaned, [cleaned]) else (None, [cleaned])
        end
  end.

(** Lines 888-896: the affinity planned for each worker. *)
Definition planned_affinities (max_str_digits : nat) (disable_affinity : bool)
    (psutil_affinity : bool) (numa_map : option numa_file) (concurrency : Z)
  : list (option (list Z)) :=
  let affinities := replicate (Z.to_nat concurrency) None in
  if negb disable_affinity && psutil_affinity then
    match numa_map with
    | Some f =>
        let nodes := load_numa_nodes max_str_digits f in
        let pools := numa_pools nodes in
        let blocks := build_affinity_blocks concurrency pools in
        match blocks with
        | [] => affinities
        | _ =>
            (Some <$> blocks) ++
            replicate (Z.to_nat (Z.max 0 (concurrency - length blocks))) None
        end
    | None => affinities
    end
  else affinities.

(** [affinities[i] if i < len(affinities) else None]. *)
Definition child_affinity (affinities : list (option (list Z))) (i : nat) : option (list Z) :=
  default None (affinities !! i).

Example load_numa_nodes_example :
  map_to_list (load_numa_nodes 4300 (Parsed (JDict
    [("node1", JList [JInt 4; JInt 5; JInt (-1)]);
     ("node0", JList [JInt 0; JStr " 1 "; JFloat (Finite 5 (-1)); JBool true]);
     ("bad", JList [JInt 8; JNull]);
     ("neg", JList [JInt (-2)]);
     ("text", JStr "0-3")])))
  ≡ₚ [("node0", [0; 1; 2; 1]); ("node1", [4; 5])].
Proof. vm_compute. apply Permutation_swap || reflexivity. Qed.

Example planned_affinities_example :
  planned_affinities 4300 false true
    (Some (Parsed (JDict [("node1", JList [JInt 4; JInt 5]);
                          ("node0", JList [JInt 0; JInt 1; JInt 4])]))) 3
  = [Some [0; 5]; Some [1]; Some [4]].
Proof. vm_compute. reflexivity. Qed.

(** *** What [load_numa_nodes] lets through *)

Lemma node_cpus_spec L v cpus :
  node_cpus L v = Some cpus →
  ∃ l ids, v = JList l ∧ mapM (int_of L) l = Some ids ∧
    cpus = filter (λ c, 0 <= c) ids ∧ cpus ≠ [].
Proof.
  unfold node_cpus. destruct v as [| | | | |l|]; try done.
  destruct (mapM (int_of L) l) as [ids|] eqn:Hids; [|done].
  destruct (filter (λ c, 0 <= c) ids) as [|c cs] eqn:Hf; [done|].
  intros [= <-]. exists l, ids. by rewrite Hf.
Qed.

Lemma mapM_JInt L ids : mapM (int_of L) (JInt <$> ids) = Some ids.
Proof. apply mapM_Some. induction ids; constructor; done. Qed.

Lemma filter_all (ids : list Z) : Forall (λ c, 0 <= c) ids → filter (λ c, 0 <= c) ids = ids.
Proof.
  induction 1 as [|c ids Hc _ IH]; [done|].
  by rewrite filter_cons, decide_True, IH.
Qed.

Section load_fold.

Variable L : nat.

Let step (out : gmap string (list Z)) (kv : string * json) : gmap string (list Z) :=
  let '(k, v) := kv in
  match node_cpus L v with
  | Some cpus => <[k := cpus]> out
  | None => out
  end.

Lemma load_fold_sound items : ∀ out k cpus,
  foldl step out items !! k = Some cpus →
  out !! k = Some cpus ∨ ∃ v, (k, v) ∈ items ∧ node_cpus L v = Some cpus.
Proof.
  induction items as [|[k' v'] items IH]; intros out k cpus H; simpl in H; [by left|].
  apply IH in H as [H|(v & Hin & Hv)].
  - destruct (node_cpus L v') as [c|] eqn:Hc; [|by left].
    destruct (decide (k' = k)) as [->|Hne].
    + rewrite lookup_insert_eq in H. injection H as ->.
      right. exists v'. split; [by left|done].
    + rewrite lookup_insert_ne in H by done. by left.
  - right. exists v. split; [by right|done].
Qed.

Lemma load_fold_other items : ∀ out k,
  k ∉ items.*1 → foldl step out items !! k = out !! k.
Proof.
  induction items as [|[k' v'] items IH]; intros out k Hk; simpl; [done|].
  simpl in Hk. apply not_elem_of_cons in Hk as [Hne Hk].
  rewrite IH by done. destruct (node_cpus L v'); [|done].
  by rewrite lookup_insert_ne.
Qed.

Lemma load_fold_complete items : ∀ out k v,
  NoDup items.*1 → (k, v) ∈ items →
  foldl step out items !! k =
  match node_cpus L v with Some cpus => Some cpus | None => out !! k end.
Proof.
  induction items as [|[k' v'] items IH]; intros out k v Hnd Hin; simpl.
  { by apply elem_of_nil in Hin. }
  simpl in Hnd. apply NoDup_cons in Hnd as [Hk' Hnd].
  apply elem_of_cons in Hin as [[= -> ->]|Hin].
  - rewrite load_fold_other by done.
    destruct (node_cpus L v') as [c|]; [by rewrite lookup_insert_eq|done].
  - rewrite (IH _ k v) by done. destruct (node_cpus L v) as [c|]; [done|].
    destruct (node_cpus L v') as [c'|]; [|done].
    rewrite lookup_insert_ne; [done|]. intros ->. apply Hk'.
    apply list_elem_of_fmap. by exists (k, v).
Qed.

End load_fold.

Lemma load_numa_nodes_entry L f k cpus :
  load_numa_nodes L f !! k = Some cpus →
  cpus ≠ [] ∧ (∀ c, c ∈ cpus → 0 <= c) ∧
  ∃ items l ids, f = Parsed (JDict items) ∧ (k, JList l) ∈ items ∧
    mapM (int_of L) l = Some ids ∧ cpus = filter (λ c, 0 <= c) ids.
Proof.
  intros H. unfold load_numa_nodes in H.
  destruct f as [| |[| | | | | |items]]; try by rewrite lookup_empty in H.
  apply load_fold_sound in H as [H|(v & Hin & Hv)]; [by rewrite lookup_empty in H|].
  apply node_cpus_spec in Hv as (l & ids & -> & Hids & -> & Hne).
  split_and!; [done| |by exists items, l, ids].
  by intros c [Hc _]%list_elem_of_filter.
Qed.

(** X11. Every entry that [load_numa_nodes] returns is a non-empty list
    of non-negative ids: it comes from a key of the JSON object whose value
    is a list on every element of which [int] succeeds, and holds the results
    that are not negative, in order.  Conversely a key of the object is
    returned exactly when its value passes that test, and a list of
    non-negative integers with at least one element is returned as it is. *)
Theorem load_numa_nodes_valid (L : nat) (f : numa_file) :
  (∀ k cpus, load_numa_nodes L f !! k = Some cpus →
     cpus ≠ [] ∧ (∀ c, c ∈ cpus → 0 <= c) ∧
     ∃ items l ids, f = Parsed (JDict items) ∧ (k, JList l) ∈ items ∧
       mapM (int_of L) l = Some ids ∧ cpus = filter (λ c, 0 <= c) ids) ∧
  (∀ items k v, f = Parsed (JDict items) → NoDup items.*1 → (k, v) ∈ items →
     load_numa_nodes L f !! k = node_cpus L v) ∧
  (∀ ids, ids ≠ [] → Forall (λ c, 0 <= c) ids →
     node_cpus L (JList (JInt <$> ids)) = Some ids).
Proof.
  split_and!.
  - apply load_numa_nodes_entry.
  - intros items k v -> Hnd Hin. unfold load_numa_nodes.
    rewrite (load_fold_complete L items ∅ k v) by done.
    by destruct (node_cpus L v).
  - intros ids Hne Hall. unfold node_cpus.
    rewrite mapM_JInt, filter_all by done. by destruct ids.
Qed.

Lemma elem_of_numa_pools nodes p :
  p ∈ numa_pools nodes ↔ ∃ k, nodes !! k = Some p.
Proof.
  unfold numa_pools. rewrite list_elem_of_fmap. split.
  - intros ([k q] & -> & Hin). rewrite merge_sort_Permutation in Hin.
    apply elem_of_map_to_list in Hin. by exists k.
  - intros [k Hk]. exists (k, p). split; [done|].
    rewrite merge_sort_Permutation. by apply elem_of_map_to_list.
Qed.

(** *** What [apply_affinity] passes on *)

Section clean_fold.

Let step (cleaned : list Z) (cid : Z) : list Z :=
  if decide (cid >= 0 ∧ cid ∉ cleaned) then cleaned ++ [cid] else cleaned.

Lemma clean_fold aff : ∀ acc, NoDup acc →
  let r := foldl step acc aff in
  NoDup r ∧ (∀ x, x ∈ r ↔ x ∈ acc ∨ (x ∈ aff ∧ 0 <= x)) ∧
  ∃ tl, r = acc ++ tl ∧ sublist tl aff.
Proof.
  induction aff as [|c aff IH]; intros acc Hnd; simpl.
  - split_and!; [done| |].
    + intros x. rewrite elem_of_nil. tauto.
    + exists []. by rewrite app_nil_r.
  - unfold step at 2 4 6. destruct (decide (c >= 0 ∧ c ∉ acc)) as [[Hc Hnin]|Hno].
    + assert (Hnd' : NoDup (acc ++ [c])).
      { apply NoDup_app. split_and!; [done| |apply NoDup_singleton].
        intros y Hy ->%list_elem_of_singleton. done. }
      destruct (IH (acc ++ [c]) Hnd') as (H1 & H2 & tl & H3 & H4).
      split_and!; [done| |].
      * intros y. rewrite H2, elem_of_app, !elem_of_cons, elem_of_nil.
        assert (y = c → 0 <= y) by (intros ->; lia). tauto.
      * exists (c :: tl). split; [by rewrite H3, <- app_assoc|]. by apply sublist_skip.
    + destruct (IH acc Hnd) as (H1 & H2 & tl & H3 & H4).
      split_and!; [done| |].
      * intros y. rewrite H2, elem_of_cons.
        assert (y = c → 0 <= y → y ∈ acc).
        { intros -> ?. destruct (decide (c ∈ acc)); [done|].
          exfalso. apply Hno. split; [lia|done]. }
        tauto.
      * exists tl. split; [done|]. by apply sublist_cons.
Qed.

Lemma clean_fold_id aff : ∀ acc,
  NoDup (acc ++ aff) → Forall (λ c, 0 <= c) aff → foldl step acc aff = acc ++ aff.
Proof.
  induction aff as [|c aff IH]; intros acc Hnd Hall; simpl.
  - by rewrite app_nil_r.
  - apply Forall_cons in Hall as [Hc Hall].
    unfold step at 2. rewrite decide_True.
    + rewrite IH; [by rewrite <- app_assoc| by rewrite <- app_assoc|done].
    + split; [lia|]. apply NoDup_app in Hnd as (_ & Hdis & _).
      intros Hin. apply (Hdis c Hin). by left.
Qed.

End clean_fold.

Lemma clean_spec aff :
  NoDup (clean aff) ∧ (∀ x, x ∈ clean aff ↔ x ∈ aff ∧ 0 <= x) ∧ sublist (clean aff) aff.
Proof.
  destruct (clean_fold aff [] NoDup_nil_2) as (H1 & H2 & tl & H3 & H4).
  unfold clean. split_and!; [done| |].
  - intros x. rewrite H2, elem_of_nil. tauto.
  - simpl in H3. by rewrite H3.
Qed.

Lemma clean_id aff : NoDup aff → Forall (λ c, 0 <= c) aff → clean aff = aff.
Proof. intros Hnd Hall. unfold clean. by rewrite clean_fold_id. Qed.

(** X12. When [apply_affinity] returns a list, that list is exactly what
    it passed to [cpu_affinity], in one call: the non-negative ids of the
    argument without repetition, in the order of their first occurrence, and
    it is not empty.  When it returns [None] it either made no call, or made
    the one call and that call raised.  An argument without negative id and
    without repetition is passed on unchanged. *)
Theorem apply_affinity_cleaned (env : affinity_env) (affinity : option (list Z)) :
  match apply_affinity env affinity with
  | (Some c, calls) =>
      ∃ aff, affinity = Some aff ∧ c = clean aff ∧ calls = [c] ∧ c ≠ [] ∧
        NoDup c ∧ sublist c aff ∧ (∀ x, x ∈ c ↔ x ∈ aff ∧ 0 <= x) ∧
        (NoDup aff → Forall (λ x, 0 <= x) aff → c = aff) ∧
        psutil env = true ∧ proc_ok env = true ∧ set_ok env c = true
  | (None, calls) =>
      calls = [] ∨
      ∃ aff, affinity = Some aff ∧ calls = [clean aff] ∧ set_ok env (clean aff) = false
  end.
Proof.
  unfold apply_affinity. destruct affinity as [[|a aff]|]; [by left| |by left].
  destruct (psutil env); simpl; [|by left].
  destruct (proc_ok env); simpl; [|by left].
  destruct (clean_spec (a :: aff)) as (Hnd & Hin & Hsub).
  destruct (clean (a :: aff)) as [|c cs] eqn:Hclean; [by left|].
  destruct (set_ok env (c :: cs)) eqn:Hset.
  - exists (a :: aff). split_and!; try done.
    intros Hnd' Hall. rewrite <- Hclean. by apply clean_id.
  - right. exists (a :: aff). by rewrite Hclean.
Qed.

(** *** From the NUMA map to the affinity of a worker *)

Lemma planned_affinities_lookup L disable psa numa_map n i b :
  child_affinity (planned_affinities L disable psa numa_map n) i = Some b →
  ∃ f, numa_map = Some f ∧ disable = false ∧ psa = true ∧
    build_affinity_blocks n (numa_pools (load_numa_nodes L f)) !! i = Some b.
Proof.
  unfold child_affinity, planned_affinities.
  assert (Hnone : ∀ k j : nat,
    default None (replicate k (None : option (list Z)) !! j) ≠ Some b).
  { intros k j. destruct (replicate k None !! j) as [o|] eqn:Hl; [|done].
    by apply lookup_replicate in Hl as [-> _]. }
  destruct disable, psa; simpl; try (by intros ?%Hnone).
  destruct numa_map as [f|]; [|by intros ?%Hnone].
  destruct (build_affinity_blocks n (numa_pools (load_numa_nodes L f)))
    as [|b0 bs] eqn:Hblocks; [by intros ?%Hnone|].
  intros H. exists f. split_and!; try done.
  destruct (decide (i < length (b0 :: bs))%nat) as [Hlt|Hge].
  - rewrite lookup_app_l in H by (by rewrite length_fmap).
    rewrite list_lookup_fmap in H. rewrite Hblocks.
    by destruct ((b0 :: bs) !! i).
  - rewrite lookup_app_r in H by (rewrite length_fmap; lia).
    exfalso. by apply Hnone in H.
Qed.

(** X13. The affinity planned for a worker from a NUMA map.  If worker
    [i] is given a list [b], then affinity is enabled, a map was named,
    [b] is block [i] of [build_affinity_blocks] over the pools of the map,
    every id of [b] is a non-negative id listed in the map, no id of [b] is
    planned for another worker, and the cleaning loop of [apply_affinity]
    leaves [b] as it is: the worker is pinned to exactly [b], unless [b] is
    empty or the process cannot be pinned. *)
Theorem numa_affinity_pinning (L : nat) (disable psa : bool) (numa_map : option numa_file)
    (n : Z) (env : affinity_env) (i : nat) (b : list Z) :
  child_affinity (planned_affinities L disable psa numa_map n) i = Some b →
  ∃ f, numa_map = Some f ∧ disable = false ∧ psa = true ∧
    build_affinity_blocks n (numa_pools (load_numa_nodes L f)) !! i = Some b ∧
    (∀ cpu, cpu ∈ b →
       0 <= cpu ∧ ∃ node ids, load_numa_nodes L f !! node = Some ids ∧ cpu ∈ ids) ∧
    (∀ (j : nat) b' cpu, j ≠ i →
       child_affinity (planned_affinities L disable psa numa_map n) j = Some b' →
       cpu ∈ b → cpu ∉ b') ∧
    clean b = b ∧
    apply_affinity env (Some b) =
      match b with
      | [] => (None, [])
      | _ =>
          if psutil env && proc_ok env then
            if set_ok env b then (Some b, [b]) else (None, [b])
          else (None, [])
      end.
Proof.
  intros H. pose proof H as Hb.
  apply planned_affinities_lookup in Hb as (f & -> & -> & -> & Hb).
  exists f. set (pools := numa_pools (load_numa_nodes L f)) in *.
  assert (Hn : 0 < n).
  { destruct (Z.le_gt_cases n 0); [|lia].
    unfold build_affinity_blocks in Hb. by rewrite decide_True in Hb. }
  destruct (fromkeys_spec (extend_all pools)) as (Hnd & Hin & _).
  pose proof Hb as Hpick. apply build_affinity_blocks_lookup in Hpick as [Hi Heq]; [|done].
  assert (Hpos : ∀ cpu, cpu ∈ b →
    0 <= cpu ∧ ∃ node ids, load_numa_nodes L f !! node = Some ids ∧ cpu ∈ ids).
  { intros cpu Hc. rewrite Heq in Hc. apply elem_of_picks in Hc as (k & Hk & _).
    apply list_elem_of_lookup_2, Hin in Hk.
    rewrite extend_all_concat in Hk. apply elem_of_concat in Hk as (p & Hp & Hcp).
    apply elem_of_numa_pools in Hp as [node Hnode].
    destruct (load_numa_nodes_entry L f node p Hnode) as (_ & Hall & _).
    split; [by apply Hall|by exists node, p]. }
  assert (Hclean : clean b = b).
  { apply clean_id.
    - rewrite Heq. apply (sublist_NoDup _ (fromkeys (extend_all pools))); [done|].
      apply picks_sublist.
    - apply Forall_forall. intros cpu Hc. by apply Hpos. }
  split_and!; try done.
  - intros j b' cpu Hji Hj Hc Hc'.
    apply planned_affinities_lookup in Hj as (f' & [= <-] & _ & _ & Hj).
    apply build_affinity_blocks_lookup in Hj as [_ ->]; [|done].
    rewrite Heq in Hc.
    apply elem_of_picks in Hc as (k & Hk & Hm).
    apply elem_of_picks in Hc' as (k' & Hk' & Hm').
    rewrite (NoDup_lookup _ _ _ _ Hnd Hk Hk') in Hm. lia.
  - unfold apply_affinity. rewrite Hclean. destruct b; [done|].
    by destruct (psutil env), (proc_ok env).
Qed.

Lemma numa_affinity_pinning_witness :
  clean [0; 5] = [0; 5].
Proof.
  destruct (numa_affinity_pinning 4300 false true
    (Some (Parsed (JDict [("node1", JList [JInt 4; JInt 5]);
                          ("node0", JList [JInt 0; JInt 1; JInt 4])]))) 3
    {| psutil := true; proc_ok := true; set_ok := λ _, true |} 0 [0; 5])
    as (f & _ & _ & _ & _ & _ & _ & H & _); [vm_compute; reflexivity|]. exact H.
Defined.

End AffinityFlow.

(** ** The budget of [auto_concurrency] (orchestrator.py, 516-560) *)

Module AutoBudget.

Import ConcurrencyPlanner.

(** The threads one worker is taken to need: 16 with MFR on, 8 with MFR
    off, or the hint [mfr_threads] when it is larger. *)
Definition threads_per_proc (a : args) : Z :=
  Z.max (if disable_mfr a then 8 else 16) (mfr_threads a).

Lemma target_threads a :
  (if disable_mfr a then Z.max 8 (py_or (py_or (mfr_threads a) 0) 8)
   else Z.max 16 (py_or (py_or (mfr_threads a) 0) 16)) = threads_per_proc a.
Proof.
  unfold threads_per_proc, py_or. destruct (disable_mfr a); repeat case_decide; lia.
Qed.

Lemma auto_concurrency_unfold a logical q :
  1 <= logical →
  auto_concurrency a logical q =
  Z.max 1 (Z.min (py_or (max_concurrency a) 24)
             (Z.min (match q with Some k => k | None => logical end)
                (Z.min (Z.max 1 (logical `div` threads_per_proc a)) logical))).
Proof.
  intros Hl. unfold auto_concurrency. rewrite decide_False by lia.
  by rewrite target_threads.
Qed.

Lemma auto_concurrency_unknown a logical q :
  logical <= 0 → auto_concurrency a logical q = Z.max 1 (Z.min 4 (py_or (max_concurrency a) 24)).
Proof. intros Hl. unfold auto_concurrency. by rewrite decide_True. Qed.

(** X14. The worker count chosen by [auto_concurrency] on a machine with
    at least one logical CPU is 1, or else it fits every budget at once: the
    workers times the threads per worker (16 with MFR on, 8 with MFR off, or
    [mfr_threads] when larger) do not exceed the logical CPUs, the count is
    at most [max_concurrency] (24 when that is 0) and at most the RAM
    quotient when RAM was detected.  So a machine with fewer than twice the
    threads per worker always gets one worker.  With an unknown CPU count
    the result is between 1 and 4. *)
Theorem auto_concurrency_budget (a : args) (logical : Z) (q : option Z) :
  let r := auto_concurrency a logical q in
  (logical <= 0 → 1 <= r <= 4) ∧
  (1 <= logical →
     (r = 1 ∨
      (r * threads_per_proc a <= logical ∧
       r <= py_or (max_concurrency a) 24 ∧
       ∀ k, q = Some k → r <= k)) ∧
     (logical < 2 * threads_per_proc a → r = 1)).
Proof.
  intros r. split.
  - intros Hl. subst r. rewrite auto_concurrency_unknown by done. lia.
  - intros Hl. subst r. rewrite auto_concurrency_unfold by done.
    assert (Ht : 8 <= threads_per_proc a)
      by (unfold threads_per_proc; destruct (disable_mfr a); lia).
    set (t := threads_per_proc a) in *.
    pose proof (Z.mul_div_le logical t ltac:(lia)) as Hmul.
    assert (Hsmall : logical < 2 * t → logical `div` t <= 1).
    { intros Hlt. assert (logical `div` t < 2); [|lia].
      apply Z.div_lt_upper_bound; lia. }
    split.
    + destruct (decide (Z.max 1 (Z.min (py_or (max_concurrency a) 24)
        (Z.min match q with Some k => k | None => logical end
           (Z.min (Z.max 1 (logical `div` t)) logical))) = 1)) as [|Hne]; [by left|].
      right. split_and!; [nia|lia|]. intros k ->. lia.
    + intros Hlt. specialize (Hsmall Hlt). lia.
Qed.

(** X15. [auto_concurrency] is monotone in what the machine offers:
    switching MFR off never lowers the count, and neither does a larger RAM
    quotient, a larger number of logical CPUs, or a larger positive
    [max_concurrency]. *)
Theorem auto_concurrency_monotone (c mc mt : Z) (logical : Z) (q : option Z) :
  let a (off : bool) :=
    {| concurrency := c; max_concurrency := mc; mfr_threads := mt; disable_mfr := off |} in
  (auto_concurrency (a false) logical q <= auto_concurrency (a true) logical q) ∧
  (∀ off k k', k <= k' →
     auto_concurrency (a off) logical (Some k) <= auto_concurrency (a off) logical (Some k')) ∧
  (∀ off logical', 1 <= logical <= logical' →
     auto_concurrency (a off) logical q <= auto_concurrency (a off) logical' q) ∧
  (∀ off mc', 1 <= mc <= mc' →
     auto_concurrency (a off) logical q <=
     auto_concurrency
       {| concurrency := c; max_concurrency := mc'; mfr_threads := mt; disable_mfr := off |}
       logical q).
Proof.
  intros a. split_and!.
  - destruct (decide (logical <= 0)) as [Hl|Hl].
    + by rewrite !auto_concurrency_unknown by done.
    + rewrite !auto_concurrency_unfold by lia.
      assert (logical `div` threads_per_proc (a false) <=
              logical `div` threads_per_proc (a true)).
      { apply Z.div_le_compat_l; [lia|]. unfold threads_per_proc. simpl. lia. }
      simpl max_concurrency. lia.
  - intros off k k' Hk. destruct (decide (logical <= 0)) as [Hl|Hl].
    + by rewrite !auto_concurrency_unknown by done.
    + rewrite !auto_concurrency_unfold by lia. lia.
  - intros off logical' Hl. rewrite !auto_concurrency_unfold by lia.
    assert (8 <= threads_per_proc (a off))
      by (unfold threads_per_proc; destruct (disable_mfr (a off)); lia).
    assert (logical `div` threads_per_proc (a off) <=
            logical' `div` threads_per_proc (a off))
      by (apply Z.div_le_mono; lia).
    destruct q; lia.
  - intros off mc' Hmc.
    assert (Hmc1 : py_or mc 24 = mc) by (unfold py_or; rewrite decide_False; lia).
    assert (Hmc2 : py_or mc' 24 = mc') by (unfold py_or; rewrite decide_False; lia).
    destruct (decide (logical <= 0)) as [Hl|Hl].
    + rewrite !auto_concurrency_unknown by done. simpl max_concurrency.
      rewrite Hmc1, Hmc2. lia.
    + rewrite !auto_concurrency_unfold by lia. simpl max_concurrency.
      rewrite Hmc1, Hmc2.
      change (threads_per_proc _) with (threads_per_proc (a off)). lia.
Qed.

End AutoBudget.

(** ** The spawn loop, the monitor loop and the files of a run
    (orchestrator.py, 921-1104) *)

Module RunFacts.

Import Plan Run.

(** Every child has exited at the turn [t]. *)
Definition all_exited (children : list Z) (t : tick) : Prop :=
  ∀ k : nat, (k < length children)%nat → poll t k ≠ None.

(** *** The failures recorded by the monitor loop *)

Lemma check_completion_failures kof p poll children : ∀ i st ad st' ad',
  check_completion kof p poll i children st ad = (st', ad') →
  NoDup (failures st) →
  NoDup (failures st') ∧
  ∀ pid, pid ∈ failures st' →
    pid ∈ failures st ∨
    ∃ (k : nat) rc, children !! k = Some pid ∧ poll (i + k)%nat = Some rc ∧ rc ≠ 0.
Proof.
  induction children as [|c rest IH]; intros i st ad st' ad' H Hnd; simpl in H.
  - injection H as <- <-. split; [done|]. by left.
  - assert (Hshift : ∀ pid,
      (∃ (k : nat) rc, rest !! k = Some pid ∧ poll (S i + k)%nat = Some rc ∧ rc ≠ 0) →
      ∃ (k : nat) rc, (c :: rest) !! k = Some pid ∧ poll (i + k)%nat = Some rc ∧ rc ≠ 0).
    { intros pid (k & rc & Hk & Hp & Hrc). exists (S k), rc.
      by replace (i + S k)%nat with (S i + k)%nat by lia. }
    destruct (poll i) as [rc|] eqn:Hpoll.
    + case_decide as Hfail.
      * destruct Hfail as [Hrc Hnew].
        assert (Hnd' : NoDup (failures st ++ [c])).
        { apply NoDup_app. split_and!; [done| |apply NoDup_singleton].
          intros y Hy ->%list_elem_of_singleton. done. }
        assert (Hhere : ∀ pid, pid ∈ failures st ++ [c] →
          pid ∈ failures st ∨
          ∃ (k : nat) rc, (c :: rest) !! k = Some pid ∧ poll (i + k)%nat = Some rc ∧ rc ≠ 0).
        { intros pid [?| ->%list_elem_of_singleton]%elem_of_app; [by left|].
          right. exists 0%nat, rc. by rewrite Nat.add_0_r. }
        destruct kof.
        -- injection H as <- <-. simpl. done.
        -- apply IH in H as [H1 H2]; [|done]. split; [done|].
           intros pid Hpid. destruct (H2 pid Hpid) as [Hin|Hex]; [|right; by apply Hshift].
           simpl in Hin. by apply Hhere.
      * apply IH in H as [H1 H2]; [|done]. split; [done|].
        intros pid Hpid. destruct (H2 pid Hpid) as [?|?]; [by left|right; by apply Hshift].
    + apply IH in H as [H1 H2]; [|done]. split; [done|].
      intros pid Hpid. destruct (H2 pid Hpid) as [?|?]; [by left|right; by apply Hshift].
Qed.

Lemma monitor_failures kof p children ticks : ∀ st st',
  monitor kof p children ticks st = Some st' →
  NoDup (failures st) →
  NoDup (failures st') ∧
  ∀ pid, pid ∈ failures st' →
    pid ∈ failures st ∨
    ∃ t (k : nat) rc, t ∈ ticks ∧ children !! k = Some pid ∧ poll t k = Some rc ∧ rc ≠ 0.
Proof.
  induction ticks as [|t ts IH]; intros st st' H Hnd; simpl in H; [done|].
  set (st1 := {| failures := failures st;
                 stop_children_event := stop_children_event st;
                 files := files st ∪ list_to_set (writes t);
                 interrupted := interrupted st |}) in H.
  destruct (on_signal_spec p (signal t) st1) as (Hsf & _ & _).
  destruct (check_completion kof p (poll t) 0 children (on_signal p (signal t) st1) true)
    as [st2 ad] eqn:Hcc.
  apply check_completion_failures in Hcc as [Hc1 Hc2]; [|by rewrite Hsf].
  rewrite Hsf in Hc2. simpl in Hc2.
  assert (Hnow : ∀ pid, pid ∈ failures st2 →
    pid ∈ failures st ∨
    ∃ t' (k : nat) rc, t' ∈ t :: ts ∧ children !! k = Some pid ∧
      poll t' k = Some rc ∧ rc ≠ 0).
  { intros pid Hpid. destruct (Hc2 pid Hpid) as [?|(k & rc & ? & ? & ?)]; [by left|].
    right. exists t, k, rc. split_and!; [by left|done..]. }
  destruct ad.
  - injection H as <-. done.
  - apply IH in H as [H1 H2]; [|done]. split; [done|].
    intros pid Hpid. destruct (H2 pid Hpid) as [Hin|(t' & k & rc & ? & ? & ? & ?)].
    + by apply Hnow.
    + right. exists t', k, rc. split_and!; [by right|done..].
Qed.

Definition outcome_finish (r : option (finish * gset string * mon)) : finish :=
  match r with Some (f, _, _) => f | None => Fatal end.

(** X16. The failure list of a run names no process twice, and every pid
    in it is the pid of a job of this run that the monitor loop saw with a
    non-zero exit status. *)
Theorem run_failures_are_failed_children (a : run_args) (h : host)
    (kill_on_fail dry_run : bool) (e : run_env) (f : finish) (fs : gset string)
    (st : mon) :
  run_orchestrator a h kill_on_fail dry_run e = Some (f, fs, st) →
  NoDup (failures st) ∧
  ∀ pid, pid ∈ failures st →
    ∃ p t (k : nat) rc, plan_run a h = Ok p ∧ t ∈ ticks e ∧
      spawned p e !! k = Some pid ∧ poll t k = Some rc ∧ rc ≠ 0.
Proof.
  unfold run_orchestrator. destruct (plan_run a h) as [p|ex] eqn:Hplan.
  2: { intros [= <- <- <-]. simpl. split; [constructor|]. by intros pid ?%elem_of_nil. }
  destruct dry_run.
  { intros [= <- <- <-]. simpl. split; [constructor|]. by intros pid ?%elem_of_nil. }
  unfold spawned.
  destruct (spawn_loop p (spawn_signal e) (spawn_pid e) 0 (ranges p) (start_state p e) [])
    as [st1 children] eqn:Hspawn.
  pose proof Hspawn as Hchildren.
  apply spawn_loop_spec in Hspawn as (Hsf & _ & _).
  destruct (monitor kill_on_fail p children (ticks e) st1) as [st2|] eqn:Hmon; [|done].
  apply monitor_failures in Hmon as [Hm1 Hm2]; [|rewrite Hsf; constructor].
  destruct (on_signal_spec p (late_signal e) st2) as (Hlf & _ & _).
  destruct (finalize p (output a) (ffmpeg_at_stitch e) (stitch e)
              (on_signal p (late_signal e) st2)) as [f' fs'].
  intros [= <- <- <-]. rewrite Hlf. split; [done|].
  intros pid Hpid. destruct (Hm2 pid Hpid) as [Hin|(t & k & rc & ? & ? & ? & ?)].
  - rewrite Hsf in Hin. by apply elem_of_nil in Hin.
  - exists p, t, k, rc. by rewrite Hchildren.
Qed.

Definition failed_run : option (finish * gset string * mon) :=
  run_orchestrator (example_args "out/name_[#####].png" 3) (example_host None)
    false false
    (example_env [quiet_tick [None; Some 3; None]; quiet_tick [Some 0; Some 3; Some 0]]).

(** Three jobs of which the second exits with status 3 in both turns: it is
    recorded once. *)
Lemma run_failures_are_failed_children_witness :
  failures (outcome_state failed_run) = [501] ∧ NoDup (failures (outcome_state failed_run)).
Proof.
  split; [vm_compute; reflexivity|].
  apply (run_failures_are_failed_children
           (example_args "out/name_[#####].png" 3) (example_host None) false false
           (example_env [quiet_tick [None; Some 3; None]; quiet_tick [Some 0; Some 3; Some 0]])
           (outcome_finish failed_run) (outcome_files failed_run) (outcome_state failed_run)).
  vm_compute. reflexivity.
Defined.

(** *** When the monitor loop ends *)

Lemma check_completion_all_exited kof p poll children : ∀ i st ad,
  (∀ k : nat, (k < length children)%nat → poll (i + k)%nat ≠ None) →
  (check_completion kof p poll i children st ad).2 = ad.
Proof.
  induction children as [|c rest IH]; intros i st ad Hall; simpl; [done|].
  assert (Hrest : ∀ k : nat, (k < length rest)%nat → poll (S i + k)%nat ≠ None).
  { intros k Hk. replace (S i + k)%nat with (i + S k)%nat by lia. apply Hall. simpl. lia. }
  destruct (poll i) as [rc|] eqn:Hpoll.
  - case_decide; [destruct kof; [done|]|]; by apply IH.
  - exfalso. apply (Hall 0%nat); [simpl; lia|]. by rewrite Nat.add_0_r.
Qed.

Lemma check_completion_done kof p poll children : ∀ i st ad st',
  check_completion kof p poll i children st ad = (st', true) →
  ad = true ∧
  ((∀ k : nat, (k < length children)%nat → poll (i + k)%nat ≠ None) ∨
   (kof = true ∧ stop_children_event st' = true ∧ failures st' ≠ [])).
Proof.
  induction children as [|c rest IH]; intros i st ad st' H; simpl in H.
  - injection H as <- ->. split; [done|]. left. simpl. lia.
  - assert (Hcons : ∀ rc, poll i = Some rc →
      (∀ k : nat, (k < length rest)%nat → poll (S i + k)%nat ≠ None) →
      ∀ k : nat, (k < length (c :: rest))%nat → poll (i + k)%nat ≠ None).
    { intros rc Hrc Hrest [|k] Hk.
      - by rewrite Nat.add_0_r, Hrc.
      - replace (i + S k)%nat with (S i + k)%nat by lia. apply Hrest. simpl in Hk. lia. }
    destruct (poll i) as [rc|] eqn:Hpoll.
    + case_decide as Hfail.
      * destruct kof.
        -- injection H as <- ->. split; [done|]. right. simpl.
           split_and!; [done|done|]. by destruct (failures st).
        -- apply IH in H as [-> [Hall|(? & _)]]; [|done]. split; [done|].
           left. by apply (Hcons rc).
      * apply IH in H as [-> [Hall|?]]; (split; [done|]); [left|by right].
        by apply (Hcons rc).
    + by apply IH in H as [? _].
Qed.

Lemma check_completion_records p poll children : ∀ i st ad st' ad',
  check_completion false p poll i children st ad = (st', ad') →
  ∀ (k : nat) pid rc, children !! k = Some pid → poll (i + k)%nat = Some rc → rc ≠ 0 →
    pid ∈ failures st'.
Proof.
  induction children as [|c rest IH]; intros i st ad st' ad' H k pid rc Hk Hp Hrc;
    simpl in H; [done|].
  assert (Hkeep : ∀ st0 ad0, check_completion false p poll (S i) rest st0 ad0 = (st', ad') →
    ∀ x, x ∈ failures st0 → x ∈ failures st').
  { intros st0 ad0 H0 x Hx. apply check_completion_spec in H0 as (_ & [more ->] & _).
    apply elem_of_app. by left. }
  destruct k as [|k]; simpl in Hk.
  - injection Hk as ->. rewrite Nat.add_0_r in Hp. rewrite Hp in H.
    case_decide as Hfail.
    + eapply Hkeep; [exact H|]. simpl. apply elem_of_app. right. by left.
    + eapply Hkeep; [exact H|]. destruct (decide (pid ∈ failures st)); [done|].
      exfalso. by apply Hfail.
  - replace (i + S k)%nat with (S i + k)%nat in Hp by lia.
    destruct (poll i) as [rc0|]; [case_decide|]; by eapply IH.
Qed.

Lemma monitor_terminates kof p children ticks : ∀ st t,
  t ∈ ticks → all_exited children t → is_Some (monitor kof p children ticks st).
Proof.
  induction ticks as [|t0 ts IH]; intros st t Hin Hall; [by apply elem_of_nil in Hin|].
  simpl.
  match goal with |- context [check_completion kof p (poll t0) 0 children ?s true] =>
    destruct (check_completion kof p (poll t0) 0 children s true) as [st2 ad] eqn:Hcc end.
  destruct ad; [done|].
  apply elem_of_cons in Hin as [->|Hin]; [|by eapply IH].
  exfalso. pose proof (check_completion_all_exited kof p (poll t0) children 0
    (on_signal p (signal t0)
       {| failures := failures st; stop_children_event := stop_children_event st;
          files := files st ∪ list_to_set (writes t0); interrupted := interrupted st |})
    true Hall) as Hd.
  rewrite Hcc in Hd. done.
Qed.

(** X17. Without [kill_on_fail] the monitor loop ends exactly at the
    first turn at which every child has exited: it returns if and only if
    there is such a turn, and when it returns, no earlier turn was one, and
    every child that shows a non-zero status at that turn is in the failure
    list. *)
Theorem monitor_waits_for_all (p : plan) (children : list Z) (ticks : list tick)
    (st : mon) :
  (is_Some (monitor false p children ticks st) ↔
     ∃ t, t ∈ ticks ∧ all_exited children t) ∧
  (∀ st', monitor false p children ticks st = Some st' →
     ∃ pre t post, ticks = pre ++ t :: post ∧ all_exited children t ∧
       (∀ t', t' ∈ pre → ¬ all_exited children t') ∧
       ∀ (k : nat) pid rc, children !! k = Some pid → poll t k = Some rc → rc ≠ 0 →
         pid ∈ failures st').
Proof.
  assert (Hexact : ∀ turns st st', monitor false p children turns st = Some st' →
     ∃ pre t post, turns = pre ++ t :: post ∧ all_exited children t ∧
       (∀ t', t' ∈ pre → ¬ all_exited children t') ∧
       ∀ (k : nat) pid rc, children !! k = Some pid → poll t k = Some rc → rc ≠ 0 →
         pid ∈ failures st').
  { clear. intros turns. induction turns as [|t0 ts IH]; intros st st' H; simpl in H; [done|].
    match type of H with context [check_completion false p (poll t0) 0 children ?s true] =>
      set (s0 := s) in H; destruct (check_completion false p (poll t0) 0 children s0 true)
        as [st2 ad] eqn:Hcc end.
    destruct ad.
    - injection H as <-. exists [], t0, ts. split_and!; [done| | |].
      + apply check_completion_done in Hcc as [_ [Hall|(? & _)]]; [|done].
        intros k Hk. by apply (Hall k).
      + by intros t' ?%elem_of_nil.
      + intros k pid rc Hk Hp Hrc.
        by apply (check_completion_records p (poll t0) children 0 s0 true st2 true Hcc k pid rc).
    - apply IH in H as (pre & t & post & -> & Hall & Hpre & Hrec).
      exists (t0 :: pre), t, post. split_and!; [done|done| |done].
      intros t' [Heq|Hin]%elem_of_cons; [subst t'|by apply Hpre].
      intros Hall0.
      pose proof (check_completion_all_exited false p (poll t0) children 0 s0 true Hall0) as Hd.
      rewrite Hcc in Hd. done. }
  split.
  - split.
    + intros [st' H]. apply Hexact in H as (pre & t & post & -> & Hall & _).
      exists t. split; [|done]. apply elem_of_app. right. by left.
    + intros (t & Hin & Hall). by apply (monitor_terminates false p children ticks st t).
  - intros st'. apply Hexact.
Qed.

(** X18. With or without [kill_on_fail], a run whose jobs have all exited
    at some turn ends: the monitor loop returns at that turn at the latest.
    When the loop ends although at no turn every child had exited, then
    [kill_on_fail] is set, a failure was recorded and the stop flag is set:
    the loop does not wait for the jobs it has just asked to terminate. *)
Theorem run_terminates (a : run_args) (h : host) (kill_on_fail dry_run : bool)
    (e : run_env) :
  ((∀ p, plan_run a h = Ok p → ∃ t, t ∈ ticks e ∧ all_exited (spawned p e) t) →
   is_Some (run_orchestrator a h kill_on_fail dry_run e)) ∧
  (∀ p children ts st st', monitor kill_on_fail p children ts st = Some st' →
     (∃ t, t ∈ ts ∧ all_exited children t) ∨
     (kill_on_fail = true ∧ stop_children_event st' = true ∧ failures st' ≠ [])).
Proof.
  split.
  - intros Hall. unfold run_orchestrator.
    destruct (plan_run a h) as [p|ex] eqn:Hplan; [|done].
    destruct dry_run; [done|].
    destruct (Hall p eq_refl) as (t & Hin & Ht). unfold spawned in Ht.
    destruct (spawn_loop p (spawn_signal e) (spawn_pid e) 0 (ranges p) (start_state p e) [])
      as [st1 children] eqn:Hspawn. simpl in Ht.
    destruct (monitor_terminates kill_on_fail p children (ticks e) st1 t Hin Ht) as [st2 ->].
    by destruct (finalize p (output a) (ffmpeg_at_stitch e) (stitch e)
                   (on_signal p (late_signal e) st2)).
  - intros p children ts. induction ts as [|t0 ts IH]; intros st st' H; simpl in H; [done|].
    match type of H with context [check_completion kill_on_fail p (poll t0) 0 children ?s true] =>
      destruct (check_completion kill_on_fail p (poll t0) 0 children s true)
        as [st2 ad] eqn:Hcc end.
    destruct ad.
    + injection H as <-. apply check_completion_done in Hcc as [_ [Hall|?]]; [left|by right].
      exists t0. split; [by left|]. intros k Hk. by apply (Hall k).
    + apply IH in H as [(t & ? & ?)|?]; [left|by right]. exists t. split; [by right|done].
Qed.

(** *** The jobs that are launched *)

Lemma spawn_loop_prefix p sig pid ranges : ∀ i st children st' children',
  stop_children_event st = false →
  spawn_loop p sig pid i ranges st children = (st', children') →
  ∃ k : nat, (k <= length ranges)%nat ∧
    children' = children ++ (pid <$> seq i k) ∧
    (∀ j : nat, (i <= j < i + k)%nat → sig j = false) ∧
    ((k < length ranges)%nat → sig (i + k)%nat = true ∧ stop_children_event st' = true) ∧
    (k = length ranges → stop_children_event st' = false).
Proof.
  induction ranges as [|r rest IH]; intros i st children st' children' Hstop H; simpl in H.
  - injection H as <- <-. exists 0%nat. simpl. rewrite app_nil_r.
    split_and!; [done|done|lia|lia|done].
  - destruct (sig i) eqn:Hsig; simpl in H.
    + injection H as <- <-. exists 0%nat. simpl. rewrite app_nil_r, Nat.add_0_r.
      split_and!; [lia|done|lia|done|lia].
    + rewrite Hstop in H. apply IH in H as (k & Hk & -> & Hno & Hsome & Hall); [|done].
      exists (S k). simpl. rewrite <- app_assoc. simpl.
      split_and!; [lia|done| | |].
      * intros j Hj. destruct (decide (j = i)) as [->|]; [done|]. apply Hno. lia.
      * intros Hlt. replace (i + S k)%nat with (S i + k)%nat by lia. apply Hsome. lia.
      * intros Heq. apply Hall. lia.
Qed.

(** The handler may run twice without further effect. *)
Lemma sig_handler_twice p st : _sig_handler p (_sig_handler p st) = _sig_handler p st.
Proof.
  unfold _sig_handler, cleanup_resources. simpl. f_equal.
  destruct (use_scratch p); [|done].
  apply set_eq. intros x. unfold rmtree. rewrite !elem_of_filter. tauto.
Qed.

Lemma on_signal_twice p s1 s2 st :
  on_signal p s2 (on_signal p s1 st) = on_signal p (s1 || s2) st.
Proof. destruct s1, s2; simpl; [apply sig_handler_twice|done..]. Qed.

(** The places at which a signal handler can run while the jobs are
    launched: between the installation of the handlers (944-945) and the
    first test of the stop flag; in iteration [i] between the test (948) and
    the call of [Popen] (958), which is where [time.sleep(spawn_delay)]
    waits; and in iteration [i] between [Popen] and the next test, or the
    end of the loop. *)
Record spawn_timing := {
  at_start : bool;
  before_launch : nat → bool;
  after_launch : nat → bool;
}.

(** Lines 947-988 in the order of the statements: the test, the delay, the
    launch, the bookkeeping.  As in [spawn_loop], every [Popen] is taken to
    start its process. *)
Fixpoint spawn_steps (p : plan) (w : spawn_timing) (spawn_pid : nat → Z)
    (i : nat) (ranges : list (Z * Z)) (st : mon) (children : list Z)
  : mon * list Z :=
  match ranges with
  | [] => (st, children)
  | _ :: rest =>
      if stop_children_event st then (st, children)
      else
        let st := on_signal p (before_launch w i) st in
        let children := children ++ [spawn_pid i] in
        let st := on_signal p (after_launch w i) st in
        spawn_steps p w spawn_pid (S i) rest st children
  end.

(** The pids of the jobs started by a run with the signals of [w]. *)
Definition launched (p : plan) (e : run_env) (w : spawn_timing) : list Z :=
  (spawn_steps p w (spawn_pid e) 0 (ranges p)
     (on_signal p (at_start w) (start_state p e)) []).2.

(** What the test of iteration [i] sees of the signals: those handled since
    the previous test. *)
Definition seen_by_test (w : spawn_timing) (i : nat) : bool :=
  match i with
  | O => at_start w
  | S j => before_launch w j || after_launch w j
  end.

(** The environment of [run_orchestrator] in which the signals of the spawn
    loop are those of [w]. *)
Definition with_timing (e : run_env) (w : spawn_timing) : run_env :=
  {| spawn_signal := seen_by_test w; spawn_pid := spawn_pid e; ticks := ticks e;
     late_signal := late_signal e; ffmpeg_at_stitch := ffmpeg_at_stitch e;
     stitch := stitch e; files0 := files0 e |}.

(** [spawn_loop], which looks at the signals once per test, launches the
    jobs of [spawn_steps]. *)
Lemma spawn_steps_loop p w pid ranges : ∀ i st children,
  (spawn_steps p w pid i ranges (on_signal p (seen_by_test w i) st) children).2 =
  (spawn_loop p (seen_by_test w) pid i ranges st children).2.
Proof.
  induction ranges as [|r rest IH]; intros i st children; simpl; [done|].
  destruct (stop_children_event (on_signal p (seen_by_test w i) st)); [done|].
  rewrite on_signal_twice. apply (IH (S i)).
Qed.

(** Signal at the start, none later: no job.  Signal while the loop waits
    before the launch of job 1: jobs 0 and 1 are launched, job 2 is not. *)
Example launched_after_signal :
  let p := {| concurrency := 3; single_file_concat_mode := false; output_is_seq := true;
              ranges := [(1, 10); (11, 20); (21, 30)]; use_scratch := false;
              local_scratch_dir := ""; local_output_path := "out/name_[#####].png";
              segment_outputs := [] |} in
  launched p (example_env [])
    {| at_start := true; before_launch := λ _, false; after_launch := λ _, false |} = [] ∧
  launched p (example_env [])
    {| at_start := false; before_launch := λ i, bool_decide (i = 1%nat);
       after_launch := λ _, false |} = [500; 501].
Proof. vm_compute. done. Qed.

(** X19. Jobs are launched in the order of the ranges, child [j] being
    the process started for range [j], and the loop stops at the first test
    of the stop flag that follows a handled signal: the job of range [j] is
    launched exactly when no signal was handled before the test of
    iteration [j], that is none before the first test and none during the
    iterations before [j].  A signal handled after that test, while the
    loop waits for [spawn_delay] or launches the job, does not hold back
    job [j] but only the later ones.  The jobs are those of the run whose
    spawn loop sees these signals at its tests. *)
Theorem spawned_until_first_signal (p : plan) (e : run_env) (w : spawn_timing) :
  launched p e w = spawned p (with_timing e w) ∧
  ∃ k : nat,
    launched p e w = spawn_pid e <$> seq 0 k ∧
    ∀ j : nat,
      (j < k)%nat ↔
      (j < length (ranges p))%nat ∧
      at_start w = false ∧
      ∀ i : nat, (i < j)%nat → before_launch w i = false ∧ after_launch w i = false.
Proof.
  assert (Hsame : launched p e w = spawned p (with_timing e w)).
  { unfold launched, spawned. simpl.
    apply (spawn_steps_loop p w (spawn_pid e) (ranges p) 0). }
  split; [done|]. rewrite Hsame. unfold spawned. simpl.
  destruct (spawn_loop p (seen_by_test w) (spawn_pid e) 0 (ranges p)
              (start_state p (with_timing e w)) []) as [st' children'] eqn:Hspawn.
  apply spawn_loop_prefix in Hspawn as (k & Hk & -> & Hno & Hsome & _); [|done].
  exists k. simpl. split; [done|]. intros j. split.
  - intros Hj. split; [lia|]. split.
    + apply (Hno 0%nat). lia.
    + intros i Hi. apply orb_false_iff. apply (Hno (S i)). lia.
  - intros (Hlen & H0 & Hquiet).
    destruct (decide (j < k)%nat) as [|Hge]; [done|]. exfalso.
    destruct Hsome as [Hsig _]; [lia|]. simpl in Hsig.
    destruct k as [|k']; simpl in Hsig; [congruence|].
    destruct (Hquiet k') as [Hb Ha]; [lia|]. rewrite Hb, Ha in Hsig. done.
Qed.

End RunFacts.
